(** * The Go AST toolkit of tutorials/go/debugging/ast

    A shallow embedding of the three command-line tools
    [custom_linter.go], [refactoring_tool.go] and [code_generator.go],
    together with the part of the Go standard library they are written
    against: [go/token] positions, the [go/ast] syntax tree with the child
    order of [ast.Walk], the object annotations left by [go/parser], the
    [strings] helpers and the lexer of [text/template].

    The definitions come first, one module for each package and each
    tool; the properties follow, one module of facts for each tool. *)

From Stdlib Require Import Ascii String.
From stdpp Require Import gmap strings pretty list fin_maps.

Local Open Scope string_scope.
Local Open Scope list_scope.

(** ** go/token *)

Module token.

(** [token.Pos] is an offset into the file set; [NoPos] is zero. *)
Definition Pos := nat.
Definition NoPos : Pos := 0.
Definition IsValid (p : Pos) : bool := negb (Nat.eqb p NoPos).

(** [token.Position], the printable form of a [Pos]. *)
Record Position := mkPosition
  { Filename : string; Offset : nat; Line : nat; Column : nat }.

(** The file set is only ever used through [fset.Position(p)]. *)
Definition FileSet := Pos -> Position.

(** The tokens the tools look at, and a catch-all for the operators. *)
Inductive Token :=
| IMPORT | CONST | TYPE | VAR
| INT | FLOAT | IMAG | CHAR | STRING
| ASSIGN | DEFINE
| OP (code : nat).

#[global] Instance Token_eq_dec : EqDecision Token.
Proof. solve_decision. Defined.

End token.

(** ** go/ast *)

Module ast.

Import token.

(** Nodes are compared by pointer in the tools ([ident == parent.Name]),
    so every identifier carries the address it was allocated at. *)
Definition Addr := nat.

Inductive ObjKind := Bad | Pkg | Con | Typ | Var | Fun | Lbl.

(** What the tools read of [Object.Decl]: its dynamic type and, for the
    node kinds whose fields they follow, the address of the identifier
    found there ([parent.Name], [parent.Fun], [parent.Fun.Sel]). *)
Inductive CallFun :=
| FunIdent (fn : Addr)
| FunSelector (sel : Addr)
| FunOther.

Inductive DeclNode :=
| DeclNil
| DeclField
| DeclValueSpec
| DeclTypeSpec (name : Addr)
| DeclImportSpec
| DeclFuncDecl (name : Addr)
| DeclLabeledStmt
| DeclAssignStmt
| DeclScope
| DeclCallExpr (fn : CallFun)
| DeclOther.

Record Object := mkObject
  { Kind : ObjKind; ObjName : string; ObjDecl : DeclNode }.

Record Ident := mkIdent
  { Ptr : Addr; NamePos : Pos; Name : string; Obj : option Object }.

Record BasicLit := mkBasicLit
  { ValuePos : Pos; LitKind : Token; Value : string }.

Record Comment := mkComment { Slash : Pos; Text : string }.

(** [*ast.CommentGroup]; [None] where the Go field is nil. *)
Definition CommentGroup := list Comment.

(** [*ast.ImportSpec]: it has no sub-expressions, so it is a record of its
    own and [File.Imports] can hold it as Go does. *)
Record ImportSpec := mkImportSpec
  { ImportDoc : option CommentGroup;
    ImportName : option Ident;
    ImportPath : BasicLit;
    ImportComment : option CommentGroup }.

(** The syntax tree.  Slices of nodes are spelled out as their own list
    types so that the tree is a plain mutual inductive type; a pointer or
    interface field that may be nil has an [Opt] type.  Position fields
    are kept where [Pos()] of an expression needs them. *)
Inductive Expr :=
| BadExpr (from : Pos)
| IdentExpr (id : Ident)
| Ellipsis (ellipsis : Pos) (elt : OptExpr)
| BasicLitExpr (lit : BasicLit)
| FuncLit (ty : FuncType) (body : BlockStmt)
| CompositeLit (ty : OptExpr) (lbrace : Pos) (elts : ExprList)
| ParenExpr (lparen : Pos) (x : Expr)
| SelectorExpr (x : Expr) (sel : Ident)
| IndexExpr (x : Expr) (index : Expr)
| IndexListExpr (x : Expr) (indices : ExprList)
| SliceExpr (x : Expr) (low high max : OptExpr)
| TypeAssertExpr (x : Expr) (ty : OptExpr)
| CallExpr (fn : Expr) (args : ExprList)
| StarExpr (star : Pos) (x : Expr)
| UnaryExpr (oppos : Pos) (op : Token) (x : Expr)
| BinaryExpr (x : Expr) (op : Token) (y : Expr)
| KeyValueExpr (key value : Expr)
| ArrayType (lbrack : Pos) (len : OptExpr) (elt : Expr)
| StructType (structpos : Pos) (fields : FieldList)
| FuncTypeExpr (ft : FuncType)
| InterfaceType (interfacepos : Pos) (methods : FieldList)
| MapType (mappos : Pos) (key value : Expr)
| ChanType (beginpos : Pos) (value : Expr)
with OptExpr :=
| NoExpr
| SomeExpr (e : Expr)
with ExprList :=
| ENil
| ECons (e : Expr) (es : ExprList)
with Field :=
| mkField (doc : option CommentGroup) (names : list Ident) (ty : OptExpr)
          (tag : option BasicLit) (comment : option CommentGroup)
with Fields :=
| FNil
| FCons (f : Field) (fs : Fields)
with FieldList :=
| mkFieldList (opening : Pos) (fields : Fields) (closing : Pos)
with OptFieldList :=
| NoFieldList
| SomeFieldList (fl : FieldList)
with FuncType :=
| mkFuncType (func : Pos) (typeparams params results : OptFieldList)
with Stmt :=
| BadStmt
| DeclStmt (decl : GenDecl)
| EmptyStmt
| LabeledStmt (label : Ident) (stmt : Stmt)
| ExprStmt (x : Expr)
| SendStmt (chan value : Expr)
| IncDecStmt (x : Expr) (tok : Token)
| AssignStmt (lhs : ExprList) (tok : Token) (rhs : ExprList)
| GoStmt (call : Expr)
| DeferStmt (call : Expr)
| ReturnStmt (results : ExprList)
| BranchStmt (tok : Token) (label : option Ident)
| BlockStmtS (b : BlockStmt)
| IfStmt (init : OptStmt) (cond : Expr) (body : BlockStmt) (els : OptStmt)
| CaseClause (exprs : ExprList) (body : StmtList)
| SwitchStmt (init : OptStmt) (tag : OptExpr) (body : BlockStmt)
| TypeSwitchStmt (init : OptStmt) (assign : Stmt) (body : BlockStmt)
| CommClause (comm : OptStmt) (body : StmtList)
| SelectStmt (body : BlockStmt)
| ForStmt (init : OptStmt) (cond : OptExpr) (post : OptStmt) (body : BlockStmt)
| RangeStmt (key value : OptExpr) (tok : Token) (x : Expr) (body : BlockStmt)
with OptStmt :=
| NoStmt
| SomeStmt (s : Stmt)
with StmtList :=
| SNil
| SCons (s : Stmt) (ss : StmtList)
with BlockStmt :=
| mkBlockStmt (lbrace : Pos) (stmts : StmtList) (rbrace : Pos)
with Spec :=
| ImportSpecS (imp : ImportSpec)
| ValueSpec (doc : option CommentGroup) (names : list Ident) (ty : OptExpr)
            (values : ExprList) (comment : option CommentGroup)
| TypeSpec (doc : option CommentGroup) (name : Ident)
           (typeparams : OptFieldList) (ty : Expr)
           (comment : option CommentGroup)
with SpecList :=
| SpNil
| SpCons (s : Spec) (ss : SpecList)
with GenDecl :=
| mkGenDecl (doc : option CommentGroup) (tokpos : Pos) (tok : Token)
            (specs : SpecList).

(** A [DeclStmt] built by [go/parser] always holds a [*ast.GenDecl], so
    function declarations only occur in [File.Decls]. *)
Inductive Decl :=
| BadDecl
| GenDeclD (d : GenDecl)
| FuncDecl (doc : option CommentGroup) (recv : OptFieldList) (name : Ident)
           (ty : FuncType) (body : option BlockStmt).

Record File := mkFile
  { FileDoc : option CommentGroup;
    FileName : Ident;
    Decls : list Decl }.

Scheme Expr_mutind := Induction for Expr Sort Prop
  with OptExpr_mutind := Induction for OptExpr Sort Prop
  with ExprList_mutind := Induction for ExprList Sort Prop
  with Field_mutind := Induction for Field Sort Prop
  with Fields_mutind := Induction for Fields Sort Prop
  with FieldList_mutind := Induction for FieldList Sort Prop
  with OptFieldList_mutind := Induction for OptFieldList Sort Prop
  with FuncType_mutind := Induction for FuncType Sort Prop
  with Stmt_mutind := Induction for Stmt Sort Prop
  with OptStmt_mutind := Induction for OptStmt Sort Prop
  with StmtList_mutind := Induction for StmtList Sort Prop
  with BlockStmt_mutind := Induction for BlockStmt Sort Prop
  with Spec_mutind := Induction for Spec Sort Prop
  with SpecList_mutind := Induction for SpecList Sort Prop
  with GenDecl_mutind := Induction for GenDecl Sort Prop.

Combined Scheme syntax_mutind from
  Expr_mutind, OptExpr_mutind, ExprList_mutind, Field_mutind,
  Fields_mutind, FieldList_mutind, OptFieldList_mutind, FuncType_mutind,
  Stmt_mutind, OptStmt_mutind, StmtList_mutind, BlockStmt_mutind,
  Spec_mutind, SpecList_mutind, GenDecl_mutind.

(** *** Positions of expressions: the [Pos()] methods *)

Fixpoint Expr_Pos (e : Expr) : Pos :=
  match e with
  | BadExpr from => from
  | IdentExpr id => NamePos id
  | Ellipsis ellipsis _ => ellipsis
  | BasicLitExpr lit => ValuePos lit
  | FuncLit ty _ => FuncType_Pos ty
  | CompositeLit ty lbrace _ =>
      match ty with
      | SomeExpr t => Expr_Pos t
      | NoExpr => lbrace
      end
  | ParenExpr lparen _ => lparen
  | SelectorExpr x _ => Expr_Pos x
  | IndexExpr x _ => Expr_Pos x
  | IndexListExpr x _ => Expr_Pos x
  | SliceExpr x _ _ _ => Expr_Pos x
  | TypeAssertExpr x _ => Expr_Pos x
  | CallExpr fn _ => Expr_Pos fn
  | StarExpr star _ => star
  | UnaryExpr oppos _ _ => oppos
  | BinaryExpr x _ _ => Expr_Pos x
  | KeyValueExpr key _ => Expr_Pos key
  | ArrayType lbrack _ _ => lbrack
  | StructType structpos _ => structpos
  | FuncTypeExpr ft => FuncType_Pos ft
  | InterfaceType interfacepos _ => interfacepos
  | MapType mappos _ _ => mappos
  | ChanType beginpos _ => beginpos
  end
with FuncType_Pos (ft : FuncType) : Pos :=
  match ft with
  | mkFuncType func _ params _ =>
      match params with
      | NoFieldList => func
      | SomeFieldList fl => if IsValid func then func else FieldList_Pos fl
      end
  end
with FieldList_Pos (fl : FieldList) : Pos :=
  match fl with
  | mkFieldList opening fields _ =>
      if IsValid opening then opening
      else match fields with
           | FCons f _ => Field_Pos f
           | FNil => NoPos
           end
  end
with Field_Pos (f : Field) : Pos :=
  match f with
  | mkField _ names ty _ _ =>
      match names with
      | n :: _ => NamePos n
      | [] => match ty with
              | SomeExpr t => Expr_Pos t
              | NoExpr => NoPos
              end
      end
  end.

(** [ImportSpec.Pos()]: the name when there is one, the path otherwise. *)
Definition ImportSpec_Pos (s : ImportSpec) : Pos :=
  match ImportName s with
  | Some n => NamePos n
  | None => ValuePos (ImportPath s)
  end.

(** *** Slices of nodes as lists *)

Fixpoint exprs (l : ExprList) : list Expr :=
  match l with ENil => [] | ECons e es => e :: exprs es end.

Fixpoint fields_list (l : Fields) : list Field :=
  match l with FNil => [] | FCons f fs => f :: fields_list fs end.

Fixpoint specs_list (l : SpecList) : list Spec :=
  match l with SpNil => [] | SpCons s ss => s :: specs_list ss end.

Fixpoint stmts_list (l : StmtList) : list Stmt :=
  match l with SNil => [] | SCons s ss => s :: stmts_list ss end.

(** [f.Names] and [f.Type] of a field; [fl.List] of a field list that
    may be nil, read as the tools do after their nil check. *)
Definition field_names (f : Field) : list Ident :=
  match f with mkField _ names _ _ _ => names end.

Definition field_type (f : Field) : OptExpr :=
  match f with mkField _ _ ty _ _ => ty end.

Definition optfields (fl : OptFieldList) : list Field :=
  match fl with
  | NoFieldList => []
  | SomeFieldList (mkFieldList _ fields _) => fields_list fields
  end.

(** [append(l.List, f)] on a field list. *)
Fixpoint fields_snoc (l : Fields) (f : Field) : Fields :=
  match l with
  | FNil => FCons f FNil
  | FCons g gs => FCons g (fields_snoc gs f)
  end.

(** *** ast.Walk and ast.Inspect

    A node as the visitor sees it.  An [*ast.Ident], [*ast.BasicLit],
    [*ast.FuncType] or [*ast.BlockStmt] reached through a typed field is the
    same kind of node as one reached through an [Expr] or [Stmt] field. *)
Inductive Node :=
| NComment (c : Comment)
| NCommentGroup (g : CommentGroup)
| NField (f : Field)
| NFieldList (fl : FieldList)
| NExpr (e : Expr)
| NStmt (s : Stmt)
| NSpec (s : Spec)
| NDecl (d : Decl)
| NFile (f : File).

Definition walk_doc (g : option CommentGroup) : list Node :=
  match g with
  | None => []
  | Some g => NCommentGroup g :: map NComment g
  end.

Definition walk_ident (id : Ident) : list Node := [NExpr (IdentExpr id)].

Definition walk_idents (ids : list Ident) : list Node :=
  flat_map walk_ident ids.

Definition walk_opt_ident (id : option Ident) : list Node :=
  match id with None => [] | Some i => walk_ident i end.

Definition walk_lit (l : BasicLit) : list Node := [NExpr (BasicLitExpr l)].

Definition walk_opt_lit (l : option BasicLit) : list Node :=
  match l with None => [] | Some l => walk_lit l end.

Definition walk_import (s : ImportSpec) : list Node :=
  walk_doc (ImportDoc s) ++ walk_opt_ident (ImportName s)
  ++ walk_lit (ImportPath s) ++ walk_doc (ImportComment s).

(** The nodes of a subtree in the order [ast.Walk] hands them to the
    visitor, following the [switch] of [ast.Walk] case by case. *)
Fixpoint walk_expr (e : Expr) : list Node :=
  NExpr e ::
  match e with
  | BadExpr _ | IdentExpr _ | BasicLitExpr _ => []
  | Ellipsis _ elt => walk_optexpr elt
  | FuncLit ty body => walk_functype ty ++ walk_block body
  | CompositeLit ty _ elts => walk_optexpr ty ++ walk_exprs elts
  | ParenExpr _ x => walk_expr x
  | SelectorExpr x sel => walk_expr x ++ walk_ident sel
  | IndexExpr x index => walk_expr x ++ walk_expr index
  | IndexListExpr x indices => walk_expr x ++ walk_exprs indices
  | SliceExpr x low high max =>
      walk_expr x ++ walk_optexpr low ++ walk_optexpr high ++ walk_optexpr max
  | TypeAssertExpr x ty => walk_expr x ++ walk_optexpr ty
  | CallExpr fn args => walk_expr fn ++ walk_exprs args
  | StarExpr _ x => walk_expr x
  | UnaryExpr _ _ x => walk_expr x
  | BinaryExpr x _ y => walk_expr x ++ walk_expr y
  | KeyValueExpr key value => walk_expr key ++ walk_expr value
  | ArrayType _ len elt => walk_optexpr len ++ walk_expr elt
  | StructType _ fields => walk_fieldlist fields
  | FuncTypeExpr ft => walk_functype_children ft
  | InterfaceType _ methods => walk_fieldlist methods
  | MapType _ key value => walk_expr key ++ walk_expr value
  | ChanType _ value => walk_expr value
  end
with walk_optexpr (e : OptExpr) : list Node :=
  match e with NoExpr => [] | SomeExpr e => walk_expr e end
with walk_exprs (l : ExprList) : list Node :=
  match l with ENil => [] | ECons e es => walk_expr e ++ walk_exprs es end
with walk_field (f : Field) : list Node :=
  NField f ::
  match f with
  | mkField doc names ty tag comment =>
      walk_doc doc ++ walk_idents names ++ walk_optexpr ty
      ++ walk_opt_lit tag ++ walk_doc comment
  end
with walk_fields (l : Fields) : list Node :=
  match l with FNil => [] | FCons f fs => walk_field f ++ walk_fields fs end
with walk_fieldlist (fl : FieldList) : list Node :=
  NFieldList fl ::
  match fl with mkFieldList _ fields _ => walk_fields fields end
with walk_optfieldlist (fl : OptFieldList) : list Node :=
  match fl with NoFieldList => [] | SomeFieldList fl => walk_fieldlist fl end
with walk_functype_children (ft : FuncType) : list Node :=
  match ft with
  | mkFuncType _ typeparams params results =>
      walk_optfieldlist typeparams ++ walk_optfieldlist params
      ++ walk_optfieldlist results
  end
with walk_functype (ft : FuncType) : list Node :=
  NExpr (FuncTypeExpr ft) ::
  match ft with
  | mkFuncType _ typeparams params results =>
      walk_optfieldlist typeparams ++ walk_optfieldlist params
      ++ walk_optfieldlist results
  end
with walk_stmt (s : Stmt) : list Node :=
  NStmt s ::
  match s with
  | BadStmt | EmptyStmt => []
  | DeclStmt decl => walk_gendecl decl
  | LabeledStmt label stmt => walk_ident label ++ walk_stmt stmt
  | ExprStmt x => walk_expr x
  | SendStmt chan value => walk_expr chan ++ walk_expr value
  | IncDecStmt x _ => walk_expr x
  | AssignStmt lhs _ rhs => walk_exprs lhs ++ walk_exprs rhs
  | GoStmt call => walk_expr call
  | DeferStmt call => walk_expr call
  | ReturnStmt results => walk_exprs results
  | BranchStmt _ label => walk_opt_ident label
  | BlockStmtS b => walk_block_children b
  | IfStmt init cond body els =>
      walk_optstmt init ++ walk_expr cond ++ walk_block body
      ++ walk_optstmt els
  | CaseClause exprs body => walk_exprs exprs ++ walk_stmts body
  | SwitchStmt init tag body =>
      walk_optstmt init ++ walk_optexpr tag ++ walk_block body
  | TypeSwitchStmt init assign body =>
      walk_optstmt init ++ walk_stmt assign ++ walk_block body
  | CommClause comm body => walk_optstmt comm ++ walk_stmts body
  | SelectStmt body => walk_block body
  | ForStmt init cond post body =>
      walk_optstmt init ++ walk_optexpr cond ++ walk_optstmt post
      ++ walk_block body
  | RangeStmt key value _ x body =>
      walk_optexpr key ++ walk_optexpr value ++ walk_expr x
      ++ walk_block body
  end
with walk_optstmt (s : OptStmt) : list Node :=
  match s with NoStmt => [] | SomeStmt s => walk_stmt s end
with walk_stmts (l : StmtList) : list Node :=
  match l with SNil => [] | SCons s ss => walk_stmt s ++ walk_stmts ss end
with walk_block_children (b : BlockStmt) : list Node :=
  match b with mkBlockStmt _ stmts _ => walk_stmts stmts end
with walk_block (b : BlockStmt) : list Node :=
  NStmt (BlockStmtS b) ::
  match b with mkBlockStmt _ stmts _ => walk_stmts stmts end
with walk_spec (s : Spec) : list Node :=
  NSpec s ::
  match s with
  | ImportSpecS imp => walk_import imp
  | ValueSpec doc names ty values comment =>
      walk_doc doc ++ walk_idents names ++ walk_optexpr ty
      ++ walk_exprs values ++ walk_doc comment
  | TypeSpec doc name typeparams ty comment =>
      walk_doc doc ++ walk_ident name ++ walk_optfieldlist typeparams
      ++ walk_expr ty ++ walk_doc comment
  end
with walk_specs (l : SpecList) : list Node :=
  match l with SpNil => [] | SpCons s ss => walk_spec s ++ walk_specs ss end
with walk_gendecl (d : GenDecl) : list Node :=
  NDecl (GenDeclD d) ::
  match d with
  | mkGenDecl doc _ _ specs => walk_doc doc ++ walk_specs specs
  end.

Definition walk_opt_block (b : option BlockStmt) : list Node :=
  match b with None => [] | Some b => walk_block b end.

Definition walk_decl (d : Decl) : list Node :=
  match d with
  | BadDecl => [NDecl BadDecl]
  | GenDeclD g => walk_gendecl g
  | FuncDecl doc recv name ty body =>
      NDecl d :: walk_doc doc ++ walk_optfieldlist recv ++ walk_ident name
      ++ walk_functype ty ++ walk_opt_block body
  end.

(** [File]: the doc comment, the package name, then the declarations;
    [File.Imports] and [File.Comments] are not walked. *)
Definition walk_file (f : File) : list Node :=
  NFile f :: walk_doc (FileDoc f) ++ walk_ident (FileName f)
  ++ flat_map walk_decl (Decls f).

(** [ast.Inspect(file, fn)] with a closure that returns [true] on every
    node, which is what each closure in the three tools does: [fn] runs on
    every node of the file in [ast.Walk] order.  (It is also called with
    [nil] once the children of a node are done; no closure of the tools
    does anything then.)  The closure's captured variables are the state
    [S]. *)
Definition Inspect {S : Type} (f : File) (fn : Node -> S -> S) (s : S) : S :=
  fold_left (fun acc n => fn n acc) (walk_file f) s.

(** [File.Imports]: [go/parser] fills it with the import specs of the
    file's declarations, in order, and with the very same pointers, so it is
    read off the declarations. *)
Definition spec_imports (s : Spec) : list ImportSpec :=
  match s with ImportSpecS imp => [imp] | _ => [] end.

Definition decl_imports (d : Decl) : list ImportSpec :=
  match d with
  | GenDeclD (mkGenDecl _ _ _ specs) => flat_map spec_imports (specs_list specs)
  | _ => []
  end.

Definition Imports (f : File) : list ImportSpec :=
  flat_map decl_imports (Decls f).

(** The identifiers of a file, in the order the visitor meets them. *)
Definition node_ident (n : Node) : option Ident :=
  match n with NExpr (IdentExpr id) => Some id | _ => None end.

Definition idents_of (nodes : list Node) : list Ident := omap node_ident nodes.

Definition idents (f : File) : list Ident := idents_of (walk_file f).

(** *** Updating identifiers in place

    A closure that assigns to the fields of the [*ast.Ident] it is visiting
    and to nothing else turns every identifier [id] of the tree into
    [upd id] and leaves the shape of the tree alone: an identifier has no
    children, and no identifier is reached twice. *)
Section update_idents.

Variable upd : Ident -> Ident.

Definition update_import (s : ImportSpec) : ImportSpec :=
  {| ImportDoc := ImportDoc s;
     ImportName := option_map upd (ImportName s);
     ImportPath := ImportPath s;
     ImportComment := ImportComment s |}.

Fixpoint update_expr (e : Expr) : Expr :=
  match e with
  | BadExpr from => BadExpr from
  | IdentExpr id => IdentExpr (upd id)
  | Ellipsis p elt => Ellipsis p (update_optexpr elt)
  | BasicLitExpr lit => BasicLitExpr lit
  | FuncLit ty body => FuncLit (update_functype ty) (update_block body)
  | CompositeLit ty p elts =>
      CompositeLit (update_optexpr ty) p (update_exprs elts)
  | ParenExpr p x => ParenExpr p (update_expr x)
  | SelectorExpr x sel => SelectorExpr (update_expr x) (upd sel)
  | IndexExpr x index => IndexExpr (update_expr x) (update_expr index)
  | IndexListExpr x indices =>
      IndexListExpr (update_expr x) (update_exprs indices)
  | SliceExpr x low high max =>
      SliceExpr (update_expr x) (update_optexpr low) (update_optexpr high)
                (update_optexpr max)
  | TypeAssertExpr x ty => TypeAssertExpr (update_expr x) (update_optexpr ty)
  | CallExpr fn args => CallExpr (update_expr fn) (update_exprs args)
  | StarExpr p x => StarExpr p (update_expr x)
  | UnaryExpr p op x => UnaryExpr p op (update_expr x)
  | BinaryExpr x op y => BinaryExpr (update_expr x) op (update_expr y)
  | KeyValueExpr key value =>
      KeyValueExpr (update_expr key) (update_expr value)
  | ArrayType p len elt => ArrayType p (update_optexpr len) (update_expr elt)
  | StructType p fields => StructType p (update_fieldlist fields)
  | FuncTypeExpr ft => FuncTypeExpr (update_functype ft)
  | InterfaceType p methods => InterfaceType p (update_fieldlist methods)
  | MapType p key value => MapType p (update_expr key) (update_expr value)
  | ChanType p value => ChanType p (update_expr value)
  end
with update_optexpr (e : OptExpr) : OptExpr :=
  match e with NoExpr => NoExpr | SomeExpr e => SomeExpr (update_expr e) end
with update_exprs (l : ExprList) : ExprList :=
  match l with
  | ENil => ENil
  | ECons e es => ECons (update_expr e) (update_exprs es)
  end
with update_field (f : Field) : Field :=
  match f with
  | mkField doc names ty tag comment =>
      mkField doc (map upd names) (update_optexpr ty) tag comment
  end
with update_fields (l : Fields) : Fields :=
  match l with
  | FNil => FNil
  | FCons f fs => FCons (update_field f) (update_fields fs)
  end
with update_fieldlist (fl : FieldList) : FieldList :=
  match fl with
  | mkFieldList o fields c => mkFieldList o (update_fields fields) c
  end
with update_optfieldlist (fl : OptFieldList) : OptFieldList :=
  match fl with
  | NoFieldList => NoFieldList
  | SomeFieldList fl => SomeFieldList (update_fieldlist fl)
  end
with update_functype (ft : FuncType) : FuncType :=
  match ft with
  | mkFuncType p typeparams params results =>
      mkFuncType p (update_optfieldlist typeparams)
                 (update_optfieldlist params) (update_optfieldlist results)
  end
with update_stmt (s : Stmt) : Stmt :=
  match s with
  | BadStmt => BadStmt
  | DeclStmt decl => DeclStmt (update_gendecl decl)
  | EmptyStmt => EmptyStmt
  | LabeledStmt label stmt => LabeledStmt (upd label) (update_stmt stmt)
  | ExprStmt x => ExprStmt (update_expr x)
  | SendStmt chan value => SendStmt (update_expr chan) (update_expr value)
  | IncDecStmt x tok => IncDecStmt (update_expr x) tok
  | AssignStmt lhs tok rhs =>
      AssignStmt (update_exprs lhs) tok (update_exprs rhs)
  | GoStmt call => GoStmt (update_expr call)
  | DeferStmt call => DeferStmt (update_expr call)
  | ReturnStmt results => ReturnStmt (update_exprs results)
  | BranchStmt tok label => BranchStmt tok (option_map upd label)
  | BlockStmtS b => BlockStmtS (update_block b)
  | IfStmt init cond body els =>
      IfStmt (update_optstmt init) (update_expr cond) (update_block body)
             (update_optstmt els)
  | CaseClause exprs body => CaseClause (update_exprs exprs) (update_stmts body)
  | SwitchStmt init tag body =>
      SwitchStmt (update_optstmt init) (update_optexpr tag) (update_block body)
  | TypeSwitchStmt init assign body =>
      TypeSwitchStmt (update_optstmt init) (update_stmt assign)
                     (update_block body)
  | CommClause comm body => CommClause (update_optstmt comm) (update_stmts body)
  | SelectStmt body => SelectStmt (update_block body)
  | ForStmt init cond post body =>
      ForStmt (update_optstmt init) (update_optexpr cond)
              (update_optstmt post) (update_block body)
  | RangeStmt key value tok x body =>
      RangeStmt (update_optexpr key) (update_optexpr value) tok
                (update_expr x) (update_block body)
  end
with update_optstmt (s : OptStmt) : OptStmt :=
  match s with NoStmt => NoStmt | SomeStmt s => SomeStmt (update_stmt s) end
with update_stmts (l : StmtList) : StmtList :=
  match l with
  | SNil => SNil
  | SCons s ss => SCons (update_stmt s) (update_stmts ss)
  end
with update_block (b : BlockStmt) : BlockStmt :=
  match b with
  | mkBlockStmt l stmts r => mkBlockStmt l (update_stmts stmts) r
  end
with update_spec (s : Spec) : Spec :=
  match s with
  | ImportSpecS imp => ImportSpecS (update_import imp)
  | ValueSpec doc names ty values comment =>
      ValueSpec doc (map upd names) (update_optexpr ty) (update_exprs values)
                comment
  | TypeSpec doc name typeparams ty comment =>
      TypeSpec doc (upd name) (update_optfieldlist typeparams)
               (update_expr ty) comment
  end
with update_specs (l : SpecList) : SpecList :=
  match l with
  | SpNil => SpNil
  | SpCons s ss => SpCons (update_spec s) (update_specs ss)
  end
with update_gendecl (d : GenDecl) : GenDecl :=
  match d with
  | mkGenDecl doc p tok specs => mkGenDecl doc p tok (update_specs specs)
  end.

Definition update_decl (d : Decl) : Decl :=
  match d with
  | BadDecl => BadDecl
  | GenDeclD g => GenDeclD (update_gendecl g)
  | FuncDecl doc recv name ty body =>
      FuncDecl doc (update_optfieldlist recv) (upd name) (update_functype ty)
               (option_map update_block body)
  end.

Definition update_file (f : File) : File :=
  {| FileDoc := FileDoc f;
     FileName := upd (FileName f);
     Decls := map update_decl (Decls f) |}.

End update_idents.

(** [ast.NewIdent(name)] allocated at address [a]. *)
Definition NewIdent (a : Addr) (name : string) : Ident :=
  {| Ptr := a; NamePos := NoPos; Name := name; Obj := None |}.

End ast.

(** ** strings *)

Module strings.

(** The one-byte string holding a double quote. *)
Definition dquote : string := String (ascii_of_nat 34) EmptyString.

(** The one-byte string holding a back quote. *)
Definition bquote : string := String (ascii_of_nat 96) EmptyString.

Fixpoint contains_byte (cutset : string) (c : ascii) : bool :=
  match cutset with
  | EmptyString => false
  | String d rest => if Ascii.eqb c d then true else contains_byte rest c
  end.

Fixpoint TrimLeft (s cutset : string) : string :=
  match s with
  | EmptyString => EmptyString
  | String c rest => if contains_byte cutset c then TrimLeft rest cutset else s
  end.

(** [TrimRight] keeps a byte when it is outside the cut set or when
    something is kept after it. *)
Fixpoint TrimRight (s cutset : string) : string :=
  match s with
  | EmptyString => EmptyString
  | String c rest =>
      match TrimRight rest cutset with
      | EmptyString =>
          if contains_byte cutset c then EmptyString else String c EmptyString
      | kept => String c kept
      end
  end.

(** [strings.Trim(s, cutset)] for a cut set of ASCII bytes. *)
Definition Trim (s cutset : string) : string :=
  TrimRight (TrimLeft s cutset) cutset.

Fixpoint HasPrefix (s prefix : string) : bool :=
  match prefix, s with
  | EmptyString, _ => true
  | String p prefix', String c s' =>
      if Ascii.eqb c p then HasPrefix s' prefix' else false
  | String _ _, EmptyString => false
  end.

(** [Split_from sep skip cur s]: [cur] is the part being read and [skip]
    counts the bytes of a separator that are still to be passed over. *)
Fixpoint Split_from (sep : string) (skip : nat) (cur s : string)
  : list string :=
  match s with
  | EmptyString => [cur]
  | String c s' =>
      match skip with
      | S k => Split_from sep k cur s'
      | O =>
          if HasPrefix s sep
          then cur :: Split_from sep (String.length sep - 1) EmptyString s'
          else Split_from sep 0 (cur +:+ String c EmptyString) s'
      end
  end.

(** [strings.Split(s, sep)] for a non-empty separator: the parts between
    the occurrences of [sep], always at least one part. *)
Definition Split (s sep : string) : list string :=
  Split_from sep 0 EmptyString s.

(** [s[n:]] *)
Fixpoint drop_bytes (n : nat) (s : string) : string :=
  match n, s with
  | S k, String _ s' => drop_bytes k s'
  | _, _ => s
  end.

(** The byte [c] does not occur in [s]. *)
Fixpoint free_of (c : ascii) (s : string) : bool :=
  match s with
  | EmptyString => true
  | String d rest => negb (Ascii.eqb d c) && free_of c rest
  end.

(** [strings.HasSuffix(s, suffix)]:
    [len(s) >= len(suffix) && s[len(s)-len(suffix):] == suffix]. *)
Definition HasSuffix (s suffix : string) : bool :=
  Nat.leb (String.length suffix) (String.length s)
  && String.eqb (drop_bytes (String.length s - String.length suffix) s)
                suffix.

(** The one-byte string holding a line feed. *)
Definition linefeed : string := String (ascii_of_nat 10) EmptyString.

(** [strings.Join(parts, sep)] *)
Fixpoint Join (parts : list string) (sep : string) : string :=
  match parts with
  | [] => EmptyString
  | [part] => part
  | part :: rest => part +:+ sep +:+ Join rest sep
  end.

End strings.

(** ** path/filepath: Walk *)

Module filepath.

(** What [Walk] finds below its root, each entry with the path [Walk]
    hands to the callback: a file, a directory with the error of reading
    its names (if any) and its entries in the order of their names, or a
    name whose [Lstat] fails. *)
Inductive Entry :=
| File (path : string)
| Dir (path : string) (readErr : option string) (entries : Entries)
| Broken (path : string) (err : string)
with Entries :=
| Nil
| Cons (e : Entry) (rest : Entries).

Scheme Entry_mutind := Induction for Entry Sort Prop
  with Entries_mutind := Induction for Entries Sort Prop.

Combined Scheme tree_mutind from Entry_mutind, Entries_mutind.

(** [fs.FileInfo], of which the callbacks only ask [IsDir()]. *)
Record FileInfo := mkFileInfo { IsDir : bool }.

(** The errors a callback and [Walk] return: the marker [SkipDir], or a
    real error with its message. *)
Inductive WalkErr :=
| SkipDir
| Failure (msg : string).

(** The last two arguments of a [WalkFunc]: the info of an entry that was
    reached, with no error; or an error, with the info when there is one
    (a directory whose names cannot be read) and nil when [Lstat] failed. *)
Inductive Visit :=
| Reached (info : FileInfo)
| Failed (info : option FileInfo) (err : WalkErr).

(** [WalkFunc], with the variables the closure captures as the state. *)
Definition WalkFunc (S : Type) : Type :=
  string -> Visit -> S -> S * option WalkErr.

(** [walk]: the callback on the entry itself; for a directory that could
    be read and that the callback did not refuse, its entries in turn.  An
    error of an entry stops the loop, except [SkipDir] from anything but a
    file. *)
Fixpoint walk {S : Type} (walkFn : WalkFunc S) (e : Entry) (s : S)
  : S * option WalkErr :=
  match e with
  | File path => walkFn path (Reached (mkFileInfo false)) s
  | Broken path err => walkFn path (Failed None (Failure err)) s
  | Dir path (Some err) _ =>
      walkFn path (Failed (Some (mkFileInfo true)) (Failure err)) s
  | Dir path None entries =>
      let (s1, err1) := walkFn path (Reached (mkFileInfo true)) s in
      match err1 with
      | None => walk_entries walkFn entries s1
      | Some _ => (s1, err1)
      end
  end
with walk_entries {S : Type} (walkFn : WalkFunc S) (l : Entries) (s : S)
  : S * option WalkErr :=
  match l with
  | Nil => (s, None)
  | Cons e rest =>
      let (s1, err) := walk walkFn e s in
      match err with
      | None => walk_entries walkFn rest s1
      | Some SkipDir =>
          match e with
          | File _ => (s1, err)
          | _ => walk_entries walkFn rest s1
          end
      | Some (Failure _) => (s1, err)
      end
  end.

(** What [Lstat] finds at the root path. *)
Inductive Root :=
| RootFile
| RootDir (readErr : option string) (entries : Entries)
| RootBroken (err : string).

Definition root_entry (root : string) (r : Root) : Entry :=
  match r with
  | RootFile => File root
  | RootDir readErr entries => Dir root readErr entries
  | RootBroken err => Broken root err
  end.

(** [filepath.Walk(root, fn)]: the callback gets the root path as it was
    given; [SkipDir] at the top is no error. *)
Definition Walk {S : Type} (root : string) (r : Root) (walkFn : WalkFunc S)
    (s : S) : S * option string :=
  let (s1, err) := walk walkFn (root_entry root r) s in
  match err with
  | Some (Failure msg) => (s1, Some msg)
  | _ => (s1, None)
  end.

(** The paths of the files of a tree, in the order [Walk] meets them. *)
Fixpoint files (e : Entry) : list string :=
  match e with
  | File path => [path]
  | Broken _ _ => []
  | Dir _ _ entries => files_in entries
  end
with files_in (l : Entries) : list string :=
  match l with
  | Nil => []
  | Cons e rest => files e ++ files_in rest
  end.

(** The files right below the root (or the root, when it is a file). *)
Fixpoint files_here (l : Entries) : list string :=
  match l with
  | Nil => []
  | Cons (File path) rest => path :: files_here rest
  | Cons _ rest => files_here rest
  end.

Definition top_files (root : Entry) : list string :=
  match root with
  | File path => [path]
  | Broken _ _ => []
  | Dir _ _ entries => files_here entries
  end.

(** The file system as the tools see it: what is at a root path. *)
Definition FileSystem := string -> Root.

(** Every name can be read: no [Broken] entry and no directory whose
    names cannot be listed. *)
Fixpoint healthy (e : Entry) : bool :=
  match e with
  | File _ => true
  | Broken _ _ => false
  | Dir _ None entries => healthy_all entries
  | Dir _ (Some _) _ => false
  end
with healthy_all (l : Entries) : bool :=
  match l with
  | Nil => true
  | Cons e rest => healthy e && healthy_all rest
  end.

(** No directory below the root has the path of the root. *)
Fixpoint dirs_differ (root : string) (l : Entries) : bool :=
  match l with
  | Nil => true
  | Cons (Dir path _ _) rest =>
      negb (String.eqb path root) && dirs_differ root rest
  | Cons _ rest => dirs_differ root rest
  end.

(** The entries right below the root can be looked at: none is [Broken]
    and none is a directory whose names cannot be listed. *)
Fixpoint healthy_here (l : Entries) : bool :=
  match l with
  | Nil => true
  | Cons (File _) rest => healthy_here rest
  | Cons (Dir _ None _) rest => healthy_here rest
  | Cons _ _ => false
  end.

(** The walk of the tools meets no error: everything it looks at can be
    read (the whole tree with [-recursive], the root and the entries right
    below it without), and without [-recursive] no directory below the root
    bears the path of the root. *)
Definition walkable (recursive : bool) (root : string) (r : Root) : bool :=
  match r with
  | RootFile => true
  | RootBroken _ => false
  | RootDir (Some _) _ => false
  | RootDir None entries =>
      if recursive then healthy_all entries
      else healthy_here entries && dirs_differ root entries
  end.

(** Without [-recursive] no directory right below the root bears the path
    of the root (with [-recursive] the walk does not compare paths). *)
Definition distinct_dirs (recursive : bool) (root : string) (r : Root)
  : bool :=
  match r with
  | RootDir _ entries => recursive || dirs_differ root entries
  | _ => true
  end.

(** The files the walk of the tools meets: all of the tree with
    [-recursive], those right below the root without. *)
Definition found (recursive : bool) (root : string) (r : Root)
  : list string :=
  if recursive then files (root_entry root r)
  else top_files (root_entry root r).

End filepath.

(** ** custom_linter.go *)

Module linter.

Import token ast.

(** Issue represents a linting issue *)
Record Issue := mkIssue
  { Pos : Position; Message : string; Severity : string }.

(** The order in which [for name, pos := range imports] yields the
    entries of a map.  Go leaves it unspecified and changes it from one
    loop to the next; a run of the tool is given one such order. *)
Definition RangeOrder := gmap string Position -> list (string * Position).

(** Whatever the order, a [range] loop yields every entry exactly once. *)
Definition range_order_ok (order : RangeOrder) : Prop :=
  forall m, order m ≡ₚ map_to_list m.

(** LintRule defines a rule for linting: an interface value is its method
    table. *)
Record LintRule := mkLintRule
  { Check : RangeOrder -> FileSet -> File -> list Issue;
    Name : string;
    Description : string }.

(** *** UnusedImportRule *)

(** The name an import is tracked under; [None] for the blank and dot
    imports, which the loop skips with [continue]. *)
Definition import_name (imp : ImportSpec) : option string :=
  match ImportName imp with
  | Some n =>
      if decide (ast.Name n = "_") then None
      else if decide (ast.Name n = ".") then None
      else Some (ast.Name n)
  | None =>
      let path := strings.Trim (Value (ImportPath imp)) strings.dquote in
      let parts := strings.Split path "/" in
      Some (List.last parts EmptyString)
  end.

(** [for _, imp := range file.Imports { ... imports[name] = pos }] *)
Definition collect_imports (fset : FileSet) (imps : list ImportSpec)
  : gmap string Position :=
  fold_left
    (fun imports imp =>
       match import_name imp with
       | None => imports
       | Some name => <[name := fset (ImportSpec_Pos imp)]> imports
       end)
    imps ∅.

(** [if _, ok := imports[name]; ok { delete(imports, name) }] *)
Definition delete_if_present (name : string) (imports : gmap string Position)
  : gmap string Position :=
  match imports !! name with
  | Some _ => delete name imports
  | None => imports
  end.

(** The closure handed to [ast.Inspect]: its two [if] statements in turn. *)
Definition mark_used (n : Node) (imports : gmap string Position)
  : gmap string Position :=
  let imports :=
    match n with
    | NExpr (IdentExpr ident) => delete_if_present (ast.Name ident) imports
    | _ => imports
    end in
  match n with
  | NExpr (SelectorExpr (IdentExpr x) _) =>
      delete_if_present (ast.Name x) imports
  | _ => imports
  end.

(** The imports left in the map once every node has been inspected. *)
Definition unused_imports (fset : FileSet) (file : File)
  : gmap string Position :=
  Inspect file mark_used (collect_imports fset (Imports file)).

Definition unused_import_issue (entry : string * Position) : Issue :=
  {| Pos := entry.2;
     Message := "Unused import: " +:+ entry.1;
     Severity := "warning" |}.

Definition UnusedImportRule_Check (order : RangeOrder) (fset : FileSet)
    (file : File) : list Issue :=
  map unused_import_issue (order (unused_imports fset file)).

Definition UnusedImportRule : LintRule :=
  {| Check := UnusedImportRule_Check;
     Name := "unused-import";
     Description := "Detects unused imports in the code" |}.

(** *** ErrorReturnRule *)

(** Helper function to get the function name from a CallExpr; its
    argument is [call.Fun]. *)
Definition getFunctionName (fn : Expr) : option string :=
  match fn with
  | IdentExpr fn => Some (ast.Name fn)
  | SelectorExpr x sel =>
      match x with
      | IdentExpr ident => Some (ast.Name ident +:+ "." +:+ ast.Name sel)
      | _ => Some (ast.Name sel)
      end
  | _ => None
  end.

Definition is_call (e : Expr) : bool :=
  match e with CallExpr _ _ => true | _ => false end.

(** The body of [for _, rhs := range stmt.Rhs] for one right-hand side. *)
Definition check_rhs (fset : FileSet) (lhs rhs : list Expr) (r : Expr)
  : list Issue :=
  if is_call r then
    if Nat.ltb 1 (length lhs) && Nat.eqb (length rhs) 1 then
      if Nat.leb 2 (length lhs) then
        match List.last lhs (BadExpr NoPos) with
        | IdentExpr ident =>
            if decide (ast.Name ident = "_") then
              [ {| Pos := fset (NamePos ident);
                   Message := "Error is explicitly ignored with _";
                   Severity := "warning" |} ]
            else []
        | _ => []
        end
      else []
    else []
  else [].

Definition fallible_prefix (funcName : string) : bool :=
  strings.HasPrefix funcName "Create"
  || strings.HasPrefix funcName "New"
  || strings.HasPrefix funcName "Open"
  || strings.HasPrefix funcName "Read"
  || strings.HasPrefix funcName "Write".

(** The closure of [ErrorReturnRule.Check]: the issues one node adds. *)
Definition error_issues (fset : FileSet) (n : Node) : list Issue :=
  match n with
  | NStmt (AssignStmt lhs _ rhs) =>
      flat_map (check_rhs fset (exprs lhs) (exprs rhs)) (exprs rhs)
  | NStmt (ExprStmt (CallExpr fn args)) =>
      match getFunctionName fn with
      | Some funcName =>
          if fallible_prefix funcName then
            [ {| Pos := fset (Expr_Pos (CallExpr fn args));
                 Message := "Result of " +:+ funcName
                            +:+ " is ignored, but it might return an error";
                 Severity := "warning" |} ]
          else []
      | None => []
      end
  | _ => []
  end.

Definition ErrorReturnRule_Check (order : RangeOrder) (fset : FileSet)
    (file : File) : list Issue :=
  Inspect file (fun n issues => issues ++ error_issues fset n) [].

Definition ErrorReturnRule : LintRule :=
  {| Check := ErrorReturnRule_Check;
     Name := "error-check";
     Description :=
       "Ensures that errors returned from function calls are checked" |}.

(** *** lintFile *)

(** [parser.ParseFile] on the named file: an error, or the file set and
    the tree. *)
Definition Parser := string -> string + (FileSet * File).

(** Run the linter on a file *)
Definition lintFile (parse : Parser) (order : RangeOrder) (filename : string)
    (rules : list LintRule) : string + list Issue :=
  match parse filename with
  | inl err => inl ("failed to parse file: " +:+ err)
  | inr (fset, file) =>
      inr (fold_left
             (fun allIssues rule => allIssues ++ Check rule order fset file)
             rules [])
  end.

(** The rules [main] registers. *)
Definition rules : list LintRule := [UnusedImportRule; ErrorReturnRule].

(** *** Vocabulary for the properties of the rule *)

(** The node is an identifier called [name], or a qualified access
    [name.Sel]. *)
Definition uses (name : string) (n : Node) : bool :=
  match n with
  | NExpr (IdentExpr id) => bool_decide (ast.Name id = name)
  | NExpr (SelectorExpr (IdentExpr x) _) => bool_decide (ast.Name x = name)
  | _ => false
  end.

(** [name] occurs somewhere in the file, in either of the two ways. *)
Definition occurs (file : File) (name : string) : bool :=
  existsb (uses name) (walk_file file).

(** Every import the rule tracks has its name occur in the file. *)
Definition no_unused_imports (file : File) : bool :=
  forallb
    (fun imp =>
       match import_name imp with
       | Some name => occurs file name
       | None => true
       end)
    (Imports file).

(** The message of the issue that reports the import called [name]. *)
Definition unused_message (name : string) : string :=
  "Unused import: " +:+ name.

(** The issue is about the import: its message names the import the way
    the rule names the imports it reports. *)
Definition reports (issue : Issue) (imp : ImportSpec) : Prop :=
  exists name,
    import_name imp = Some name /\ Message issue = unused_message name.

(** The local name of an import as the language defines it: the alias
    when there is one (the blank and the dot import bring no name of their
    own), otherwise the name in the package clause of the imported package,
    which [package_of] gives for the path as it is written. *)
Definition local_name (package_of : string -> string) (imp : ImportSpec)
  : option string :=
  match ImportName imp with
  | Some n =>
      if decide (ast.Name n = "_") then None
      else if decide (ast.Name n = ".") then None
      else Some (ast.Name n)
  | None => Some (package_of (Value (ImportPath imp)))
  end.

(** Two iteration orders a run may see: the order of the map's list of
    entries, and the reverse of it. *)
Definition order_fwd : RangeOrder := map_to_list.
Definition order_rev : RangeOrder := fun m => rev (map_to_list m).

(** *** main *)

(** The flags of the linter. *)
Record Flags := mkFlags { dir : string; recursive : bool }.

(** [walkFn]: an error is handed back; a directory other than the root is
    skipped unless [-recursive] is set; a file is kept when its path ends in
    [.go] and not in [_test.go]. *)
Definition walkFn (flags : Flags) : filepath.WalkFunc (list string) :=
  fun path visit filesToLint =>
    match visit with
    | filepath.Failed _ err => (filesToLint, Some err)
    | filepath.Reached info =>
        if filepath.IsDir info then
          if negb (recursive flags) && negb (String.eqb path (dir flags))
          then (filesToLint, Some filepath.SkipDir)
          else (filesToLint, None)
        else if strings.HasSuffix path ".go"
                && negb (strings.HasSuffix path "_test.go")
        then (filesToLint ++ [path], None)
        else (filesToLint, None)
    end.

(** The files [main] is going to lint, or the error of the walk. *)
Definition filesToLint (fs : filepath.FileSystem) (flags : Flags)
  : list string * option string :=
  filepath.Walk (dir flags) (fs (dir flags)) (walkFn flags) [].

(** The line printed for an issue: [file:line:column: severity: message]. *)
Definition issue_line (issue : Issue) : string :=
  Filename (Pos issue) +:+ ":" +:+ pretty (Line (Pos issue)) +:+ ":"
  +:+ pretty (Column (Pos issue)) +:+ ": " +:+ Severity issue +:+ ": "
  +:+ Message issue +:+ strings.linefeed.

(** What [main] has printed and counted so far. *)
Record Progress := mkProgress
  { out : list string; errs : list string; issueCount : nat }.

(** Lint each file: a file that fails is reported on standard error and
    passed over. *)
Fixpoint lint_each (parse : Parser) (order : RangeOrder)
    (files : list string) (p : Progress) : Progress :=
  match files with
  | [] => p
  | file :: rest =>
      match lintFile parse order file rules with
      | inl e =>
          lint_each parse order rest
            {| out := out p;
               errs := errs p ++ ["Error linting " +:+ file +:+ ": " +:+ e
                                  +:+ strings.linefeed];
               issueCount := issueCount p |}
      | inr issues =>
          lint_each parse order rest
            {| out := out p ++ map issue_line issues;
               errs := errs p;
               issueCount := issueCount p + length issues |}
      end
  end.

(** A run of the linter: its exit code and what it printed. *)
Record Run := mkRun
  { exit_code : nat; stdout : list string; stderr : list string }.

Definition summary (files issues : nat) : string :=
  strings.linefeed +:+ "Linted " +:+ pretty files +:+ " files, found "
  +:+ pretty issues +:+ " issues" +:+ strings.linefeed.

Definition main (fs : filepath.FileSystem) (parse : Parser)
    (order : RangeOrder) (flags : Flags) : Run :=
  match filesToLint fs flags with
  | (_, Some e) =>
      {| exit_code := 1; stdout := [];
         stderr := ["Error walking directory: " +:+ e +:+ strings.linefeed] |}
  | (files, None) =>
      let p := lint_each parse order files
                 {| out := []; errs := []; issueCount := 0 |} in
      {| exit_code := if Nat.ltb 0 (issueCount p) then 1 else 0;
         stdout := out p ++ [summary (length files) (issueCount p)];
         stderr := errs p |}
  end.

(** The issues of the files that parse, file by file. *)
Definition issues_of (parse : Parser) (order : RangeOrder) (file : string)
  : list Issue :=
  match lintFile parse order file rules with
  | inl _ => []
  | inr issues => issues
  end.

(** A path [main] lints: it ends in [.go] and not in [_test.go]. *)
Definition lintable (path : string) : bool :=
  strings.HasSuffix path ".go" && negb (strings.HasSuffix path "_test.go").

(** The unused-import rule tracks [name]: some import that is neither
    blank nor a dot import goes by it. *)
Definition tracked (file : File) (name : string) : bool :=
  existsb (fun imp => bool_decide (import_name imp = Some name))
          (Imports file).

(** The left-hand sides end in the blank identifier. *)
Definition ends_in_blank (lhs : list Expr) : bool :=
  match List.last lhs (BadExpr NoPos) with
  | IdentExpr ident => bool_decide (ast.Name ident = "_")
  | _ => false
  end.

End linter.

(** ** refactoring_tool.go *)

Module refactor.

Import token ast.

(** What [Apply] leaves behind: its two results, the tree it mutated in
    place, and the next free address of the heap ([AddParameter] allocates
    identifiers). *)
Record Applied := mkApplied
  { changed : bool; err : option string; tree : File; heap : Addr }.

(** Refactoring interface *)
Record Refactoring := mkRefactoring
  { Apply : FileSet -> File -> Addr -> Applied;
    Description : string }.

(** Helper functions to check identifier types *)
Definition isFunctionIdent (ident : Ident) : bool :=
  match Obj ident with
  | None => false
  | Some obj =>
      match Kind obj with
      | Fun => true
      | _ =>
          match ObjDecl obj with
          | DeclFuncDecl name => Nat.eqb (Ptr ident) name
          | DeclCallExpr (FunIdent fn) => Nat.eqb (Ptr ident) fn
          | DeclCallExpr (FunSelector sel) => Nat.eqb (Ptr ident) sel
          | _ => false
          end
      end
  end.

Definition isTypeIdent (ident : Ident) : bool :=
  match Obj ident with
  | None => false
  | Some obj =>
      match Kind obj with
      | Typ => true
      | _ =>
          match ObjDecl obj with
          | DeclTypeSpec name => Nat.eqb (Ptr ident) name
          | _ => false
          end
      end
  end.

Definition isVarIdent (ident : Ident) : bool :=
  match Obj ident with
  | None => false
  | Some obj =>
      match Kind obj with
      | Var => true
      | _ =>
          match ObjDecl obj with
          | DeclAssignStmt | DeclValueSpec | DeclField => true
          | _ => false
          end
      end
  end.

(** The three rename closures share one shape: an identifier named
    [OldName] that passes the role test gets [NewName]. *)
Definition hit (role : Ident -> bool) (old : string) (ident : Ident) : bool :=
  bool_decide (Name ident = old) && role ident.

Definition set_name (new : string) (ident : Ident) : Ident :=
  {| Ptr := Ptr ident; NamePos := NamePos ident; Name := new;
     Obj := Obj ident |}.

Definition rename (role : Ident -> bool) (old new : string) (ident : Ident)
  : Ident :=
  if hit role old ident then set_name new ident else ident.

Definition rename_Apply (role : Ident -> bool) (old new : string)
    (fset : FileSet) (file : File) (heap : Addr) : Applied :=
  {| changed := existsb (hit role old) (idents file);
     err := None;
     tree := update_file (rename role old new) file;
     heap := heap |}.

(** RenameFunction refactoring *)
Module RenameFunction.
Record t := mk { OldName : string; NewName : string }.
Definition Description (r : t) : string :=
  "Rename function from '" +:+ OldName r +:+ "' to '" +:+ NewName r +:+ "'".
Definition Apply (r : t) : FileSet -> File -> Addr -> Applied :=
  rename_Apply isFunctionIdent (OldName r) (NewName r).
End RenameFunction.

(** RenameType refactoring *)
Module RenameType.
Record t := mk { OldName : string; NewName : string }.
Definition Description (r : t) : string :=
  "Rename type from '" +:+ OldName r +:+ "' to '" +:+ NewName r +:+ "'".
Definition Apply (r : t) : FileSet -> File -> Addr -> Applied :=
  rename_Apply isTypeIdent (OldName r) (NewName r).
End RenameType.

(** RenameVariable refactoring *)
Module RenameVariable.
Record t := mk { OldName : string; NewName : string }.
Definition Description (r : t) : string :=
  "Rename variable from '" +:+ OldName r +:+ "' to '" +:+ NewName r +:+ "'".
Definition Apply (r : t) : FileSet -> File -> Addr -> Applied :=
  rename_Apply isVarIdent (OldName r) (NewName r).
End RenameVariable.

(** AddParameter refactoring *)
Module AddParameter.
Record t := mk
  { FunctionName : string; ParamName : string; ParamType : string }.

Definition Description (r : t) : string :=
  "Add parameter '" +:+ ParamName r +:+ " " +:+ ParamType r
  +:+ "' to function '" +:+ FunctionName r +:+ "'".

(** [&ast.Field{Names: []*ast.Ident{ast.NewIdent(r.ParamName)},
    Type: ast.NewIdent(r.ParamType)}] with the two identifiers allocated at
    [heap] and [heap + 1]. *)
Definition newParam (r : t) (heap : Addr) : Field :=
  mkField None [NewIdent heap (ParamName r)]
          (SomeExpr (IdentExpr (NewIdent (S heap) (ParamType r)))) None None.

(** [if funcDecl.Type.Params == nil { funcDecl.Type.Params =
    &ast.FieldList{} }] and then the [append]. *)
Definition append_param (ty : FuncType) (f : Field) : FuncType :=
  match ty with
  | mkFuncType func typeparams params results =>
      let fl :=
        match params with
        | NoFieldList => mkFieldList NoPos FNil NoPos
        | SomeFieldList fl => fl
        end in
      match fl with
      | mkFieldList opening fields closing =>
          mkFuncType func typeparams
            (SomeFieldList (mkFieldList opening (fields_snoc fields f) closing))
            results
      end
  end.

Definition matches (r : t) (d : Decl) : bool :=
  match d with
  | FuncDecl _ _ name _ _ => bool_decide (Name name = FunctionName r)
  | _ => false
  end.

(** The closure on one declaration; every other node is left alone. *)
Definition visit_decl (r : t) (d : Decl) (heap : Addr) : Decl * Addr :=
  match d with
  | FuncDecl doc recv name ty body =>
      if bool_decide (Name name = FunctionName r)
      then (FuncDecl doc recv name (append_param ty (newParam r heap)) body,
            S (S heap))
      else (d, heap)
  | _ => (d, heap)
  end.

Fixpoint visit_decls (r : t) (ds : list Decl) (heap : Addr)
  : list Decl * Addr :=
  match ds with
  | [] => ([], heap)
  | d :: rest =>
      let (d', heap') := visit_decl r d heap in
      let (rest', heap'') := visit_decls r rest heap' in
      (d' :: rest', heap'')
  end.

Definition Apply (r : t) (fset : FileSet) (file : File) (heap : Addr)
  : Applied :=
  let (decls, heap') := visit_decls r (Decls file) heap in
  {| changed := existsb (matches r) (Decls file);
     err := None;
     tree := {| FileDoc := FileDoc file; FileName := FileName file;
                Decls := decls |};
     heap := heap' |}.
End AddParameter.

Definition of_RenameFunction (r : RenameFunction.t) : Refactoring :=
  {| Apply := RenameFunction.Apply r;
     Description := RenameFunction.Description r |}.
Definition of_RenameType (r : RenameType.t) : Refactoring :=
  {| Apply := RenameType.Apply r; Description := RenameType.Description r |}.
Definition of_RenameVariable (r : RenameVariable.t) : Refactoring :=
  {| Apply := RenameVariable.Apply r;
     Description := RenameVariable.Description r |}.
Definition of_AddParameter (r : AddParameter.t) : Refactoring :=
  {| Apply := AddParameter.Apply r;
     Description := AddParameter.Description r |}.

(** *** applyRefactorings *)

(** The collaborators of [applyRefactorings] and [main]: the parser, the
    printer [format.Node], the list of [.go] files the directory walk
    of [main] ends up with (or its error), and the text [flag.Usage()]
    writes to standard error (the line [Usage of] with the name of the
    program, then the defaults of the flags). *)
Record Env := mkEnv
  { ParseFile : string -> string + (FileSet * File);
    format_Node : FileSet -> File -> string + string;
    WriteFile : string -> string -> option string;
    goFiles : string -> bool -> string + list string;
    Usage : string }.

(** What one call of [applyRefactorings] did: the error it returned, the
    lines it printed, the tree after the refactorings (when the file
    parsed), and the bytes handed to [os.WriteFile]. *)
Record FileRun := mkFileRun
  { run_err : option string;
    run_stdout : list string;
    run_tree : option File;
    run_write : option (string * string);
    run_heap : Addr }.

(** [for _, r := range refactorings]: stops at the first error. *)
Fixpoint apply_each (fset : FileSet) (filename : string)
    (rs : list Refactoring) (file : File) (heap : Addr) (changed0 : bool)
    (out : list string) : option string * bool * list string * File * Addr :=
  match rs with
  | [] => (None, changed0, out, file, heap)
  | r :: rest =>
      let a := Apply r fset file heap in
      match err a with
      | Some e =>
          (Some ("failed to apply refactoring: " +:+ e), changed0, out,
           tree a, refactor.heap a)
      | None =>
          if changed a
          then apply_each fset filename rest (tree a) (refactor.heap a) true
                 (out ++ ["Applied '" +:+ Description r +:+ "' to "
                          +:+ filename])
          else apply_each fset filename rest (tree a) (refactor.heap a)
                 changed0 out
      end
  end.

(** Apply refactorings to a file *)
Definition applyRefactorings (env : Env) (write : bool) (filename : string)
    (refactorings : list Refactoring) (heap : Addr) : FileRun :=
  match ParseFile env filename with
  | inl e =>
      {| run_err := Some ("failed to parse file: " +:+ e); run_stdout := [];
         run_tree := None; run_write := None; run_heap := heap |}
  | inr (fset, file) =>
      match apply_each fset filename refactorings file heap false [] with
      | (Some e, _, out, file', heap') =>
          {| run_err := Some e; run_stdout := out; run_tree := Some file';
             run_write := None; run_heap := heap' |}
      | (None, changed, out, file', heap') =>
          if changed && write then
            match format_Node env fset file' with
            | inl e =>
                {| run_err := Some ("failed to format file: " +:+ e);
                   run_stdout := out; run_tree := Some file';
                   run_write := None; run_heap := heap' |}
            | inr bytes =>
                match WriteFile env filename bytes with
                | Some e =>
                    {| run_err := Some ("failed to write file: " +:+ e);
                       run_stdout := out; run_tree := Some file';
                       run_write := Some (filename, bytes);
                       run_heap := heap' |}
                | None =>
                    {| run_err := None;
                       run_stdout := out ++ ["Wrote changes to " +:+ filename];
                       run_tree := Some file';
                       run_write := Some (filename, bytes);
                       run_heap := heap' |}
                end
            end
          else if changed then
            {| run_err := None;
               run_stdout :=
                 out ++ ["Changes not written (use -write to save changes)"];
               run_tree := Some file'; run_write := None; run_heap := heap' |}
          else
            {| run_err := None;
               run_stdout := out ++ ["No changes made to " +:+ filename];
               run_tree := Some file'; run_write := None; run_heap := heap' |}
      end
  end.

(** *** main *)

(** Refactoring options *)
Record Flags := mkFlags
  { inputDir : string;
    recursive : bool;
    renameFn : string;
    renameType : string;
    renameVar : string;
    extractMethod : string;
    addParam : string;
    write : bool }.

(** Create refactorings based on flags.  [inl] is the message printed to
    standard error right before [os.Exit(1)]. *)
Definition for_renameFn (flags : Flags) (refactorings : list Refactoring)
  : string + list Refactoring :=
  if bool_decide (renameFn flags <> EmptyString) then
    match strings.Split (renameFn flags) ":" with
    | [old; new] =>
        inr (refactorings
             ++ [of_RenameFunction
                   {| RenameFunction.OldName := old;
                      RenameFunction.NewName := new |}])
    | _ => inl "Invalid format for -rename-fn, expected 'old:new'"
    end
  else inr refactorings.

Definition for_renameType (flags : Flags) (refactorings : list Refactoring)
  : string + list Refactoring :=
  if bool_decide (renameType flags <> EmptyString) then
    match strings.Split (renameType flags) ":" with
    | [old; new] =>
        inr (refactorings
             ++ [of_RenameType
                   {| RenameType.OldName := old; RenameType.NewName := new |}])
    | _ => inl "Invalid format for -rename-type, expected 'old:new'"
    end
  else inr refactorings.

Definition for_renameVar (flags : Flags) (refactorings : list Refactoring)
  : string + list Refactoring :=
  if bool_decide (renameVar flags <> EmptyString) then
    match strings.Split (renameVar flags) ":" with
    | [old; new] =>
        inr (refactorings
             ++ [of_RenameVariable
                   {| RenameVariable.OldName := old;
                      RenameVariable.NewName := new |}])
    | _ => inl "Invalid format for -rename-var, expected 'old:new'"
    end
  else inr refactorings.

Definition for_addParam (flags : Flags) (refactorings : list Refactoring)
  : string + list Refactoring :=
  if bool_decide (addParam flags <> EmptyString) then
    match strings.Split (addParam flags) ":" with
    | [fn; name; ty] =>
        inr (refactorings
             ++ [of_AddParameter
                   {| AddParameter.FunctionName := fn;
                      AddParameter.ParamName := name;
                      AddParameter.ParamType := ty |}])
    | _ => inl "Invalid format for -add-param, expected 'function:name:type'"
    end
  else inr refactorings.

Definition and_then {A B E : Type} (x : E + A) (k : A -> E + B) : E + B :=
  match x with inl e => inl e | inr a => k a end.

Definition build_refactorings (flags : Flags) : string + list Refactoring :=
  and_then (for_renameFn flags []) (fun rs =>
  and_then (for_renameType flags rs) (fun rs =>
  and_then (for_renameVar flags rs) (fun rs =>
  for_addParam flags rs))).

(** A run of the tool: its exit code, what went to standard error, and
    the per-file runs of [applyRefactorings] in order.  The line [No
    refactorings specified], which goes to standard output, is not kept. *)
Record Run := mkRun
  { exit_code : nat; stderr : list string; files : list (string * FileRun) }.

(** [for _, filename := range filesToProcess]: an error of one file is
    reported and the loop goes on. *)
Fixpoint process_files (env : Env) (write : bool) (rs : list Refactoring)
    (names : list string) (heap : Addr) (errs : list string)
  : list string * list (string * FileRun) :=
  match names with
  | [] => (errs, [])
  | filename :: rest =>
      let fr := applyRefactorings env write filename rs heap in
      let errs' :=
        match run_err fr with
        | Some e => errs ++ ["Error processing " +:+ filename +:+ ": " +:+ e]
        | None => errs
        end in
      let (errs'', runs) :=
        process_files env write rs rest (run_heap fr) errs' in
      (errs'', (filename, fr) :: runs)
  end.

Definition main (env : Env) (flags : Flags) (heap : Addr) : Run :=
  match build_refactorings flags with
  | inl msg => {| exit_code := 1; stderr := [msg]; files := [] |}
  | inr refactorings =>
      if bool_decide (length refactorings = 0) then
        {| exit_code := 1; stderr := [Usage env]; files := [] |}
      else
        match goFiles env (inputDir flags) (recursive flags) with
        | inl e =>
            {| exit_code := 1; stderr := ["Error walking directory: " +:+ e];
               files := [] |}
        | inr filesToProcess =>
            let (errs, runs) :=
              process_files env (write flags) refactorings filesToProcess
                            heap [] in
            {| exit_code := 0; stderr := errs; files := runs |}
        end
  end.

(** *** Vocabulary for the properties of the refactorings *)

(** The identifier is bound by the parser to a type declaration: the name
    in a [TypeSpec], or a use that resolved to it. *)
Definition denotes_type (ident : Ident) : bool :=
  match Obj ident with
  | Some obj =>
      match Kind obj, ObjDecl obj with
      | Typ, DeclTypeSpec _ => true
      | _, _ => false
      end
  | None => false
  end.

(** No identifier in the function role is already called [name]. *)
Definition no_function_named (name : string) (file : File) : bool :=
  forallb
    (fun id => negb (isFunctionIdent id && bool_decide (Name id = name)))
    (idents file).

(** What the closures of [rename-function(a,b)] and then of
    [rename-function(b,a)] do to one identifier. *)
Definition back_and_forth (a b : string) (id : Ident) : Ident :=
  rename isFunctionIdent b a (rename isFunctionIdent a b id).

(** [rename-function(a,b)] and then [rename-function(b,a)] on the tree,
    as [applyRefactorings] chains them. *)
Definition there_and_back (a b : string) (fset : FileSet) (file : File)
    (heap : Addr) : File :=
  let there :=
    RenameFunction.Apply
      {| RenameFunction.OldName := a; RenameFunction.NewName := b |}
      fset file heap in
  tree (RenameFunction.Apply
          {| RenameFunction.OldName := b; RenameFunction.NewName := a |}
          fset (tree there) (refactor.heap there)).

(** The call expressions of a file, callee and arguments, in the order
    the visitor meets them. *)
Definition node_call (n : Node) : option (Expr * ExprList) :=
  match n with
  | NExpr (CallExpr fn args) => Some (fn, args)
  | _ => None
  end.

Definition calls_of (nodes : list Node) : list (Expr * ExprList) :=
  omap node_call nodes.

Definition calls (file : File) : list (Expr * ExprList) :=
  calls_of (walk_file file).

(** A parameter declaration [name ty] built from two fresh identifiers. *)
Definition is_new_param (name ty : string) (p : Field) : Prop :=
  exists a b,
    p = mkField None [NewIdent a name] (SomeExpr (IdentExpr (NewIdent b ty)))
                None None.

(** What [add-parameter] may do to one declaration: a function
    declaration called [FunctionName] gets one parameter at the end of its
    parameter list and is otherwise the same; any other declaration is the
    same. *)
Definition param_added (r : AddParameter.t) (d d' : Decl) : Prop :=
  match d with
  | FuncDecl doc recv name (mkFuncType func typeparams params results) body =>
      if bool_decide (Name name = AddParameter.FunctionName r) then
        exists opening closing p fields',
          d' = FuncDecl doc recv name
                 (mkFuncType func typeparams
                    (SomeFieldList (mkFieldList opening fields' closing))
                    results)
                 body
          /\ fields_list fields' = optfields params ++ [p]
          /\ is_new_param (AddParameter.ParamName r)
                          (AddParameter.ParamType r) p
      else d' = d
  | _ => d' = d
  end.

(** A rename specification splits on the colon into exactly two
    non-empty parts. *)
Definition two_nonempty_parts (spec : string) : bool :=
  match strings.Split spec ":" with
  | [old; new] =>
      negb (bool_decide (old = EmptyString))
      && negb (bool_decide (new = EmptyString))
  | _ => false
  end.

(** A flag that was given and does not split into exactly two parts. *)
Definition wrong_arity (spec : string) : bool :=
  negb (bool_decide (spec = EmptyString))
  && negb (Nat.eqb (length (strings.Split spec ":")) 2).

(** *** The directory walk of main *)

(** The closure handed to [filepath.Walk]: an error is handed back; a
    directory other than the root is skipped unless [-recursive] is set; a
    file is kept when its path ends in [.go]. *)
Definition collect (inputDir : string) (recursive : bool)
  : filepath.WalkFunc (list string) :=
  fun path visit filesToProcess =>
    match visit with
    | filepath.Failed _ err => (filesToProcess, Some err)
    | filepath.Reached info =>
        if filepath.IsDir info && negb (String.eqb path inputDir)
           && negb recursive
        then (filesToProcess, Some filepath.SkipDir)
        else if negb (filepath.IsDir info) && strings.HasSuffix path ".go"
        then (filesToProcess ++ [path], None)
        else (filesToProcess, None)
    end.

(** [goFiles] of the environment, on a file system. *)
Definition walk_goFiles (fs : filepath.FileSystem) (inputDir : string)
    (recursive : bool) : string + list string :=
  match filepath.Walk inputDir (fs inputDir) (collect inputDir recursive) []
  with
  | (_, Some e) => inl e
  | (filesToProcess, None) => inr filesToProcess
  end.

(** The environment of a run on a file system. *)
Definition on_file_system (fs : filepath.FileSystem)
    (parse : string -> string + (FileSet * File))
    (print : FileSet -> File -> string + string)
    (writeFile : string -> string -> option string) (usage : string) : Env :=
  {| ParseFile := parse; format_Node := print; WriteFile := writeFile;
     goFiles := walk_goFiles fs; Usage := usage |}.

(** The three rename refactorings by the role they look for. *)
Inductive Role := Function | Type_ | Variable_.

Definition role_test (role : Role) : Ident -> bool :=
  match role with
  | Function => isFunctionIdent
  | Type_ => isTypeIdent
  | Variable_ => isVarIdent
  end.

Definition rename_Apply_of (role : Role) (old new : string)
  : FileSet -> File -> Addr -> Applied :=
  match role with
  | Function =>
      RenameFunction.Apply
        {| RenameFunction.OldName := old; RenameFunction.NewName := new |}
  | Type_ =>
      RenameType.Apply
        {| RenameType.OldName := old; RenameType.NewName := new |}
  | Variable_ =>
      RenameVariable.Apply
        {| RenameVariable.OldName := old; RenameVariable.NewName := new |}
  end.

(** How an identifier of the tree relates to the one in its place after a
    rename: same address, position and object; the same name, or the new
    name in place of the old one on an identifier in the role. *)
Definition renamed (role : Role) (old new : string) (id id' : Ident) : Prop :=
  Ptr id' = Ptr id /\ NamePos id' = NamePos id /\ Obj id' = Obj id
  /\ (Name id' = Name id
      \/ (Name id = old /\ Name id' = new /\ role_test role id = true)).

(** The run of [applyRefactorings] failed. *)
Definition failed (fr : FileRun) : bool :=
  match run_err fr with Some _ => true | None => false end.

(** The types a type switch lists: the identifiers in the case lists of
    its clauses. *)
Definition listed_ident (e : Expr) : option Ident :=
  match e with
  | IdentExpr id => Some id
  | _ => None
  end.

Definition clause_types (s : Stmt) : list Ident :=
  match s with
  | CaseClause l _ => omap listed_ident (exprs l)
  | _ => []
  end.

Definition node_case_types (n : Node) : list Ident :=
  match n with
  | NStmt (TypeSwitchStmt _ _ (mkBlockStmt _ clauses _)) =>
      flat_map clause_types (stmts_list clauses)
  | _ => []
  end.

Definition case_types (file : File) : list Ident :=
  flat_map node_case_types (walk_file file).

(** The names of the types the file declares at the top level. *)
Definition spec_type_name (spec : Spec) : list string :=
  match spec with
  | TypeSpec _ name _ _ _ => [Name name]
  | _ => []
  end.

Definition declared_types (file : File) : list string :=
  flat_map
    (fun d =>
       match d with
       | GenDeclD (mkGenDecl _ _ _ specs) =>
           flat_map spec_type_name (specs_list specs)
       | _ => []
       end)
    (Decls file).

(** The refactoring never returns an error. *)
Definition never_fails (r : Refactoring) : Prop :=
  forall fset file heap, err (Apply r fset file heap) = None.

(** The flags with another value of [-extract-method]. *)
Definition with_extractMethod (spec : string) (flags : Flags) : Flags :=
  {| inputDir := inputDir flags; recursive := recursive flags;
     renameFn := renameFn flags; renameType := renameType flags;
     renameVar := renameVar flags; extractMethod := spec;
     addParam := addParam flags; write := write flags |}.

(** No flag that builds a refactoring was given. *)
Definition nothing_asked (flags : Flags) : bool :=
  bool_decide (renameFn flags = EmptyString)
  && bool_decide (renameType flags = EmptyString)
  && bool_decide (renameVar flags = EmptyString)
  && bool_decide (addParam flags = EmptyString).

(** A path the refactoring tool processes: it ends in [.go]. *)
Definition is_go (path : string) : bool := strings.HasSuffix path ".go".

(** The [-add-param] flag was given and does not split into exactly
    three parts. *)
Definition wrong_arity3 (spec : string) : bool :=
  negb (bool_decide (spec = EmptyString))
  && negb (Nat.eqb (length (strings.Split spec ":")) 3).

(** The number of function declarations called [name]. *)
Definition count_matches (r : AddParameter.t) (decls : list Decl) : nat :=
  length (List.filter (AddParameter.matches r) decls).

(** The number of parameter declarations of a declaration. *)
Definition decl_params (d : Decl) : list Field :=
  match d with
  | FuncDecl _ _ _ (mkFuncType _ _ params _) _ => optfields params
  | _ => []
  end.

End refactor.

(** ** text/template: the lexer and the function check of [Parse] *)

Module template.

Inductive itemType :=
| itemError | itemBool | itemChar | itemCharConstant | itemAssign
| itemDeclare | itemField | itemIdentifier | itemLeftDelim | itemLeftParen
| itemNumber | itemPipe | itemRawString | itemRightDelim | itemRightParen
| itemSpace | itemString | itemText | itemVariable | itemKeyword | itemDot.

(** A token: its type, its text and the line it is on. *)
Record item := mkItem { typ : itemType; val : string; line : nat }.

Definition oneOf (c : ascii) (s : string) : bool :=
  strings.contains_byte s c.

Definition newline : string := String (ascii_of_nat 10) EmptyString.
Definition spaces : string :=
  String " " (String (ascii_of_nat 9) (String (ascii_of_nat 13) newline)).

Definition isSpace (c : ascii) : bool := oneOf c spaces.

(** [isAlphaNumeric] on ASCII: underscore, letter or digit. *)
Definition isAlphaNumeric (c : ascii) : bool :=
  let n := nat_of_ascii c in
  Nat.eqb n 95 || (Nat.leb 48 n && Nat.leb n 57)
  || (Nat.leb 65 n && Nat.leb n 90) || (Nat.leb 97 n && Nat.leb n 122).

Definition isDigit (c : ascii) : bool :=
  let n := nat_of_ascii c in Nat.leb 48 n && Nat.leb n 57.

Definition isPrint (c : ascii) : bool :=
  let n := nat_of_ascii c in Nat.leb 32 n && Nat.leb n 126.

Definition keywords : list string :=
  ["block"; "break"; "continue"; "define"; "else"; "end"; "if"; "range";
   "nil"; "template"; "with"].

Inductive wordKind := WIdentifier | WField | WVariable.

(** Where the lexer is: in the text between actions, or inside an action
    (with the depth of open parentheses) between tokens, in a run of spaces,
    in a word, a quoted string, a raw string, a character constant or a
    number.  [LSkip k m] passes over [k] bytes of a two-byte token and goes
    on in [m]. *)
Inductive state :=
| LText (start : nat) (acc : string)
| LSkip (k : nat) (next : state)
| LAction (depth : nat)
| LSpace (depth : nat)
| LWord (depth : nat) (kind : wordKind) (acc : string)
| LQuote (depth : nat) (acc : string) (escaped : bool)
| LRawQuote (depth : nat) (acc : string)
| LCharConst (depth : nat) (acc : string) (escaped : bool)
| LNumber (depth : nat) (acc : string).

Definition single (c : ascii) : string := String c EmptyString.

Definition snoc (s : string) (c : ascii) : string := s +:+ single c.

Definition error (ln : nat) (msg : string) : list item * option state :=
  ([mkItem itemError msg ln], None).

(** [atRightDelim]: the input from [c] on starts with the right delimiter. *)
Definition atRightDelim (c : ascii) (rest : string) : bool :=
  oneOf c "}" && strings.HasPrefix rest "}".

(** [atTerminator] *)
Definition atTerminator (c : ascii) (rest : string) : bool :=
  isSpace c || oneOf c ".,|:)(" || atRightDelim c rest.

(** [lexIdentifier] and [lexFieldOrVariable] once the word is read. *)
Definition word_item (kind : wordKind) (word : string) (ln : nat) : item :=
  match kind with
  | WIdentifier =>
      if bool_decide (word ∈ keywords) then mkItem itemKeyword word ln
      else if bool_decide (word = "true") || bool_decide (word = "false")
      then mkItem itemBool word ln
      else mkItem itemIdentifier word ln
  | WField =>
      if bool_decide (word = ".") then mkItem itemDot word ln
      else mkItem itemField word ln
  | WVariable => mkItem itemVariable word ln
  end.

(** [lexInsideAction] on the byte [c], with [rest] to look ahead in. *)
Definition lexInsideAction (depth ln : nat) (c : ascii) (rest : string)
  : list item * option state :=
  if atRightDelim c rest then
    match depth with
    | O =>
        ([mkItem itemRightDelim "}}" ln], Some (LSkip 1 (LText ln EmptyString)))
    | S _ => error ln "unclosed left paren"
    end
  else if isSpace c then ([mkItem itemSpace " " ln], Some (LSpace depth))
  else if oneOf c "=" then ([mkItem itemAssign "=" ln], Some (LAction depth))
  else if oneOf c ":" then
    if strings.HasPrefix rest "="
    then ([mkItem itemDeclare ":=" ln], Some (LSkip 1 (LAction depth)))
    else error ln "expected :="
  else if oneOf c "|" then ([mkItem itemPipe "|" ln], Some (LAction depth))
  else if oneOf c strings.dquote then
    ([], Some (LQuote depth (single c) false))
  else if oneOf c strings.bquote then ([], Some (LRawQuote depth (single c)))
  else if oneOf c "$" then ([], Some (LWord depth WVariable (single c)))
  else if oneOf c "'" then ([], Some (LCharConst depth (single c) false))
  else if oneOf c "."
          && match rest with String r _ => negb (isDigit r) | _ => false end
  then ([], Some (LWord depth WField (single c)))
  else if oneOf c ".+-" || isDigit c then
    ([], Some (LNumber depth (single c)))
  else if isAlphaNumeric c then
    ([], Some (LWord depth WIdentifier (single c)))
  else if oneOf c "(" then
    ([mkItem itemLeftParen "(" ln], Some (LAction (S depth)))
  else if oneOf c ")" then
    match depth with
    | O => error ln "unexpected right paren"
    | S d => ([mkItem itemRightParen ")" ln], Some (LAction d))
    end
  else if isPrint c then
    ([mkItem itemChar (single c) ln], Some (LAction depth))
  else error ln "unrecognized character in action".

Definition text_items (start : nat) (acc : string) : list item :=
  if bool_decide (acc = EmptyString) then [] else [mkItem itemText acc start].

(** One byte of input.  Trim markers and template comments, which the
    template of this tool does not use, are not recognised; numbers are
    scanned loosely, and [break] and [continue] are keywords everywhere. *)
Definition step (st : state) (ln : nat) (c : ascii) (rest : string)
  : list item * option state :=
  match st with
  | LText start acc =>
      if oneOf c "{" && strings.HasPrefix rest "{"
      then (text_items start acc ++ [mkItem itemLeftDelim "{{" ln],
            Some (LSkip 1 (LAction 0)))
      else ([], Some (LText start (snoc acc c)))
  | LSkip (S (S k)) next => ([], Some (LSkip (S k) next))
  | LSkip _ next => ([], Some next)
  | LAction depth => lexInsideAction depth ln c rest
  | LSpace depth =>
      if isSpace c then ([], Some (LSpace depth))
      else lexInsideAction depth ln c rest
  | LWord depth kind acc =>
      if isAlphaNumeric c then ([], Some (LWord depth kind (snoc acc c)))
      else if atTerminator c rest then
        let (out, next) := lexInsideAction depth ln c rest in
        (word_item kind acc ln :: out, next)
      else error ln "bad character"
  | LQuote depth acc escaped =>
      if oneOf c newline then error ln "unterminated quoted string"
      else if escaped then ([], Some (LQuote depth (snoc acc c) false))
      else if oneOf c "\" then ([], Some (LQuote depth (snoc acc c) true))
      else if oneOf c strings.dquote
      then ([mkItem itemString (snoc acc c) ln], Some (LAction depth))
      else ([], Some (LQuote depth (snoc acc c) false))
  | LRawQuote depth acc =>
      if oneOf c strings.bquote
      then ([mkItem itemRawString (snoc acc c) ln], Some (LAction depth))
      else ([], Some (LRawQuote depth (snoc acc c)))
  | LCharConst depth acc escaped =>
      if oneOf c newline then error ln "unterminated character constant"
      else if escaped then ([], Some (LCharConst depth (snoc acc c) false))
      else if oneOf c "\" then ([], Some (LCharConst depth (snoc acc c) true))
      else if oneOf c "'"
      then ([mkItem itemCharConstant (snoc acc c) ln], Some (LAction depth))
      else ([], Some (LCharConst depth (snoc acc c) false))
  | LNumber depth acc =>
      if isAlphaNumeric c || oneOf c "." then
        ([], Some (LNumber depth (snoc acc c)))
      else
        let (out, next) := lexInsideAction depth ln c rest in
        (mkItem itemNumber acc ln :: out, next)
  end.

(** The end of the input. *)
Definition at_eof (st : state) (ln : nat) : list item :=
  match st with
  | LText start acc => text_items start acc
  | LSkip _ (LText _ _) => []
  | LQuote _ _ _ => [mkItem itemError "unterminated quoted string" ln]
  | LRawQuote _ _ => [mkItem itemError "unterminated raw quoted string" ln]
  | LCharConst _ _ _ =>
      [mkItem itemError "unterminated character constant" ln]
  | _ => [mkItem itemError "unclosed action" ln]
  end.

Fixpoint lex_from (st : state) (ln : nat) (input : string) : list item :=
  match input with
  | EmptyString => at_eof st ln
  | String c rest =>
      let (out, next) := step st ln c rest in
      match next with
      | None => out
      | Some st' =>
          out ++ lex_from st' (if oneOf c newline then S ln else ln) rest
      end
  end.

Definition lex (input : string) : list item :=
  lex_from (LText 1 EmptyString) 1 input.

(** A function value of a [template.FuncMap]. *)
Inductive Func :=
| StringFunc (f : string -> string)
| IntFunc2 (f : Z -> Z -> Z).

Definition FuncMap := list (string * Func).

(** [*template.Template]: its name, the functions registered with
    [Funcs], and the tokens of the text once [Parse] accepted it. *)
Record Template := mkTemplate
  { TemplateName : string; parseFuncs : FuncMap; Tree : list item }.

Definition New (name : string) : Template :=
  {| TemplateName := name; parseFuncs := []; Tree := [] |}.

Definition Funcs (t : Template) (funcMap : FuncMap) : Template :=
  {| TemplateName := TemplateName t;
     parseFuncs := parseFuncs t ++ funcMap;
     Tree := Tree t |}.

(** The names [builtins()] defines. *)
Definition builtins : list string :=
  ["and"; "call"; "html"; "index"; "slice"; "js"; "len"; "not"; "or";
   "print"; "printf"; "println"; "urlquery";
   "eq"; "ge"; "gt"; "le"; "lt"; "ne"].

Definition hasFunction (t : Template) (name : string) : bool :=
  bool_decide (name ∈ map fst (parseFuncs t))
  || bool_decide (name ∈ builtins).

(** [t.errorf]: the message of a parse error. *)
Definition errorf (t : Template) (ln : nat) (msg : string) : string :=
  "template: " +:+ TemplateName t +:+ ":" +:+ pretty ln +:+ ": " +:+ msg.

(** The tokens are read in order; reading stops with an error at a token
    the lexer could not form and at an identifier that names no function
    (the check in [term]). *)
Fixpoint check_items (t : Template) (items : list item) : option string :=
  match items with
  | [] => None
  | it :: rest =>
      match typ it with
      | itemError => Some (errorf t (line it) (val it))
      | itemIdentifier =>
          if hasFunction t (val it) then check_items t rest
          else Some (errorf t (line it)
                       ("function " +:+ strings.dquote +:+ val it
                        +:+ strings.dquote +:+ " not defined"))
      | _ => check_items t rest
      end
  end.

(** [tmpl.Parse(text)] as far as the template of the generator needs it:
    the lexer above and the check that an identifier in an action names a
    function.  It is not the library's [Parse] on every text: template
    comments and trim markers are not recognised (a text with a comment is
    refused here), and the grammar of actions is not checked (a [range]
    without its [end] is accepted here).  On the template of the
    generator, which has neither, it stops where the library stops, at the
    first identifier that names no function, with the library's message. *)
Definition Parse (t : Template) (text : string) : string + Template :=
  let items := lex text in
  match check_items t items with
  | Some e => inl e
  | None =>
      inr {| TemplateName := TemplateName t; parseFuncs := parseFuncs t;
             Tree := items |}
  end.

End template.

(** ** code_generator.go *)

Module codegen.

Import token ast.

(** ParamInfo holds information about a parameter *)
Module ParamInfo.
Record t := mk { Name : string; Type_ : string }.
End ParamInfo.

(** MethodInfo holds information about a method *)
Module MethodInfo.
Record t := mk
  { Name : string;
    Receiver : string;
    Params : list ParamInfo.t;
    Results : list ParamInfo.t;
    Comments : list string }.
End MethodInfo.

(** FieldInfo holds information about a struct field *)
Module FieldInfo.
Record t := mk
  { Name : string;
    Type_ : string;
    Tag : string;
    JSONName : string;
    DBName : string;
    Comments : list string }.
End FieldInfo.

(** StructInfo holds information about a struct *)
Module StructInfo.
Record t := mk
  { Name : string;
    Fields : list FieldInfo.t;
    Methods : list MethodInfo.t;
    Comments : list string }.
End StructInfo.

(** Command line flags *)
Record Flags := mkFlags
  { inputFile : string;
    outputFile : string;
    packageName : string;
    genMethods : bool;
    genJSON : bool;
    genSQLite : bool }.

(** How a call ends: with its results, or in a run-time panic. *)
Inductive Outcome (A : Type) :=
| Returns (a : A)
| Panics (msg : string).
Arguments Returns {A} a.
Arguments Panics {A} msg.

(** The data handed to [tmpl.Execute]. *)
Record TemplateData := mkTemplateData
  { PackageName : string;
    Structs : list StructInfo.t;
    GenMethods : bool;
    GenJSON : bool;
    GenSQLite : bool }.

(** Define the template: the text of [tmplText], from the back quote that
    opens it to the one on a line of its own that ends it. *)
Definition tmplText : string :=
  "// Code generated by code_generator.go; DO NOT EDIT.

package {{ . }}

{{range .}}
{{range .}}
{{if .Comments}}
{{range .Comments}}{{.}}
{{end}}
{{end}}
{{if and (eq $.GenJSON true) (ne .Name "
  +:+ strings.dquote
  +:+ strings.dquote
  +:+ ") }}
// Marshal{{.Name}} converts {{.Name}} to JSON
func (s {{.Name}}) Marshal{{.Name}}() ([]byte, error) {
	return json.Marshal(s)
}

// Unmarshal{{.Name}} parses JSON into {{.Name}}
func Unmarshal{{.Name}}(data []byte) ({{.Name}}, error) {
	var s {{.Name}}
	err := json.Unmarshal(data, &s)
	return s, err
}
{{end}}

{{if and (eq $.GenMethods true) (ne .Name "
  +:+ strings.dquote
  +:+ strings.dquote
  +:+ ") }}
// New{{.Name}} creates a new instance of {{.Name}}
func New{{.Name}}({{range $i, $f := .Fields}}{{if $i}}, {{end}}{{$f.Name}} {{$f.Type}}{{end}}) *{{.Name}} {
	return &{{.Name}}{
		{{range .Fields}}{{.Name}}: {{.Name}},
		{{end}}
	}
}

// String returns a string representation of {{.Name}}
func (s {{.Name}}) String() string {
	return fmt.Sprintf("
  +:+ strings.dquote
  +:+ "{{.Name}}{ {{range $i, $f := .Fields}}{{if $i}}, {{end}}{{$f.Name}}: %v{{end}} }"
  +:+ strings.dquote
  +:+ ", {{range $i, $f := .Fields}}{{if $i}}, {{end}}s.{{$f.Name}}{{end}})
}

// Clone creates a deep copy of {{.Name}}
func (s {{.Name}}) Clone() {{.Name}} {
	return {{.Name}}{
		{{range .Fields}}{{.Name}}: s.{{.Name}},
		{{end}}
	}
}
{{end}}

{{if and (eq $.GenSQLite true) (ne .Name "
  +:+ strings.dquote
  +:+ strings.dquote
  +:+ ") }}
// Schema{{.Name}} returns the SQLite schema for {{.Name}}
func Schema{{.Name}}() string {
	return `CREATE TABLE IF NOT EXISTS {{ToLower .Name}} (
		{{range $i, $f := .Fields}}{{if $i}},
		{{end}}{{$f.DBName}} {{GetSQLType $f.Type}}{{end}}
	);`
}

// Insert{{.Name}} inserts a {{.Name}} into the database
func Insert{{.Name}}(db *sql.DB, s {{.Name}}) (int64, error) {
	stmt, err := db.Prepare(`INSERT INTO {{ToLower .Name}} ({{range $i, $f := .Fields}}{{if $i}}, {{end}}{{$f.DBName}}{{end}})
		VALUES ({{range $i, $f := .Fields}}{{if $i}}, {{end}}?{{end}})`)
	if err != nil {
		return 0, err
	}
	defer stmt.Close()
	
	res, err := stmt.Exec({{range $i, $f := .Fields}}{{if $i}}, {{end}}s.{{$f.Name}}{{end}})
	if err != nil {
		return 0, err
	}
	
	return res.LastInsertId()
}

// Get{{.Name}} retrieves a {{.Name}} by ID
func Get{{.Name}}(db *sql.DB, id int64) ({{.Name}}, error) {
	var s {{.Name}}
	err := db.QueryRow(`SELECT {{range $i, $f := .Fields}}{{if $i}}, {{end}}{{$f.DBName}}{{end}}
		FROM {{ToLower .Name}} WHERE id = ?`, id).Scan({{range $i, $f := .Fields}}{{if $i}}, {{end}}&s.{{$f.Name}}{{end}})
	return s, err
}

// Update{{.Name}} updates a {{.Name}} in the database
func Update{{.Name}}(db *sql.DB, s {{.Name}}, id int64) error {
	stmt, err := db.Prepare(`UPDATE {{ToLower .Name}} SET {{range $i, $f := .Fields}}{{if $i}}, {{end}}{{$f.DBName}} = ?{{end}}
		WHERE id = ?`)
	if err != nil {
		return err
	}
	defer stmt.Close()
	
	_, err = stmt.Exec({{range $i, $f := .Fields}}{{if $i}}, {{end}}s.{{$f.Name}}{{end}}, id)
	return err
}

// Delete{{.Name}} deletes a {{.Name}} from the database
func Delete{{.Name}}(db *sql.DB, id int64) error {
	_, err := db.Exec(`DELETE FROM {{ToLower .Name}} WHERE id = ?`, id)
	return err
}
{{end}}
{{end}}
{{end}}
".

(** The message of the library when a template calls [GetSQLType] on its
    line 53 and no such function is defined. *)
Definition GetSQLType_undefined : string :=
  "template: code:53: function " +:+ strings.dquote +:+ "GetSQLType"
  +:+ strings.dquote +:+ " not defined".

Section collaborators.

(** The library functions the generator calls and this development does
    not look into: [strings.ToLower] and [strings.Title] (both work on
    Unicode letters), the printer [format.Node], the executor
    [tmpl.Execute] and the formatter [format.Source]. *)
Variable ToLower : string -> string.
Variable Title : string -> string.
Variable format_Node : FileSet -> OptExpr -> string + string.
Variable Execute : template.Template -> TemplateData -> string + string.
Variable format_Source : string -> string + string.

(** FormatNode formats an AST node into a string *)
Definition FormatNode (fset : FileSet) (node : OptExpr) : string :=
  match format_Node fset node with
  | inl e => "error formatting node: " +:+ e
  | inr buf => buf
  end.

(** Extract a value from a struct tag *)
Definition extractTagValue (tag key : string) : string :=
  let tag := strings.Trim tag strings.bquote in
  let keyPrefix := key +:+ ":" in
  match
    List.find (fun part => strings.HasPrefix part keyPrefix)
              (strings.Split tag " ")
  with
  | Some part =>
      let value := strings.drop_bytes (String.length keyPrefix) part in
      let value := strings.Trim value strings.dquote in
      let parts := strings.Split value "," in
      List.hd EmptyString parts
  | None => EmptyString
  end.

Definition comment_texts (g : option CommentGroup) : list string :=
  match g with
  | None => []
  | Some g => map Text g
  end.

(** The body of [for _, field := range structType.Fields.List]: the
    [FieldInfo] one field appends, none for a field without names. *)
Definition field_infos (fset : FileSet) (field : Field) : list FieldInfo.t :=
  match field with
  | mkField doc names ty tag comment =>
      match names with
      | [] => []
      | name0 :: _ =>
          let fieldName := ast.Name name0 in
          let fieldType := FormatNode fset ty in
          let '(tag, jsonName, dbName) :=
            match tag with
            | Some lit =>
                let tag := Value lit in
                let jsonName := extractTagValue tag "json" in
                let jsonName :=
                  if bool_decide (jsonName = EmptyString)
                  then ToLower fieldName else jsonName in
                let dbName := extractTagValue tag "db" in
                let dbName :=
                  if bool_decide (dbName = EmptyString)
                  then ToLower fieldName else dbName in
                (tag, jsonName, dbName)
            | None => (EmptyString, ToLower fieldName, ToLower fieldName)
            end in
          [ {| FieldInfo.Name := fieldName;
               FieldInfo.Type_ := fieldType;
               FieldInfo.Tag := tag;
               FieldInfo.JSONName := jsonName;
               FieldInfo.DBName := dbName;
               FieldInfo.Comments := comment_texts doc ++ comment_texts comment
            |} ]
      end
  end.

(** The body of [for _, spec := range genDecl.Specs]: the [StructInfo] a
    type spec of a struct type appends. *)
Definition spec_structs (fset : FileSet) (doc : option CommentGroup)
    (spec : Spec) : list StructInfo.t :=
  match spec with
  | TypeSpec _ name _ (StructType _ (mkFieldList _ fields _)) _ =>
      [ {| StructInfo.Name := ast.Name name;
           StructInfo.Fields :=
             flat_map (field_infos fset) (fields_list fields);
           StructInfo.Methods := [];
           StructInfo.Comments := comment_texts doc |} ]
  | _ => []
  end.

(** Handle pointer and non-pointer receivers *)
Definition receiver_type (ty : OptExpr) : string :=
  match ty with
  | SomeExpr (StarExpr _ (IdentExpr ident)) => ast.Name ident
  | SomeExpr (IdentExpr t) => ast.Name t
  | _ => EmptyString
  end.

(** Process method parameters: one [ParamInfo] for each name. *)
Definition param_infos (fset : FileSet) (param : Field) : list ParamInfo.t :=
  let paramType := FormatNode fset (field_type param) in
  map (fun name => {| ParamInfo.Name := ast.Name name;
                      ParamInfo.Type_ := paramType |})
      (field_names param).

(** Process method results: named and unnamed results. *)
Definition result_infos (fset : FileSet) (result : Field) : list ParamInfo.t :=
  let resultType := FormatNode fset (field_type result) in
  match field_names result with
  | [] => [ {| ParamInfo.Name := EmptyString; ParamInfo.Type_ := resultType |} ]
  | names =>
      map (fun name => {| ParamInfo.Name := ast.Name name;
                          ParamInfo.Type_ := resultType |})
          names
  end.

Definition method_info (fset : FileSet) (doc : option CommentGroup)
    (recv : Field) (name : Ident) (ty : FuncType) : MethodInfo.t :=
  match ty with
  | mkFuncType _ _ params results =>
      {| MethodInfo.Name := ast.Name name;
         MethodInfo.Receiver := FormatNode fset (field_type recv);
         MethodInfo.Params := flat_map (param_infos fset) (optfields params);
         MethodInfo.Results :=
           flat_map (result_infos fset) (optfields results);
         MethodInfo.Comments := comment_texts doc |}
  end.

(** [structs[i].Methods = append(structs[i].Methods, m)] *)
Definition add_method (m : MethodInfo.t) (s : StructInfo.t) : StructInfo.t :=
  {| StructInfo.Name := StructInfo.Name s;
     StructInfo.Fields := StructInfo.Fields s;
     StructInfo.Methods := StructInfo.Methods s ++ [m];
     StructInfo.Comments := StructInfo.Comments s |}.

(** The body of [for _, decl := range file.Decls] on the structs found so
    far. *)
Definition extract_decl (fset : FileSet) (decl : Decl)
    (structs : list StructInfo.t) : Outcome (list StructInfo.t) :=
  match decl with
  | GenDeclD (mkGenDecl doc _ tok specs) =>
      if bool_decide (tok = TYPE)
      then Returns (structs ++ flat_map (spec_structs fset doc)
                                        (specs_list specs))
      else Returns structs
  | FuncDecl doc (SomeFieldList (mkFieldList _ recvs _)) name ty _ =>
      match recvs with
      | FNil => Panics "runtime error: index out of range [0] with length 0"
      | FCons recv _ =>
          let recvType := receiver_type (field_type recv) in
          if bool_decide (recvType <> EmptyString) then
            Returns
              (map (fun s =>
                      if bool_decide (StructInfo.Name s = recvType)
                      then add_method (method_info fset doc recv name ty) s
                      else s)
                   structs)
          else Returns structs
      end
  | _ => Returns structs
  end.

Fixpoint extract_decls (fset : FileSet) (decls : list Decl)
    (structs : list StructInfo.t) : Outcome (list StructInfo.t) :=
  match decls with
  | [] => Returns structs
  | decl :: rest =>
      match extract_decl fset decl structs with
      | Returns structs' => extract_decls fset rest structs'
      | Panics msg => Panics msg
      end
  end.

(** ExtractStructs extracts struct information from a Go file; [parse] is
    [parser.ParseFile] with the comments kept. *)
Definition ExtractStructs (parse : string -> string + (FileSet * File))
    (filename : string)
  : Outcome (list StructInfo.t * string * option string) :=
  match parse filename with
  | inl e => Returns ([], EmptyString, Some ("failed to parse file: " +:+ e))
  | inr (fset, file) =>
      let pkgName := ast.Name (FileName file) in
      match extract_decls fset (Decls file) [] with
      | Returns structs => Returns (structs, pkgName, None)
      | Panics msg => Panics msg
      end
  end.

(** Helper functions for the template *)
Definition funcMap : template.FuncMap :=
  [ ("ToLower", template.StringFunc ToLower);
    ("Title", template.StringFunc Title);
    ("Add", template.IntFunc2 (fun a b => (a + b)%Z)) ].

(** Generate code for the structs *)
Definition GenerateCode (flags : Flags) (structs : list StructInfo.t)
    (pkgName : string) : string * option string :=
  let pkgName :=
    if bool_decide (packageName flags <> EmptyString)
    then packageName flags else pkgName in
  let tmpl := template.New "code" in
  let tmpl := template.Funcs tmpl funcMap in
  match template.Parse tmpl tmplText with
  | inl e => (EmptyString, Some ("failed to parse template: " +:+ e))
  | inr tmpl =>
      let data :=
        {| PackageName := pkgName;
           Structs := structs;
           GenMethods := genMethods flags;
           GenJSON := genJSON flags;
           GenSQLite := genSQLite flags |} in
      match Execute tmpl data with
      | inl e => (EmptyString, Some ("failed to execute template: " +:+ e))
      | inr buf =>
          match format_Source buf with
          | inl e => (buf, Some ("failed to format code: " +:+ e))
          | inr formattedCode => (formattedCode, None)
          end
      end
  end.

(** *** main *)

(** A run of the generator: its exit code, what it printed, and the file
    it wrote, if any. *)
Record Run := mkRun
  { exit_code : nat;
    stdout : list string;
    stderr : list string;
    written : option (string * string) }.

(** The text [flag.Usage()] writes to standard error: the line [Usage of]
    with the name of the program, then the defaults of the flags. *)
Variable flag_Usage : string.

Definition main (parse : string -> string + (FileSet * File))
    (WriteFile : string -> string -> option string) (flags : Flags)
  : Outcome Run :=
  if bool_decide (inputFile flags = EmptyString) then
    Returns {| exit_code := 1; stdout := ["Error: Input file is required"];
               stderr := [flag_Usage]; written := None |}
  else
    match ExtractStructs parse (inputFile flags) with
    | Panics msg => Panics msg
    | Returns (_, _, Some e) =>
        Returns {| exit_code := 1; stdout := [];
                   stderr := ["Error extracting structs: " +:+ e];
                   written := None |}
    | Returns (structs, pkgName, None) =>
        match GenerateCode flags structs pkgName with
        | (_, Some e) =>
            Returns {| exit_code := 1; stdout := [];
                       stderr := ["Error generating code: " +:+ e];
                       written := None |}
        | (code, None) =>
            if bool_decide (outputFile flags <> EmptyString) then
              match WriteFile (outputFile flags) code with
              | Some e =>
                  Returns {| exit_code := 1; stdout := [];
                             stderr := ["Error writing output file: " +:+ e];
                             written := Some (outputFile flags, code) |}
              | None =>
                  Returns {| exit_code := 0;
                             stdout := ["Generated code written to "
                                        +:+ outputFile flags];
                             stderr := [];
                             written := Some (outputFile flags, code) |}
              end
            else
              Returns {| exit_code := 0; stdout := [code]; stderr := [];
                         written := None |}
        end
    end.

End collaborators.

(** *** Vocabulary for the properties of the generator *)

(** The name of a shape with the names of its fields. *)
Definition outline (s : StructInfo.t) : string * list string :=
  (StructInfo.Name s, map FieldInfo.Name (StructInfo.Fields s)).

(** The first name of every field declaration that has names. *)
Definition first_names (fields : list Field) : list string :=
  flat_map (fun f => match field_names f with
                     | [] => []
                     | name0 :: _ => [ast.Name name0]
                     end) fields.

(** The struct types a declaration declares, in order. *)
Definition declared_structs (decl : Decl) : list (string * list string) :=
  match decl with
  | GenDeclD (mkGenDecl _ _ tok specs) =>
      if bool_decide (tok = TYPE) then
        flat_map
          (fun spec =>
             match spec with
             | TypeSpec _ name _ (StructType _ (mkFieldList _ fields _)) _ =>
                 [(ast.Name name, first_names (fields_list fields))]
             | _ => []
             end)
          (specs_list specs)
      else []
  | _ => []
  end.

(** A method declaration whose receiver list is empty, as the parser
    builds it for [func () f() {}]. *)
Definition no_receiver (decl : Decl) : bool :=
  match decl with
  | FuncDecl _ (SomeFieldList (mkFieldList _ FNil _)) _ _ _ => true
  | _ => false
  end.

(** The method a declaration declares: the type name [ExtractStructs]
    reads off its first receiver, and its name. *)
Definition declared_method (decl : Decl) : option (string * string) :=
  match decl with
  | FuncDecl _ (SomeFieldList (mkFieldList _ (FCons recv _) _)) name _ _ =>
      Some (receiver_type (field_type recv), ast.Name name)
  | _ => None
  end.

(** The names of the methods in a shape are those of method declarations
    of the file whose receiver type is the name of the shape. *)
Definition methods_declared_in (decls : list Decl) (s : StructInfo.t)
  : Prop :=
  forall m, m ∈ StructInfo.Methods s ->
    exists decl, decl ∈ decls
      /\ declared_method decl = Some (StructInfo.Name s, MethodInfo.Name m).

(** One [key:"value,options"] pair of a struct tag. *)
Definition tag_pair (key value : string) (options : list string) : string :=
  key +:+ ":" +:+ strings.dquote
  +:+ strings.Join (value :: options) "," +:+ strings.dquote.

(** A piece of a struct tag between two spaces: it holds no space and no
    back quote. *)
Definition tag_part (s : string) : bool :=
  strings.free_of " " s && strings.free_of "`" s.

(** The string holds no double quote. *)
Definition unquoted (s : string) : bool :=
  strings.free_of (ascii_of_nat 34) s.

End codegen.

(** ** Sample inputs *)

Module samples.

Import token ast.

Definition fset : FileSet :=
  fun p => {| Filename := "sample.go"; Offset := p;
              Line := 1 + p / 40; Column := 1 + p mod 40 |}.

(** An identifier the parser left unresolved. *)
Definition free (ptr : Addr) (pos : Pos) (name : string) : Ident :=
  {| Ptr := ptr; NamePos := pos; Name := name; Obj := None |}.

(** An identifier bound to an object. *)
Definition bound (ptr : Addr) (pos : Pos) (name : string) (kind : ObjKind)
    (decl : DeclNode) : Ident :=
  {| Ptr := ptr; NamePos := pos; Name := name;
     Obj := Some {| Kind := kind; ObjName := name; ObjDecl := decl |} |}.

Definition lit (pos : Pos) (text : string) : BasicLit :=
  {| ValuePos := pos; LitKind := STRING;
     Value := strings.dquote +:+ text +:+ strings.dquote |}.

Definition import (alias : option Ident) (pos : Pos) (path : string) : Spec :=
  ImportSpecS {| ImportDoc := None; ImportName := alias;
                 ImportPath := lit pos path; ImportComment := None |}.

Definition block (l : StmtList) : BlockStmt := mkBlockStmt 0 l 0.

Definition no_params : FuncType :=
  mkFuncType 0 NoFieldList (SomeFieldList (mkFieldList 0 FNil 0)) NoFieldList.

Definition package (name : string) (decls : list Decl) : File :=
  {| FileDoc := None; FileName := free 1 9 name; Decls := decls |}.

(** [package main; import ("fmt"; "os")] and nothing else. *)
Definition two_unused : File :=
  package "main"
    [ GenDeclD (mkGenDecl None 15 IMPORT
        (SpCons (import None 25 "fmt") (SpCons (import None 32 "os") SpNil))) ].

(** [import "fmt"] and [func main() { fmt.Println("hi") }]. *)
Definition fmt_used : File :=
  package "main"
    [ GenDeclD (mkGenDecl None 15 IMPORT (SpCons (import None 22 "fmt") SpNil));
      FuncDecl None NoFieldList (bound 2 34 "main" Fun (DeclFuncDecl 2))
        no_params
        (Some (block
           (SCons (ExprStmt
              (CallExpr
                 (SelectorExpr (IdentExpr (free 3 43 "fmt"))
                               (free 4 47 "Println"))
                 (ECons (BasicLitExpr (lit 55 "hi")) ENil)))
              SNil))) ].

(** [import "math/rand/v2"] and [func main() { rand.Int() }]: the package
    at that path is called [rand]. *)
Definition rand_v2 : ImportSpec :=
  {| ImportDoc := None; ImportName := None;
     ImportPath := lit 22 "math/rand/v2"; ImportComment := None |}.

Definition rand_v2_used : File :=
  package "main"
    [ GenDeclD (mkGenDecl None 15 IMPORT (SpCons (ImportSpecS rand_v2) SpNil));
      FuncDecl None NoFieldList (bound 2 43 "main" Fun (DeclFuncDecl 2))
        no_params
        (Some (block
           (SCons (ExprStmt
              (CallExpr
                 (SelectorExpr (IdentExpr (free 3 52 "rand"))
                               (free 4 57 "Int"))
                 ENil))
              SNil))) ].

(** What the package clause of the package at a path says: [rand] for
    [math/rand/v2]. *)
Definition package_of (path : string) : string :=
  if String.eqb path (strings.dquote +:+ "math/rand/v2" +:+ strings.dquote)
  then "rand" else path.

(** [import ("fmt"; "os")] and [func main() { fmt.Println("hi") }]: the
    first import is used, the second is not. *)
Definition fmt_import : ImportSpec :=
  {| ImportDoc := None; ImportName := None; ImportPath := lit 25 "fmt";
     ImportComment := None |}.

Definition fmt_used_os_unused : File :=
  package "main"
    [ GenDeclD (mkGenDecl None 15 IMPORT
        (SpCons (ImportSpecS fmt_import) (SpCons (import None 32 "os") SpNil)));
      FuncDecl None NoFieldList (bound 2 45 "main" Fun (DeclFuncDecl 2))
        no_params
        (Some (block
           (SCons (ExprStmt
              (CallExpr
                 (SelectorExpr (IdentExpr (free 3 54 "fmt"))
                               (free 4 58 "Println"))
                 (ECons (BasicLitExpr (lit 66 "hi")) ENil)))
              SNil))) ].

(** [import bar "example.com/pkg/foo"]: an alias nothing refers to. *)
Definition aliased_only : File :=
  package "main"
    [ GenDeclD (mkGenDecl None 15 IMPORT
        (SpCons (import (Some (free 2 22 "bar")) 26 "example.com/pkg/foo")
                SpNil)) ].

(** [package p; func f() {}]: no imports. *)
Definition no_imports : File :=
  package "p"
    [ FuncDecl None NoFieldList (bound 2 16 "f" Fun (DeclFuncDecl 2)) no_params
        (Some (block SNil)) ].

Definition parse (file : File) : string -> string + (FileSet * File) :=
  fun _ => inr (fset, file).

(** [type X struct{}; var v X; func g() { X := 1; _ = X }]: the name [X]
    is a type at the top level and a variable inside [g]. *)
Definition X_type (ptr : Addr) (pos : Pos) : Ident :=
  bound ptr pos "X" Typ (DeclTypeSpec 2).

Definition X_var (ptr : Addr) (pos : Pos) : Ident :=
  bound ptr pos "X" Var DeclAssignStmt.

Definition type_and_var : File :=
  package "p"
    [ GenDeclD (mkGenDecl None 11 TYPE
        (SpCons (TypeSpec None (X_type 2 16) NoFieldList
                   (StructType 18 (mkFieldList 24 FNil 25)) None) SpNil));
      GenDeclD (mkGenDecl None 28 VAR
        (SpCons (ValueSpec None [bound 3 32 "v" Var DeclValueSpec]
                   (SomeExpr (IdentExpr (X_type 4 34))) ENil None) SpNil));
      FuncDecl None NoFieldList (bound 5 42 "g" Fun (DeclFuncDecl 5)) no_params
        (Some (block
           (SCons (AssignStmt (ECons (IdentExpr (X_var 6 48)) ENil) DEFINE
                     (ECons (BasicLitExpr {| ValuePos := 53; LitKind := INT;
                                             Value := "1" |}) ENil))
           (SCons (AssignStmt (ECons (IdentExpr (free 7 56 "_")) ENil) ASSIGN
                     (ECons (IdentExpr (X_var 8 60)) ENil))
            SNil)))) ].

(** [type X struct{}] and
    [func f(v any) { switch X := v.(type) { case X: _ = X } }]: the case
    lists the type [X]; the parser, which resolves names by scope alone,
    binds the identifier of the case to the variable of the guard. *)
Definition type_switch : File :=
  package "p"
    [ GenDeclD (mkGenDecl None 11 TYPE
        (SpCons (TypeSpec None (X_type 2 16) NoFieldList
                   (StructType 18 (mkFieldList 24 FNil 25)) None) SpNil));
      FuncDecl None NoFieldList (bound 3 33 "f" Fun (DeclFuncDecl 3))
        (mkFuncType 28 NoFieldList
           (SomeFieldList
              (mkFieldList 34
                 (FCons (mkField None [bound 4 35 "v" Var DeclField]
                                 (SomeExpr (IdentExpr (free 5 37 "any")))
                                 None None) FNil) 40))
           NoFieldList)
        (Some (block
           (SCons
              (TypeSwitchStmt NoStmt
                 (AssignStmt (ECons (IdentExpr (X_var 6 52)) ENil) DEFINE
                    (ECons (TypeAssertExpr
                              (IdentExpr (bound 7 57 "v" Var DeclField))
                              NoExpr) ENil))
                 (block
                    (SCons
                       (CaseClause (ECons (IdentExpr (X_var 8 73)) ENil)
                          (SCons
                             (AssignStmt
                                (ECons (IdentExpr (free 9 78 "_")) ENil)
                                ASSIGN
                                (ECons (IdentExpr (X_var 10 82)) ENil))
                             SNil))
                       SNil)))
              SNil))) ].

(** A function declaration [func name() { body }]. *)
Definition func (ptr : Addr) (pos : Pos) (name : string) (body : StmtList)
  : Decl :=
  FuncDecl None NoFieldList (bound ptr pos name Fun (DeclFuncDecl ptr))
           no_params (Some (block body)).

(** A statement [name()] calling the function declared at [decl]. *)
Definition call (ptr : Addr) (pos : Pos) (name : string) (decl : Addr)
  : Stmt :=
  ExprStmt (CallExpr (IdentExpr (bound ptr pos name Fun (DeclFuncDecl decl)))
                     ENil).

(** [func a() {}; func b() {}] *)
Definition a_and_b : File :=
  package "p" [ func 2 16 "a" SNil; func 3 29 "b" SNil ].

(** [func a() {}; func main() { a() }] *)
Definition a_called : File :=
  package "p"
    [ func 2 16 "a" SNil; func 3 29 "main" (SCons (call 4 38 "a" 2) SNil) ].

(** [func foo() {}; func main() { foo() }], the only file of a
    directory. *)
Definition foo_called : File :=
  package "p"
    [ func 2 16 "foo" SNil;
      func 3 31 "main" (SCons (call 4 40 "foo" 2) SNil) ].

Definition one_file_env (file : File) : refactor.Env :=
  {| refactor.ParseFile := parse file;
     refactor.format_Node := fun _ _ => inr "formatted";
     refactor.WriteFile := fun _ _ => None;
     refactor.goFiles := fun _ _ => inr ["a.go"];
     refactor.Usage := "Usage of refactoring_tool:" |}.

Definition flags_rename_fn (spec : string) : refactor.Flags :=
  {| refactor.inputDir := "."; refactor.recursive := false;
     refactor.renameFn := spec; refactor.renameType := EmptyString;
     refactor.renameVar := EmptyString;
     refactor.extractMethod := EmptyString;
     refactor.addParam := EmptyString; refactor.write := false |}.

(** The shape [{id uint64, name string, active bool}]. *)
Definition field (name ty : string) : codegen.FieldInfo.t :=
  {| codegen.FieldInfo.Name := name;
     codegen.FieldInfo.Type_ := ty;
     codegen.FieldInfo.Tag := EmptyString;
     codegen.FieldInfo.JSONName := name;
     codegen.FieldInfo.DBName := name;
     codegen.FieldInfo.Comments := [] |}.

Definition user_shape : codegen.StructInfo.t :=
  {| codegen.StructInfo.Name := "User";
     codegen.StructInfo.Fields :=
       [field "id" "uint64"; field "name" "string"; field "active" "bool"];
     codegen.StructInfo.Methods := [];
     codegen.StructInfo.Comments := [] |}.

Definition sqlite_flags : codegen.Flags :=
  {| codegen.inputFile := "user.go"; codegen.outputFile := EmptyString;
     codegen.packageName := EmptyString; codegen.genMethods := true;
     codegen.genJSON := true; codegen.genSQLite := true |}.

(** [type Point struct { X, Y int; Label string }] *)
Definition int_type (ptr : Addr) (pos : Pos) : OptExpr :=
  SomeExpr (IdentExpr (free ptr pos "int")).

Definition point_fields : Fields :=
  FCons (mkField None [bound 3 32 "X" Var DeclField;
                       bound 4 35 "Y" Var DeclField]
                 (int_type 5 37) None None)
 (FCons (mkField None [bound 6 42 "Label" Var DeclField]
                 (SomeExpr (IdentExpr (free 7 48 "string"))) None None)
  FNil).

Definition point_file : File :=
  package "geo"
    [ GenDeclD (mkGenDecl None 13 TYPE
        (SpCons (TypeSpec None (bound 2 18 "Point" Typ (DeclTypeSpec 2))
                   NoFieldList
                   (StructType 24 (mkFieldList 31 point_fields 56)) None)
                SpNil)) ].

(** The names a struct type declares, field by field. *)
Definition declared_names (fields : Fields) : list string :=
  flat_map (fun f => map Name (field_names f)) (fields_list fields).

(** A printer that knows the two type names of [point_file]. *)
Definition print_type (fset : FileSet) (node : OptExpr) : string + string :=
  match node with
  | SomeExpr (IdentExpr id) => inr (Name id)
  | _ => inl "unsupported node"
  end.

(** [func main() { os.Create("f"); Opener.Close(); v, _ := load();
    _ = load() }] *)
Definition load_call (ptr : Addr) (pos : Pos) : Expr :=
  CallExpr (IdentExpr (free ptr pos "load")) ENil.

Definition os_Create : Stmt :=
  ExprStmt (CallExpr (SelectorExpr (IdentExpr (free 3 30 "os"))
                                   (free 4 33 "Create"))
                     (ECons (BasicLitExpr (lit 40 "f")) ENil)).

Definition Opener_Close : Stmt :=
  ExprStmt (CallExpr (SelectorExpr (IdentExpr (free 5 46 "Opener"))
                                   (free 6 53 "Close")) ENil).

Definition v_blank : Stmt :=
  AssignStmt (ECons (IdentExpr (bound 7 62 "v" Var DeclAssignStmt))
                    (ECons (IdentExpr (free 8 65 "_")) ENil))
             DEFINE (ECons (load_call 9 70) ENil).

Definition blank_only : Stmt :=
  AssignStmt (ECons (IdentExpr (free 10 78 "_")) ENil) ASSIGN
             (ECons (load_call 11 82) ENil).

Definition ignored_errors : File :=
  package "main"
    [ func 2 16 "main"
        (SCons os_Create
        (SCons Opener_Close (SCons v_blank (SCons blank_only SNil)))) ].

(** A directory [.] with [a.go], [a_test.go], [notes.txt], a directory
    [sub] holding [sub/b.go], and [z.go]. *)
Definition tree : filepath.Entries :=
  filepath.Cons (filepath.File "a.go")
 (filepath.Cons (filepath.File "a_test.go")
 (filepath.Cons (filepath.File "notes.txt")
 (filepath.Cons (filepath.Dir "sub" None
                   (filepath.Cons (filepath.File "sub/b.go") filepath.Nil))
 (filepath.Cons (filepath.File "z.go") filepath.Nil)))).

Definition disk : filepath.FileSystem :=
  fun _ => filepath.RootDir None tree.

(** The same directory where [sub] cannot be listed. *)
Definition locked_disk : filepath.FileSystem :=
  fun _ =>
    filepath.RootDir None
      (filepath.Cons (filepath.File "a.go")
      (filepath.Cons (filepath.Dir "sub" (Some "permission denied")
                        filepath.Nil)
      (filepath.Cons (filepath.File "z.go") filepath.Nil))).

(** [a.go] is [two_unused], [z.go] is [fmt_used], [sub/b.go] is
    [ignored_errors]; nothing else parses. *)
Definition parse_disk : string -> string + (FileSet * File) :=
  fun filename =>
    if String.eqb filename "a.go" then inr (fset, two_unused)
    else if String.eqb filename "z.go" then inr (fset, fmt_used)
    else if String.eqb filename "sub/b.go" then inr (fset, ignored_errors)
    else inr (fset, foo_called).

Definition broken_parse : string -> string + (FileSet * File) :=
  fun _ => inl "expected 'package'".

(** An environment on [disk] where no file parses. *)
Definition nothing_parses : refactor.Env :=
  refactor.on_file_system disk broken_parse (fun _ _ => inr "formatted")
    (fun _ _ => None) "Usage of refactoring_tool:".

(** [type T struct { A int }] between a method of [T] above it and a
    method of [*T] below it. *)
Definition method (ptr : Addr) (pos : Pos) (name : string) (recv : Expr)
  : Decl :=
  FuncDecl None
    (SomeFieldList
       (mkFieldList 0
          (FCons (mkField None [bound (ptr + 1) (pos + 1) "t" Var DeclField]
                          (SomeExpr recv) None None) FNil) 0))
    (bound ptr pos name Fun (DeclFuncDecl ptr)) no_params (Some (block SNil)).

Definition T_struct : Decl :=
  GenDeclD (mkGenDecl None 40 TYPE
    (SpCons (TypeSpec None (bound 20 45 "T" Typ (DeclTypeSpec 20)) NoFieldList
               (StructType 47
                  (mkFieldList 54
                     (FCons (mkField None [bound 21 56 "A" Var DeclField]
                                     (int_type 22 58) None None) FNil) 62))
               None)
            SpNil)).

Definition methods_around : File :=
  package "m"
    [ method 10 20 "Early" (IdentExpr (free 12 25 "T"));
      T_struct;
      method 30 70 "Late" (StarExpr 75 (IdentExpr (free 32 76 "T"))) ].

(** [func Get() {}] and [func (t T) Get() {}]: two declarations called
    [Get]. *)
Definition two_gets : File :=
  package "p"
    [ func 2 16 "Get" SNil;
      method 10 35 "Get" (IdentExpr (free 12 33 "T")) ].

(** A method declaration whose receiver list is empty. *)
Definition no_receiver : File :=
  package "m"
    [ FuncDecl None (SomeFieldList (mkFieldList 0 FNil 0))
        (bound 2 16 "f" Fun (DeclFuncDecl 2)) no_params (Some (block SNil)) ].

End samples.

(** * Properties *)

(** ** The identifiers of a tree and their update *)

Module ast_facts.

Import token ast.

Lemma idents_of_app (l1 l2 : list Node) :
  idents_of (l1 ++ l2) = idents_of l1 ++ idents_of l2.
Proof. apply omap_app. Qed.

Lemma idents_of_doc (g : option CommentGroup) : idents_of (walk_doc g) = [].
Proof.
  destruct g as [g|]; [|reflexivity].
  unfold idents_of. simpl. induction g as [|c g IH]; [reflexivity|exact IH].
Qed.

Lemma idents_of_walk_idents (ids : list Ident) :
  idents_of (walk_idents ids) = ids.
Proof.
  induction ids as [|id ids IH]; [reflexivity|].
  change (walk_idents (id :: ids)) with (walk_ident id ++ walk_idents ids).
  by rewrite idents_of_app, IH.
Qed.

Lemma idents_of_opt_lit (l : option BasicLit) :
  idents_of (walk_opt_lit l) = [].
Proof. by destruct l. Qed.

Lemma idents_of_opt_ident (id : option Ident) :
  idents_of (walk_opt_ident id) = option_list id.
Proof. by destruct id. Qed.

Lemma idents_of_import (s : ImportSpec) :
  idents_of (walk_import s) = option_list (ImportName s).
Proof.
  unfold walk_import.
  rewrite !idents_of_app, !idents_of_doc, idents_of_opt_ident.
  simpl. by rewrite app_nil_r.
Qed.

Lemma idents_of_cons (n : Node) (l : list Node) :
  idents_of (n :: l) = option_list (node_ident n) ++ idents_of l.
Proof. unfold idents_of. simpl. by destruct (node_ident n). Qed.

Lemma option_list_map {A B} (f : A -> B) (o : option A) :
  option_list (option_map f o) = map f (option_list o).
Proof. by destruct o. Qed.

Create Rewrite HintDb idents.
#[local] Hint Rewrite idents_of_app idents_of_doc idents_of_walk_idents
  idents_of_opt_lit idents_of_opt_ident idents_of_import idents_of_cons
  @option_list_map @map_app @app_nil_r : idents.

Ltac idents_norm := simpl; autorewrite with idents; simpl.

(** The identifiers the visitor meets in an updated subtree are the
    updated identifiers of the subtree, in the same order. *)
Lemma idents_update_syntax (upd : Ident -> Ident) :
  (forall e, idents_of (walk_expr (update_expr upd e))
             = map upd (idents_of (walk_expr e))) /\
  (forall e, idents_of (walk_optexpr (update_optexpr upd e))
             = map upd (idents_of (walk_optexpr e))) /\
  (forall l, idents_of (walk_exprs (update_exprs upd l))
             = map upd (idents_of (walk_exprs l))) /\
  (forall f, idents_of (walk_field (update_field upd f))
             = map upd (idents_of (walk_field f))) /\
  (forall l, idents_of (walk_fields (update_fields upd l))
             = map upd (idents_of (walk_fields l))) /\
  (forall fl, idents_of (walk_fieldlist (update_fieldlist upd fl))
              = map upd (idents_of (walk_fieldlist fl))) /\
  (forall fl, idents_of (walk_optfieldlist (update_optfieldlist upd fl))
              = map upd (idents_of (walk_optfieldlist fl))) /\
  (forall ft,
      idents_of (walk_functype_children (update_functype upd ft))
      = map upd (idents_of (walk_functype_children ft)) /\
      idents_of (walk_functype (update_functype upd ft))
      = map upd (idents_of (walk_functype ft))) /\
  (forall s, idents_of (walk_stmt (update_stmt upd s))
             = map upd (idents_of (walk_stmt s))) /\
  (forall s, idents_of (walk_optstmt (update_optstmt upd s))
             = map upd (idents_of (walk_optstmt s))) /\
  (forall l, idents_of (walk_stmts (update_stmts upd l))
             = map upd (idents_of (walk_stmts l))) /\
  (forall b,
      idents_of (walk_block_children (update_block upd b))
      = map upd (idents_of (walk_block_children b)) /\
      idents_of (walk_block (update_block upd b))
      = map upd (idents_of (walk_block b))) /\
  (forall s, idents_of (walk_spec (update_spec upd s))
             = map upd (idents_of (walk_spec s))) /\
  (forall l, idents_of (walk_specs (update_specs upd l))
             = map upd (idents_of (walk_specs l))) /\
  (forall d, idents_of (walk_gendecl (update_gendecl upd d))
             = map upd (idents_of (walk_gendecl d))).
Proof.
  apply syntax_mutind; intros;
    repeat match goal with H : _ /\ _ |- _ => destruct H end;
    try split; idents_norm; try congruence; try apply option_list_map.
Qed.

Lemma map_fix_ident (f : Ident -> Ident) (l : list Ident) :
  (forall id, id ∈ l -> f id = id) -> map f l = l.
Proof.
  intros H. induction l as [|x l IH]; [reflexivity|]. simpl.
  rewrite H by left. rewrite IH; [reflexivity|].
  intros id Hid. apply H. by right.
Qed.

Lemma option_map_fix_ident (f : Ident -> Ident) (o : option Ident) :
  (forall id, id ∈ option_list o -> f id = id) -> option_map f o = o.
Proof.
  destruct o as [x|]; [|reflexivity]. intros H. simpl.
  rewrite H; [reflexivity|]. simpl. by left.
Qed.

Lemma idents_of_functype (ft : FuncType) :
  idents_of (walk_functype ft) = idents_of (walk_functype_children ft).
Proof. by destruct ft. Qed.

Lemma idents_of_block (b : BlockStmt) :
  idents_of (walk_block b) = idents_of (walk_block_children b).
Proof. by destruct b. Qed.

Lemma update_import_fix (f : Ident -> Ident) (s : ImportSpec) :
  (forall id, id ∈ option_list (ImportName s) -> f id = id) ->
  update_import f s = s.
Proof.
  intros H. destruct s as [doc name path comment]. unfold update_import.
  simpl in *. by rewrite option_map_fix_ident.
Qed.

Ltac fix_step H :=
  first
    [ apply map_fix_ident | apply option_map_fix_ident
    | apply update_import_fix
    | match goal with IH : _ -> ?l = ?r |- ?l = ?r => apply IH end
    | match goal with |- ?f ?x = ?x => apply H end ];
  try (intros ? ?; apply H); idents_norm;
  repeat (rewrite elem_of_app || rewrite elem_of_cons); tauto.

(** An update that fixes every identifier of a subtree fixes the
    subtree. *)
Lemma update_fix_syntax (f : Ident -> Ident) :
  (forall e, (forall id, id ∈ idents_of (walk_expr e) -> f id = id) ->
             update_expr f e = e) /\
  (forall e, (forall id, id ∈ idents_of (walk_optexpr e) -> f id = id) ->
             update_optexpr f e = e) /\
  (forall l, (forall id, id ∈ idents_of (walk_exprs l) -> f id = id) ->
             update_exprs f l = l) /\
  (forall x, (forall id, id ∈ idents_of (walk_field x) -> f id = id) ->
             update_field f x = x) /\
  (forall l, (forall id, id ∈ idents_of (walk_fields l) -> f id = id) ->
             update_fields f l = l) /\
  (forall fl, (forall id, id ∈ idents_of (walk_fieldlist fl) -> f id = id) ->
              update_fieldlist f fl = fl) /\
  (forall fl,
      (forall id, id ∈ idents_of (walk_optfieldlist fl) -> f id = id) ->
      update_optfieldlist f fl = fl) /\
  (forall ft, (forall id, id ∈ idents_of (walk_functype ft) -> f id = id) ->
              update_functype f ft = ft) /\
  (forall s, (forall id, id ∈ idents_of (walk_stmt s) -> f id = id) ->
             update_stmt f s = s) /\
  (forall s, (forall id, id ∈ idents_of (walk_optstmt s) -> f id = id) ->
             update_optstmt f s = s) /\
  (forall l, (forall id, id ∈ idents_of (walk_stmts l) -> f id = id) ->
             update_stmts f l = l) /\
  (forall b, (forall id, id ∈ idents_of (walk_block b) -> f id = id) ->
             update_block f b = b) /\
  (forall s, (forall id, id ∈ idents_of (walk_spec s) -> f id = id) ->
             update_spec f s = s) /\
  (forall l, (forall id, id ∈ idents_of (walk_specs l) -> f id = id) ->
             update_specs f l = l) /\
  (forall d, (forall id, id ∈ idents_of (walk_gendecl d) -> f id = id) ->
             update_gendecl f d = d).
Proof.
  apply syntax_mutind; intros;
    match goal with H : forall id, _ -> f id = id |- _ =>
      revert H; idents_norm;
      rewrite <- ?idents_of_functype, <- ?idents_of_block;
      intros H; f_equal; try reflexivity; try (fix_step H)
    end.
Qed.

Lemma option_map_compose {A} (f g : A -> A) (o : option A) :
  option_map g (option_map f o) = option_map (fun x => g (f x)) o.
Proof. by destruct o. Qed.

Lemma update_import_compose (f g : Ident -> Ident) (s : ImportSpec) :
  update_import g (update_import f s) = update_import (fun id => g (f id)) s.
Proof. unfold update_import. simpl. by rewrite option_map_compose. Qed.

(** Two updates in a row are the update by the composed function. *)
Lemma update_compose_syntax (f g : Ident -> Ident) :
  let h := fun id => g (f id) in
  (forall e, update_expr g (update_expr f e) = update_expr h e) /\
  (forall e, update_optexpr g (update_optexpr f e) = update_optexpr h e) /\
  (forall l, update_exprs g (update_exprs f l) = update_exprs h l) /\
  (forall x, update_field g (update_field f x) = update_field h x) /\
  (forall l, update_fields g (update_fields f l) = update_fields h l) /\
  (forall fl, update_fieldlist g (update_fieldlist f fl)
              = update_fieldlist h fl) /\
  (forall fl, update_optfieldlist g (update_optfieldlist f fl)
              = update_optfieldlist h fl) /\
  (forall ft, update_functype g (update_functype f ft)
              = update_functype h ft) /\
  (forall s, update_stmt g (update_stmt f s) = update_stmt h s) /\
  (forall s, update_optstmt g (update_optstmt f s) = update_optstmt h s) /\
  (forall l, update_stmts g (update_stmts f l) = update_stmts h l) /\
  (forall b, update_block g (update_block f b) = update_block h b) /\
  (forall s, update_spec g (update_spec f s) = update_spec h s) /\
  (forall l, update_specs g (update_specs f l) = update_specs h l) /\
  (forall d, update_gendecl g (update_gendecl f d) = update_gendecl h d).
Proof.
  intros h. subst h. apply syntax_mutind; intros; simpl;
    rewrite ?map_map, ?option_map_compose, ?update_import_compose;
    congruence.
Qed.

(** *** Declarations and files *)

Lemma idents_update_decl (upd : Ident -> Ident) (d : Decl) :
  idents_of (walk_decl (update_decl upd d))
  = map upd (idents_of (walk_decl d)).
Proof.
  pose proof (idents_update_syntax upd) as
    (_ & _ & _ & _ & _ & _ & Hofl & Hft & _ & _ & _ & Hb & _ & _ & Hg).
  destruct d as [|g|doc recv name ty body]; [reflexivity|apply Hg|].
  destruct (Hft ty) as [_ Hty].
  simpl. autorewrite with idents. simpl. rewrite Hofl.
  change (NExpr (FuncTypeExpr (update_functype upd ty))
          :: match update_functype upd ty with
             | mkFuncType _ typeparams params results =>
                 walk_optfieldlist typeparams ++ walk_optfieldlist params
                 ++ walk_optfieldlist results
             end)
    with (walk_functype (update_functype upd ty)).
  change (NExpr (FuncTypeExpr ty)
          :: match ty with
             | mkFuncType _ typeparams params results =>
                 walk_optfieldlist typeparams ++ walk_optfieldlist params
                 ++ walk_optfieldlist results
             end)
    with (walk_functype ty).
  rewrite Hty. destruct body as [b|]; simpl.
  - destruct (Hb b) as [_ Hb']. by rewrite Hb'.
  - reflexivity.
Qed.

Lemma idents_update_decls (upd : Ident -> Ident) (ds : list Decl) :
  idents_of (flat_map walk_decl (map (update_decl upd) ds))
  = map upd (idents_of (flat_map walk_decl ds)).
Proof.
  induction ds as [|d ds IH]; [reflexivity|]. simpl.
  by rewrite !idents_of_app, map_app, idents_update_decl, IH.
Qed.

(** The identifiers of an updated file are the updated identifiers of
    the file, position by position. *)
Lemma idents_update_file (upd : Ident -> Ident) (f : File) :
  idents (update_file upd f) = map upd (idents f).
Proof.
  unfold idents, walk_file, update_file. simpl.
  autorewrite with idents. simpl. by rewrite idents_update_decls.
Qed.

Lemma update_decl_fix (f : Ident -> Ident) (d : Decl) :
  (forall id, id ∈ idents_of (walk_decl d) -> f id = id) ->
  update_decl f d = d.
Proof.
  pose proof (update_fix_syntax f) as
    (_ & _ & _ & _ & _ & _ & Hofl & Hft & _ & _ & _ & Hb & _ & _ & Hg).
  destruct d as [|g|doc recv name ty body]; [reflexivity| |].
  - intros H. simpl. f_equal. by apply Hg.
  - simpl.
    change (NExpr (FuncTypeExpr ty)
            :: match ty with
               | mkFuncType _ typeparams params results =>
                   walk_optfieldlist typeparams ++ walk_optfieldlist params
                   ++ walk_optfieldlist results
               end)
      with (walk_functype ty).
    autorewrite with idents. simpl. intros H. f_equal.
    + apply Hofl. intros id Hid. apply H.
      repeat (rewrite elem_of_app || rewrite elem_of_cons). tauto.
    + apply H. repeat (rewrite elem_of_app || rewrite elem_of_cons). tauto.
    + apply Hft. intros id Hid. apply H.
      repeat (rewrite elem_of_app || rewrite elem_of_cons). tauto.
    + destruct body as [b|]; [|reflexivity]. simpl. f_equal.
      apply Hb. intros id Hid. apply H.
      repeat (rewrite elem_of_app || rewrite elem_of_cons). tauto.
Qed.

Lemma update_decls_fix (f : Ident -> Ident) (ds : list Decl) :
  (forall id, id ∈ idents_of (flat_map walk_decl ds) -> f id = id) ->
  map (update_decl f) ds = ds.
Proof.
  induction ds as [|d ds IH]; [reflexivity|]. simpl.
  rewrite idents_of_app. intros H. f_equal.
  - apply update_decl_fix. intros id Hid. apply H. apply elem_of_app. tauto.
  - apply IH. intros id Hid. apply H. apply elem_of_app. tauto.
Qed.

(** An update that fixes every identifier of a file fixes the file. *)
Lemma update_file_fix (f : Ident -> Ident) (file : File) :
  (forall id, id ∈ idents file -> f id = id) -> update_file f file = file.
Proof.
  destruct file as [doc name decls]. unfold idents, walk_file, update_file.
  simpl. autorewrite with idents. simpl. intros H. f_equal.
  - apply H. left.
  - apply update_decls_fix. intros id Hid. apply H. by right.
Qed.

Lemma update_decl_compose (f g : Ident -> Ident) (d : Decl) :
  update_decl g (update_decl f d) = update_decl (fun id => g (f id)) d.
Proof.
  pose proof (update_compose_syntax f g) as
    (_ & _ & _ & _ & _ & _ & Hofl & Hft & _ & _ & _ & Hb & _ & _ & Hg).
  destruct d as [|d|doc recv name ty body]; simpl; [reflexivity| |].
  - by rewrite Hg.
  - rewrite Hofl, Hft. f_equal. destruct body as [b|]; [|reflexivity].
    simpl. by rewrite Hb.
Qed.

Lemma update_file_compose (f g : Ident -> Ident) (file : File) :
  update_file g (update_file f file)
  = update_file (fun id => g (f id)) file.
Proof.
  unfold update_file. simpl. f_equal. rewrite map_map.
  apply map_ext. intros d. apply update_decl_compose.
Qed.

End ast_facts.

(** ** The linter *)

Module linter_facts.

Import token ast linter.

Lemma delete_if_present_self (name : string) (m : gmap string Position) :
  delete_if_present name m !! name = None.
Proof.
  unfold delete_if_present. destruct (m !! name) eqn:E; [|exact E].
  apply lookup_delete_eq.
Qed.

Lemma delete_if_present_None (name k : string) (m : gmap string Position) :
  m !! k = None -> delete_if_present name m !! k = None.
Proof.
  intros H. unfold delete_if_present. destruct (m !! name); [|exact H].
  rewrite lookup_delete. by case_decide.
Qed.

(** The closure only ever deletes. *)
Lemma mark_used_None (n : Node) (k : string) (m : gmap string Position) :
  m !! k = None -> mark_used n m !! k = None.
Proof.
  intros H. unfold mark_used.
  repeat match goal with
         | |- context [match ?x with _ => _ end] => destruct x
         end;
    repeat apply delete_if_present_None; exact H.
Qed.

(** A node that uses a name takes it out of the map. *)
Lemma mark_used_uses (n : Node) (name : string) (m : gmap string Position) :
  uses name n = true -> mark_used n m !! name = None.
Proof.
  unfold uses, mark_used. intros H.
  destruct n as [| | | |e| | | |]; try discriminate.
  destruct e; try discriminate.
  - apply bool_decide_eq_true in H. subst name. apply delete_if_present_self.
  - destruct e; try discriminate.
    apply bool_decide_eq_true in H. subst name. apply delete_if_present_self.
Qed.

Lemma inspect_None (nodes : list Node) (k : string)
    (m : gmap string Position) :
  m !! k = None ->
  fold_left (fun acc n => mark_used n acc) nodes m !! k = None.
Proof.
  revert m. induction nodes as [|n nodes IH]; intros m H; [exact H|].
  simpl. apply IH. by apply mark_used_None.
Qed.

Lemma inspect_uses (nodes : list Node) (name : string)
    (m : gmap string Position) :
  existsb (uses name) nodes = true ->
  fold_left (fun acc n => mark_used n acc) nodes m !! name = None.
Proof.
  revert m. induction nodes as [|n nodes IH]; intros m H; [discriminate|].
  simpl in *. apply orb_true_iff in H as [H|H].
  - apply inspect_None. by apply mark_used_uses.
  - by apply IH.
Qed.

(** A name that occurs in the file is not left in the map. *)
Lemma occurs_not_unused (fset : FileSet) (file : File) (name : string) :
  occurs file name = true -> unused_imports fset file !! name = None.
Proof. intros H. unfold unused_imports, Inspect. by apply inspect_uses. Qed.

Lemma unused_message_inj (a b : string) :
  unused_message a = unused_message b -> a = b.
Proof. unfold unused_message. cbn. intros H. by simplify_eq. Qed.

(** The issues of the rule report exactly the names left in the map. *)
Lemma reported_is_unused (order : RangeOrder) (fset : FileSet) (file : File)
    (name : string) :
  range_order_ok order ->
  unused_message name
  ∈ map Message (UnusedImportRule_Check order fset file) ->
  is_Some (unused_imports fset file !! name).
Proof.
  intros Hok Hin. unfold UnusedImportRule_Check in Hin.
  rewrite map_map in Hin. apply list_elem_of_In, in_map_iff in Hin.
  destruct Hin as ([k pos] & Hmsg & Hentry). simpl in Hmsg.
  apply unused_message_inj in Hmsg. subst k.
  apply list_elem_of_In in Hentry. rewrite (Hok _) in Hentry.
  apply elem_of_map_to_list in Hentry. by exists pos.
Qed.

(** The names the rule tracks come from the imports of the file. *)
Lemma collect_imports_from (fset : FileSet) (imps : list ImportSpec)
    (acc : gmap string Position) (name : string) :
  is_Some (fold_left
             (fun imports imp =>
                match import_name imp with
                | None => imports
                | Some name => <[name := fset (ImportSpec_Pos imp)]> imports
                end) imps acc !! name) ->
  is_Some (acc !! name)
  \/ exists imp, imp ∈ imps /\ import_name imp = Some name.
Proof.
  revert acc. induction imps as [|imp imps IH]; intros acc H; [by left|].
  simpl in H. apply IH in H as [H|(imp' & Hin & Hname)].
  - destruct (import_name imp) as [k|] eqn:E; [|by left].
    destruct (decide (k = name)) as [->|Hne].
    + right. exists imp. split; [left|exact E].
    + rewrite lookup_insert_ne in H by exact Hne. by left.
  - right. exists imp'. split; [by right|exact Hname].
Qed.

(** When every tracked name occurs in the file, the map ends up empty. *)
Lemma no_unused_imports_empty (fset : FileSet) (file : File) :
  no_unused_imports file = true -> unused_imports fset file = ∅.
Proof.
  intros Hall. apply map_empty. intros name.
  destruct (unused_imports fset file !! name) as [pos|] eqn:E; [|reflexivity].
  exfalso.
  destruct (collect_imports fset (Imports file) !! name) as [p|] eqn:Ec.
  - assert (is_Some (collect_imports fset (Imports file) !! name)) as Hs
      by (by exists p).
    apply collect_imports_from in Hs as [[? Hs]|(imp & Hin & Hname)].
    + by rewrite lookup_empty in Hs.
    + unfold no_unused_imports in Hall.
      rewrite forallb_forall in Hall.
      specialize (Hall imp (proj1 (list_elem_of_In _ _) Hin)).
      rewrite Hname in Hall.
      apply (occurs_not_unused fset) in Hall. congruence.
  - unfold unused_imports, Inspect in E.
    rewrite inspect_None in E by exact Ec. discriminate.
Qed.

Lemma order_empty (order : RangeOrder) :
  range_order_ok order -> order ∅ = [].
Proof.
  intros Hok. specialize (Hok ∅). rewrite map_to_list_empty in Hok.
  by apply Permutation_nil_r.
Qed.

Lemma order_fwd_ok : range_order_ok order_fwd.
Proof. intros m. reflexivity. Qed.

Lemma order_rev_ok : range_order_ok order_rev.
Proof. intros m. unfold order_rev. symmetry. apply Permutation_rev. Qed.

(** The alias of a named import is one of the nodes the visitor meets. *)
Lemma alias_in_specs (specs : SpecList) (imp : ImportSpec) (alias : Ident) :
  imp ∈ flat_map spec_imports (specs_list specs) ->
  ImportName imp = Some alias ->
  NExpr (IdentExpr alias) ∈ walk_specs specs.
Proof.
  intros Hin Hname. induction specs as [|s ss IH]; simpl in *.
  - by apply elem_of_nil in Hin.
  - apply elem_of_app in Hin as [Hin|Hin].
    + apply elem_of_app. left. destruct s as [imp'| |]; simpl in Hin;
        try (by apply elem_of_nil in Hin).
      apply list_elem_of_singleton in Hin. subst imp'.
      right. unfold walk_import. rewrite Hname.
      apply elem_of_app. right. apply elem_of_app. left. simpl. left.
    + apply elem_of_app. right. by apply IH.
Qed.

Lemma alias_occurs (file : File) (imp : ImportSpec) (alias : Ident) :
  imp ∈ Imports file -> ImportName imp = Some alias ->
  occurs file (ast.Name alias) = true.
Proof.
  intros Hin Hname. unfold occurs. apply existsb_exists.
  exists (NExpr (IdentExpr alias)). split.
  - apply list_elem_of_In. unfold walk_file. right.
    apply elem_of_app. right. apply elem_of_app. right.
    unfold Imports in Hin. apply list_elem_of_In, in_flat_map in Hin.
    destruct Hin as (d & Hd & Hin).
    apply list_elem_of_In, in_flat_map. exists d. split; [exact Hd|].
    apply list_elem_of_In.
    destruct d as [|[doc tokpos tok specs]|]; simpl in Hin;
      try (by destruct Hin).
    simpl. right. apply elem_of_app. right.
    apply alias_in_specs with imp; [|exact Hname]. by apply list_elem_of_In.
  - simpl. by apply bool_decide_eq_true.
Qed.

(** What two runs do agree on: with the registered rules they report the
    same issues, the unused imports possibly in another order. *)
Lemma lint_twice_same_issues (parse : Parser) (order1 order2 : RangeOrder)
    (filename : string) :
  range_order_ok order1 -> range_order_ok order2 ->
  match lintFile parse order1 filename rules,
        lintFile parse order2 filename rules with
  | inr issues1, inr issues2 => issues1 ≡ₚ issues2
  | inl e1, inl e2 => e1 = e2
  | _, _ => False
  end.
Proof.
  intros H1 H2. unfold lintFile.
  destruct (parse filename) as [e|[fset file]]; [reflexivity|].
  cbn [rules fold_left Check UnusedImportRule ErrorReturnRule app].
  apply Permutation_app_tail. unfold UnusedImportRule_Check.
  apply Permutation_map. by rewrite (H1 _), (H2 _).
Qed.

(** C3, at the input that breaks it.  Two runs of [lintFile] with all
    registered rules on the same file, which imports "fmt" and "os" and uses
    neither, can return different issue lists: the rule reports the unused
    imports in the iteration order of a Go map, and both the order of the
    map's entries and its reverse are orders a [range] loop may take. *)
Theorem lint_twice_can_differ :
  range_order_ok order_fwd /\ range_order_ok order_rev /\
  lintFile (samples.parse samples.two_unused) order_fwd "two.go" rules
  <> lintFile (samples.parse samples.two_unused) order_rev "two.go" rules.
Proof.
  split; [apply order_fwd_ok|]. split; [apply order_rev_ok|].
  vm_compute. intros H. discriminate H.
Qed.

Lemma used_name_not_reported (order : RangeOrder) (fset : FileSet)
    (file : File) (name : string) :
  range_order_ok order -> occurs file name = true ->
  unused_message name ∉ map Message (UnusedImportRule_Check order fset file).
Proof.
  intros Hok Hocc Hin.
  apply (reported_is_unused order fset file name Hok) in Hin as [pos Hpos].
  rewrite (occurs_not_unused fset file name Hocc) in Hpos. discriminate.
Qed.

(** C4, as amended.  Whatever order the report loop takes: for every
    import of the file, when the name the rule tracks it under (its alias,
    or else the last segment of its path) occurs in the file as an
    identifier or as the base of a qualified access, no issue of the rule
    is about that import; a file without imports, and a file in which the
    tracked name of every import occurs, get no issue at all. *)
Theorem used_import_never_flagged (order : RangeOrder) (fset : FileSet)
    (file : File) :
  range_order_ok order ->
  (forall imp name,
     imp ∈ Imports file -> import_name imp = Some name ->
     occurs file name = true ->
     forall issue,
       issue ∈ UnusedImportRule_Check order fset file -> ~ reports issue imp)
  /\ (Imports file = [] -> UnusedImportRule_Check order fset file = [])
  /\ (no_unused_imports file = true ->
      UnusedImportRule_Check order fset file = []).
Proof.
  intros Hok. split; [|split].
  - intros imp name _ Hname Hocc issue Hissue (name' & Hname' & Hmsg).
    rewrite Hname in Hname'. injection Hname' as <-.
    apply (used_name_not_reported order fset file name Hok Hocc).
    rewrite <- Hmsg. apply list_elem_of_In, in_map.
    by apply list_elem_of_In.
  - intros Hnone. unfold UnusedImportRule_Check.
    rewrite (no_unused_imports_empty fset file).
    + by rewrite (order_empty order Hok).
    + unfold no_unused_imports. by rewrite Hnone.
  - intros Hall. unfold UnusedImportRule_Check.
    rewrite (no_unused_imports_empty fset file Hall).
    by rewrite (order_empty order Hok).
Qed.

Lemma used_import_never_flagged_witness :
  (forall issue,
     issue ∈ UnusedImportRule_Check order_fwd samples.fset
               samples.fmt_used_os_unused ->
     ~ reports issue samples.fmt_import)
  /\ UnusedImportRule_Check order_fwd samples.fset samples.no_imports = []
  /\ UnusedImportRule_Check order_fwd samples.fset samples.fmt_used = [].
Proof.
  split; [|split].
  - apply (proj1 (used_import_never_flagged order_fwd samples.fset
                    samples.fmt_used_os_unused order_fwd_ok)
             samples.fmt_import "fmt").
    + vm_compute. left.
    + reflexivity.
    + reflexivity.
  - apply (used_import_never_flagged order_fwd samples.fset samples.no_imports
             order_fwd_ok).
    reflexivity.
  - apply (used_import_never_flagged order_fwd samples.fset samples.fmt_used
             order_fwd_ok).
    reflexivity.
Defined.

(** C4 as stated fails on [import "math/rand/v2"] with [rand.Int()] in
    the file.  The local name of the import is [rand], the name of the
    package at that path, and it occurs as the base of a qualified access;
    the rule tracks the import under [v2], the last segment of the path,
    which occurs nowhere, and reports the import in every run. *)
Lemma versioned_import_used_yet_flagged :
  samples.rand_v2 ∈ Imports samples.rand_v2_used
  /\ local_name samples.package_of samples.rand_v2 = Some "rand"
  /\ occurs samples.rand_v2_used "rand" = true
  /\ forall order, range_order_ok order ->
       exists issue,
         UnusedImportRule_Check order samples.fset samples.rand_v2_used
         = [issue]
         /\ reports issue samples.rand_v2
         /\ Pos issue = samples.fset (ImportSpec_Pos samples.rand_v2)
         /\ Message issue = "Unused import: v2".
Proof.
  split; [vm_compute; left|]. split; [reflexivity|]. split; [reflexivity|].
  intros order Hok. unfold UnusedImportRule_Check.
  assert (map_to_list (unused_imports samples.fset samples.rand_v2_used)
          = [("v2", samples.fset (ImportSpec_Pos samples.rand_v2))]) as Hmap
    by (vm_compute; reflexivity).
  pose proof (Hok (unused_imports samples.fset samples.rand_v2_used)) as Hperm.
  rewrite Hmap in Hperm. apply Permutation_singleton_r in Hperm.
  rewrite Hperm. eexists. split; [reflexivity|].
  split; [|split; reflexivity].
  exists "v2". split; reflexivity.
Qed.

(** C10.  A named import, [import alias "path"], is never reported by the
    unused-import rule, whether or not anything refers to the alias: the
    visitor meets the alias identifier inside the import declaration and the
    closure deletes its name from the map. *)
Theorem aliased_import_never_reported (order : RangeOrder) (fset : FileSet)
    (file : File) (imp : ImportSpec) (alias : Ident) :
  range_order_ok order ->
  imp ∈ Imports file ->
  ImportName imp = Some alias ->
  unused_message (ast.Name alias)
  ∉ map Message (UnusedImportRule_Check order fset file).
Proof.
  intros Hok Hin Hname Hmsg.
  apply (reported_is_unused order fset file _ Hok) in Hmsg as [pos Hpos].
  pose proof (alias_occurs file imp alias Hin Hname) as Hocc.
  rewrite (occurs_not_unused fset file _ Hocc) in Hpos.
  discriminate.
Qed.

Lemma aliased_import_never_reported_witness :
  unused_message "bar"
  ∉ map Message
        (UnusedImportRule_Check order_fwd samples.fset samples.aliased_only).
Proof.
  apply (aliased_import_never_reported order_fwd samples.fset
           samples.aliased_only
           {| ImportDoc := None;
              ImportName := Some (samples.free 2 22 "bar");
              ImportPath := samples.lit 26 "example.com/pkg/foo";
              ImportComment := None |}
           (samples.free 2 22 "bar") order_fwd_ok).
  - vm_compute. left.
  - reflexivity.
Defined.

End linter_facts.

(** ** The refactorings *)

Module refactor_facts.

Import token ast refactor ast_facts.

(** An identifier the parser bound to a type declaration fails the
    variable test. *)
Lemma denotes_type_not_var (id : Ident) :
  denotes_type id = true -> isVarIdent id = false.
Proof.
  unfold denotes_type, isVarIdent.
  destruct (Obj id) as [[kind name decl]|]; simpl; [|discriminate].
  destruct kind; try discriminate. destruct decl; try discriminate.
  reflexivity.
Qed.

Lemma rename_miss (role : Ident -> bool) (old new : string) (id : Ident) :
  role id = false -> rename role old new id = id.
Proof.
  intros H. unfold rename, hit. rewrite H. by rewrite andb_false_r.
Qed.

Lemma idents_rename (role : Ident -> bool) (old new : string)
    (fset : FileSet) (file : File) (heap : Addr) :
  idents (tree (rename_Apply role old new fset file heap))
  = map (rename role old new) (idents file).
Proof. apply idents_update_file. Qed.

(** C5, as amended.  Rename-variable, whatever its old and new names (so
    also when the old name is the name of a type declared in the file),
    leaves in place every identifier that the parser bound to a type
    declaration: the name in the declaration and each use of the type that
    the parser resolved to it are, position by position, the identifiers
    they were. *)
Theorem rename_variable_keeps_types (r : RenameVariable.t) (fset : FileSet)
    (file : File) (heap : Addr) (k : nat) (id : Ident) :
  idents file !! k = Some id ->
  denotes_type id = true ->
  idents (tree (RenameVariable.Apply r fset file heap)) !! k = Some id.
Proof.
  intros Hk Hty. unfold RenameVariable.Apply.
  rewrite idents_rename, list_lookup_fmap, Hk. simpl.
  by rewrite rename_miss by (by apply denotes_type_not_var).
Qed.

Lemma rename_variable_keeps_types_witness :
  idents (tree (RenameVariable.Apply
                  {| RenameVariable.OldName := "X";
                     RenameVariable.NewName := "Y" |}
                  samples.fset samples.type_and_var 0)) !! 3
  = Some (samples.X_type 4 34).
Proof.
  apply (rename_variable_keeps_types
           {| RenameVariable.OldName := "X"; RenameVariable.NewName := "Y" |}
           samples.fset samples.type_and_var 0 3 (samples.X_type 4 34)).
  - reflexivity.
  - reflexivity.
Defined.

(** The same run does rename the variable [X] of the function body. *)
Example rename_variable_renames_variable :
  map Name
      (idents (tree (RenameVariable.Apply
                       {| RenameVariable.OldName := "X";
                          RenameVariable.NewName := "Y" |}
                       samples.fset samples.type_and_var 0)))
  = ["p"; "X"; "v"; "X"; "g"; "Y"; "_"; "Y"].
Proof. reflexivity. Qed.

(** C5 as stated fails on [type X struct{}] with
    [switch X := v.(type) { case X: _ = X }] in a function.  The case
    lists the type [X], a use of the declared type; the parser, which
    resolves names by scope alone, binds that identifier to the variable of
    the guard, so rename-variable from [X] to [Y] rewrites it: the case
    then lists [Y], a type the file does not declare, while the
    declaration still reads [X]. *)
Lemma rename_variable_renames_type_use :
  declared_types samples.type_switch = ["X"]
  /\ map Name (case_types samples.type_switch) = ["X"]
  /\ declared_types
       (tree (RenameVariable.Apply
                {| RenameVariable.OldName := "X";
                   RenameVariable.NewName := "Y" |}
                samples.fset samples.type_switch 0)) = ["X"]
  /\ map Name
         (case_types
            (tree (RenameVariable.Apply
                     {| RenameVariable.OldName := "X";
                        RenameVariable.NewName := "Y" |}
                     samples.fset samples.type_switch 0))) = ["Y"].
Proof. repeat split; reflexivity. Qed.

(** *** Renaming a function there and back *)

Lemma isFunctionIdent_set_name (new : string) (id : Ident) :
  isFunctionIdent (set_name new id) = isFunctionIdent id.
Proof. reflexivity. Qed.

Lemma set_name_same (id : Ident) : set_name (Name id) id = id.
Proof. by destruct id. Qed.

Lemma set_name_twice (a b : string) (id : Ident) :
  set_name a (set_name b id) = set_name a id.
Proof. reflexivity. Qed.

Lemma there_and_back_update (a b : string) (fset : FileSet) (file : File)
    (heap : Addr) :
  there_and_back a b fset file heap = update_file (back_and_forth a b) file.
Proof.
  unfold there_and_back, RenameFunction.Apply, rename_Apply. simpl.
  by rewrite update_file_compose.
Qed.

(** What the two renames do to one identifier. *)
Lemma back_and_forth_spec (a b : string) (id : Ident) :
  back_and_forth a b id
  = if isFunctionIdent id
       && (bool_decide (Name id = a) || bool_decide (Name id = b))
    then set_name a id else id.
Proof.
  unfold back_and_forth, rename, hit.
  destruct (isFunctionIdent id) eqn:Hf;
    repeat (rewrite ?andb_false_r, ?andb_true_r; simpl);
    [|by rewrite Hf, !andb_false_r].
  destruct (bool_decide (Name id = a)) eqn:Ha; simpl.
  - rewrite isFunctionIdent_set_name, Hf, bool_decide_eq_true_2 by done.
    reflexivity.
  - rewrite Hf, andb_true_r. by destruct (bool_decide (Name id = b)).
Qed.

Lemma back_and_forth_idem (a b : string) (id : Ident) :
  back_and_forth a b (back_and_forth a b id) = back_and_forth a b id.
Proof.
  rewrite (back_and_forth_spec a b id).
  destruct (isFunctionIdent id
            && (bool_decide (Name id = a) || bool_decide (Name id = b)))
    eqn:E.
  - rewrite back_and_forth_spec, isFunctionIdent_set_name. simpl.
    apply andb_true_iff in E as [-> _].
    by rewrite bool_decide_eq_true_2 by done.
  - by rewrite back_and_forth_spec, E.
Qed.

Lemma back_and_forth_fresh (a b : string) (id : Ident) :
  negb (isFunctionIdent id && bool_decide (Name id = b)) = true ->
  back_and_forth a b id = id.
Proof.
  intros H. rewrite back_and_forth_spec.
  destruct (isFunctionIdent id); simpl in *; [|reflexivity].
  apply negb_true_iff in H. rewrite H, orb_false_r.
  destruct (bool_decide (Name id = a)) eqn:Ha; [|reflexivity].
  apply bool_decide_eq_true in Ha. subst a. apply set_name_same.
Qed.

(** C6 as the code has it.  Rename-function from [a] to [b] and back
    from [b] to [a] is idempotent on every tree, and it gives back the tree
    it started from when no identifier in the function role was already
    called [b]. *)
Theorem rename_function_there_and_back (a b : string) (fset : FileSet)
    (file : File) (heap : Addr) :
  there_and_back a b fset (there_and_back a b fset file heap) heap
  = there_and_back a b fset file heap
  /\ (no_function_named b file = true ->
      there_and_back a b fset file heap = file).
Proof.
  rewrite !there_and_back_update. split.
  - apply update_file_fix. intros id Hid.
    rewrite idents_update_file in Hid.
    apply list_elem_of_In, in_map_iff in Hid as (id0 & <- & _).
    apply back_and_forth_idem.
  - intros Hfresh. apply update_file_fix. intros id Hid.
    apply back_and_forth_fresh. unfold no_function_named in Hfresh.
    rewrite forallb_forall in Hfresh. apply Hfresh. by apply list_elem_of_In.
Qed.

Lemma rename_function_there_and_back_witness :
  there_and_back "a" "b" samples.fset
    (there_and_back "a" "b" samples.fset samples.a_called 0) 0
  = there_and_back "a" "b" samples.fset samples.a_called 0
  /\ there_and_back "a" "b" samples.fset samples.a_called 0
     = samples.a_called.
Proof.
  destruct (rename_function_there_and_back "a" "b" samples.fset
              samples.a_called 0) as [Hidem Hback].
  split; [exact Hidem|]. apply Hback. reflexivity.
Defined.

Example there_and_back_a_and_b :
  map Name (idents samples.a_and_b) = ["p"; "a"; "b"]
  /\ map Name (idents (there_and_back "a" "b" samples.fset samples.a_and_b 0))
     = ["p"; "a"; "a"].
Proof. split; reflexivity. Qed.

(** C6 as stated fails on a file that declares both [a] and [b]: after
    the two renames both functions are called [a]. *)
Lemma rename_there_and_back_collides :
  there_and_back "a" "b" samples.fset samples.a_and_b 0 <> samples.a_and_b.
Proof. vm_compute. intros H. discriminate H. Qed.

(** *** Adding a parameter *)

Lemma calls_of_app (l1 l2 : list Node) :
  calls_of (l1 ++ l2) = calls_of l1 ++ calls_of l2.
Proof. apply omap_app. Qed.

Lemma calls_of_cons (n : Node) (l : list Node) :
  calls_of (n :: l) = option_list (node_call n) ++ calls_of l.
Proof. unfold calls_of. simpl. by destruct (node_call n). Qed.

Lemma walk_fields_snoc (l : Fields) (f : Field) :
  walk_fields (fields_snoc l f) = walk_fields l ++ walk_field f.
Proof.
  induction l as [|g gs IH]; cbn [fields_snoc walk_fields].
  - by rewrite app_nil_r.
  - by rewrite IH, app_assoc.
Qed.

Lemma fields_list_snoc (l : Fields) (f : Field) :
  fields_list (fields_snoc l f) = fields_list l ++ [f].
Proof. induction l as [|g gs IH]; simpl; [reflexivity|by rewrite IH]. Qed.

Lemma calls_of_newParam (r : AddParameter.t) (heap : Addr) :
  calls_of (walk_field (AddParameter.newParam r heap)) = [].
Proof. reflexivity. Qed.

(** The new parameter adds no call expression to the signature. *)
Lemma calls_of_append_param (ty : FuncType) (r : AddParameter.t)
    (heap : Addr) :
  calls_of
    (walk_functype
       (AddParameter.append_param ty (AddParameter.newParam r heap)))
  = calls_of (walk_functype ty).
Proof.
  destruct ty as [func typeparams params results].
  destruct params as [|[opening fields closing]];
    cbn [AddParameter.append_param walk_functype walk_optfieldlist
         walk_fieldlist walk_fields fields_snoc];
    rewrite ?calls_of_cons, ?calls_of_app, ?calls_of_cons, ?walk_fields_snoc,
      ?calls_of_app, ?calls_of_newParam;
    simpl; by rewrite ?app_nil_r.
Qed.

Lemma calls_of_visit_decl (r : AddParameter.t) (d : Decl) (heap : Addr) :
  calls_of (walk_decl (AddParameter.visit_decl r d heap).1)
  = calls_of (walk_decl d).
Proof.
  destruct d as [|g|doc recv name ty body]; [reflexivity..|].
  unfold AddParameter.visit_decl. case_bool_decide; [|reflexivity].
  cbn [fst walk_decl]. rewrite !calls_of_cons, !calls_of_app.
  by rewrite calls_of_append_param.
Qed.

Lemma param_added_visit_decl (r : AddParameter.t) (d : Decl) (heap : Addr) :
  param_added r d (AddParameter.visit_decl r d heap).1.
Proof.
  destruct d as [|g|doc recv name ty body]; [reflexivity..|].
  unfold param_added, AddParameter.visit_decl.
  destruct ty as [func typeparams params results].
  case_bool_decide; [|reflexivity]. cbn [fst].
  destruct params as [|[opening fields closing]]; simpl.
  - exists NoPos, NoPos, (AddParameter.newParam r heap),
      (FCons (AddParameter.newParam r heap) FNil).
    split; [reflexivity|]. split; [reflexivity|].
    by exists heap, (S heap).
  - exists opening, closing, (AddParameter.newParam r heap),
      (fields_snoc fields (AddParameter.newParam r heap)).
    split; [reflexivity|]. split; [apply fields_list_snoc|].
    by exists heap, (S heap).
Qed.

Lemma visit_decls_frame (r : AddParameter.t) (ds : list Decl) (heap : Addr) :
  calls_of (flat_map walk_decl (AddParameter.visit_decls r ds heap).1)
  = calls_of (flat_map walk_decl ds)
  /\ Forall2 (param_added r) ds (AddParameter.visit_decls r ds heap).1.
Proof.
  revert heap. induction ds as [|d ds IH]; intros heap.
  - split; [reflexivity|constructor].
  - cbn [AddParameter.visit_decls].
    pose proof (calls_of_visit_decl r d heap) as Hc.
    pose proof (param_added_visit_decl r d heap) as Hp.
    destruct (AddParameter.visit_decl r d heap) as [d' heap'].
    destruct (IH heap') as [IHc IHp].
    destruct (AddParameter.visit_decls r ds heap') as [ds' heap''].
    cbn [fst flat_map] in *. split.
    + by rewrite !calls_of_app, Hc, IHc.
    + by constructor.
Qed.

(** C7.  After add-parameter the call expressions of the file, callee
    and arguments, are exactly those it had, in the same order; each
    function declaration called [FunctionName] has the new parameter at the
    end of its parameter list and is otherwise as it was; every other
    declaration, the package clause and the file comment are as they
    were. *)
Theorem add_parameter_frame (r : AddParameter.t) (fset : FileSet)
    (file : File) (heap : Addr) :
  let file' := tree (AddParameter.Apply r fset file heap) in
  calls file' = calls file
  /\ Forall2 (param_added r) (Decls file) (Decls file')
  /\ FileDoc file' = FileDoc file
  /\ FileName file' = FileName file.
Proof.
  unfold AddParameter.Apply.
  destruct (visit_decls_frame r (Decls file) heap) as [Hc Hp].
  destruct (AddParameter.visit_decls r (Decls file) heap) as [decls heap'].
  cbn [fst tree Decls FileDoc FileName] in *. split; [|by repeat split].
  unfold calls, walk_file. cbn [Decls FileDoc FileName].
  by rewrite !calls_of_cons, !calls_of_app, Hc.
Qed.

(** On [func foo() {}; func main() { foo() }] the call [foo()] stays as it
    is while [foo] gets the parameter [y string]. *)
Example add_parameter_sample :
  let file' :=
    tree (AddParameter.Apply
            {| AddParameter.FunctionName := "foo";
               AddParameter.ParamName := "y";
               AddParameter.ParamType := "string" |}
            samples.fset samples.foo_called 100) in
  calls file' = calls samples.foo_called
  /\ length (calls file') = 1
  /\ map (fun d => match d with
                   | FuncDecl _ _ _ (mkFuncType _ _ params _) _ =>
                       map (fun f => map Name (field_names f))
                           (optfields params)
                   | _ => []
                   end) (Decls file')
     = [[["y"]]; []].
Proof. repeat split. Qed.

(** *** Validation of the flags *)

Lemma not_two_parts {A B : Type} (l : list A) (f : A -> A -> B) (b : B) :
  Nat.eqb (length l) 2 = false ->
  match l with
  | [x; y] => f x y
  | _ => b
  end = b.
Proof. by destruct l as [|x [|y [|z l]]]. Qed.

Lemma for_renameFn_rejects (flags : Flags) (rs : list Refactoring) :
  wrong_arity (renameFn flags) = true ->
  for_renameFn flags rs
  = inl "Invalid format for -rename-fn, expected 'old:new'".
Proof.
  unfold wrong_arity, for_renameFn. intros H.
  apply andb_true_iff in H as [Hne Hlen].
  apply negb_true_iff in Hne, Hlen.
  apply bool_decide_eq_false in Hne.
  rewrite bool_decide_eq_true_2 by exact Hne.
  by apply not_two_parts.
Qed.

Lemma for_renameType_rejects (flags : Flags) (rs : list Refactoring) :
  wrong_arity (renameType flags) = true ->
  for_renameType flags rs
  = inl "Invalid format for -rename-type, expected 'old:new'".
Proof.
  unfold wrong_arity, for_renameType. intros H.
  apply andb_true_iff in H as [Hne Hlen].
  apply negb_true_iff in Hne, Hlen.
  apply bool_decide_eq_false in Hne.
  rewrite bool_decide_eq_true_2 by exact Hne.
  by apply not_two_parts.
Qed.

Lemma for_renameVar_rejects (flags : Flags) (rs : list Refactoring) :
  wrong_arity (renameVar flags) = true ->
  for_renameVar flags rs
  = inl "Invalid format for -rename-var, expected 'old:new'".
Proof.
  unfold wrong_arity, for_renameVar. intros H.
  apply andb_true_iff in H as [Hne Hlen].
  apply negb_true_iff in Hne, Hlen.
  apply bool_decide_eq_false in Hne.
  rewrite bool_decide_eq_true_2 by exact Hne.
  by apply not_two_parts.
Qed.

Lemma build_refactorings_rejects (flags : Flags) :
  wrong_arity (renameFn flags) || wrong_arity (renameType flags)
  || wrong_arity (renameVar flags) = true ->
  exists msg, build_refactorings flags = inl msg.
Proof.
  intros H. unfold build_refactorings.
  destruct (wrong_arity (renameFn flags)) eqn:Hfn.
  { rewrite for_renameFn_rejects by exact Hfn. by eexists. }
  destruct (for_renameFn flags []) as [msg|rs1]; [by eexists|]. simpl.
  destruct (wrong_arity (renameType flags)) eqn:Hty.
  { rewrite for_renameType_rejects by exact Hty. by eexists. }
  destruct (for_renameType flags rs1) as [msg|rs2]; [by eexists|]. simpl.
  simpl in H. rewrite for_renameVar_rejects by exact H. by eexists.
Qed.

(** C8 as the code has it.  A rename flag that is given and does not
    split on the colon into exactly two parts stops the tool before any
    file is looked at: no list of refactorings is built, the message goes
    to standard error, the exit code is 1, and no file is parsed, changed or
    written.  Whether the two parts are empty is not looked at. *)
Theorem wrong_arity_rejected (env : Env) (flags : Flags) (heap : Addr) :
  wrong_arity (renameFn flags) || wrong_arity (renameType flags)
  || wrong_arity (renameVar flags) = true ->
  exists msg,
    build_refactorings flags = inl msg
    /\ main env flags heap
       = {| exit_code := 1; stderr := [msg]; files := [] |}.
Proof.
  intros H. destruct (build_refactorings_rejects flags H) as [msg Hmsg].
  exists msg. split; [exact Hmsg|]. unfold main. by rewrite Hmsg.
Qed.

Lemma wrong_arity_rejected_witness :
  exists msg,
    build_refactorings (samples.flags_rename_fn "foo:bar:baz") = inl msg
    /\ main (samples.one_file_env samples.foo_called)
            (samples.flags_rename_fn "foo:bar:baz") 0
       = {| exit_code := 1; stderr := [msg]; files := [] |}.
Proof.
  apply (wrong_arity_rejected (samples.one_file_env samples.foo_called)
           (samples.flags_rename_fn "foo:bar:baz") 0).
  reflexivity.
Defined.

(** C8 as stated fails on [-rename-fn foo:]: the split gives two parts,
    the second one empty, the refactoring is built with an empty new name,
    and the one file of the directory is parsed and its tree changed. *)
Lemma empty_new_name_accepted :
  two_nonempty_parts "foo:" = false
  /\ build_refactorings (samples.flags_rename_fn "foo:")
     = inr [of_RenameFunction
              {| RenameFunction.OldName := "foo";
                 RenameFunction.NewName := EmptyString |}]
  /\ exists run,
       files (main (samples.one_file_env samples.foo_called)
                   (samples.flags_rename_fn "foo:") 0)
       = [("a.go", run)]
       /\ is_Some (run_tree run)
       /\ run_tree run <> Some samples.foo_called.
Proof.
  split; [reflexivity|]. split; [reflexivity|].
  eexists. split; [reflexivity|]. split; [by eexists|].
  vm_compute. intros H. discriminate H.
Qed.

End refactor_facts.

(** ** The code generator *)

Module codegen_facts.

Import token ast codegen.

(** The function map has [ToLower], [Title] and [Add]; the template also
    calls [GetSQLType], on its line 53. *)
Lemma Parse_tmplText (ToLower Title : string -> string) :
  template.Parse (template.Funcs (template.New "code") (funcMap ToLower Title))
                 tmplText
  = inl GetSQLType_undefined.
Proof. vm_compute. reflexivity. Qed.

Lemma GenerateCode_stops_at_Parse (ToLower Title : string -> string)
    (Execute : template.Template -> TemplateData -> string + string)
    (format_Source : string -> string + string) (flags : Flags)
    (structs : list StructInfo.t) (pkgName : string) :
  GenerateCode ToLower Title Execute format_Source flags structs pkgName
  = (EmptyString,
     Some ("failed to parse template: " +:+ GetSQLType_undefined)).
Proof. unfold GenerateCode. by rewrite Parse_tmplText. Qed.

(** The names in a [StructInfo] are the first names of the fields that
    have names, in the order of the declaration. *)
Lemma extracted_field_names (ToLower : string -> string)
    (format_Node : FileSet -> OptExpr -> string + string) (fset : FileSet)
    (fields : list Field) :
  map FieldInfo.Name (flat_map (field_infos ToLower format_Node fset) fields)
  = flat_map (fun f => match field_names f with
                       | [] => []
                       | name0 :: _ => [Name name0]
                       end) fields.
Proof.
  induction fields as [|f fields IH]; [reflexivity|].
  cbn [flat_map]. rewrite map_app, IH. f_equal.
  destruct f as [doc names ty tag comment]. destruct names as [|n names];
    [reflexivity|].
  unfold field_infos. by destruct tag.
Qed.

(** C1, at its input.  For the shape [{id uint64, name string, active
    bool}] with SQL generation switched on, [GenerateCode] returns no text
    and the error of [Parse]: there is no CREATE TABLE statement in what
    it returns, whatever the executor and the formatter would do. *)
Theorem GenerateCode_user_shape_no_schema (ToLower Title : string -> string)
    (Execute : template.Template -> TemplateData -> string + string)
    (format_Source : string -> string + string) :
  genSQLite samples.sqlite_flags = true
  /\ GenerateCode ToLower Title Execute format_Source samples.sqlite_flags
                  [samples.user_shape] "main"
     = (EmptyString,
        Some ("failed to parse template: " +:+ GetSQLType_undefined)).
Proof. split; [reflexivity|apply GenerateCode_stops_at_Parse]. Qed.

(** C2.  [GenerateCode] returns an error and no code for every list of
    shapes, every package name and every setting of the flags: the
    template calls [GetSQLType], the function map does not define it, and
    [Parse] fails before the template is executed. *)
Theorem GenerateCode_always_fails (ToLower Title : string -> string)
    (Execute : template.Template -> TemplateData -> string + string)
    (format_Source : string -> string + string) (flags : Flags)
    (structs : list StructInfo.t) (pkgName : string) :
  template.hasFunction
    (template.Funcs (template.New "code") (funcMap ToLower Title))
    "GetSQLType" = false
  /\ template.Parse
       (template.Funcs (template.New "code") (funcMap ToLower Title)) tmplText
     = inl GetSQLType_undefined
  /\ GenerateCode ToLower Title Execute format_Source flags structs pkgName
     = (EmptyString,
        Some ("failed to parse template: " +:+ GetSQLType_undefined)).
Proof.
  split; [reflexivity|]. split.
  - apply Parse_tmplText.
  - apply GenerateCode_stops_at_Parse.
Qed.

(** C9, at an input that breaks it.  From [type Point struct { X, Y int;
    Label string }] the extracted shape lists [X] and [Label]: the field
    [Y], declared together with [X], is not in it.  And the shape reaches
    no constructor and no column list, because [GenerateCode] fails. *)
Theorem Point_shape_misses_Y (ToLower Title : string -> string)
    (Execute : template.Template -> TemplateData -> string + string)
    (format_Source : string -> string + string) :
  exists structs,
    ExtractStructs ToLower samples.print_type
                   (samples.parse samples.point_file) "point.go"
    = Returns (structs, "geo", None)
    /\ map (fun s => map FieldInfo.Name (StructInfo.Fields s)) structs
       = [["X"; "Label"]]
    /\ samples.declared_names samples.point_fields = ["X"; "Y"; "Label"]
    /\ GenerateCode ToLower Title Execute format_Source samples.sqlite_flags
                    structs "geo"
       = (EmptyString,
          Some ("failed to parse template: " +:+ GetSQLType_undefined)).
Proof.
  eexists. split; [reflexivity|]. split; [reflexivity|].
  split; [reflexivity|]. apply GenerateCode_stops_at_Parse.
Qed.

End codegen_facts.

(** ** More on the linter *)

Module linter_more.

Import token ast linter linter_facts.

(** *** What the unused-import rule reports *)

Lemma delete_if_present_other (name k : string) (m : gmap string Position) :
  name <> k -> delete_if_present name m !! k = m !! k.
Proof.
  intros H. unfold delete_if_present. destruct (m !! name); [|reflexivity].
  by apply lookup_delete_ne.
Qed.

(** A node that does not use a name leaves its entry alone. *)
Lemma mark_used_other (n : Node) (k : string) (m : gmap string Position) :
  uses k n = false -> mark_used n m !! k = m !! k.
Proof.
  unfold uses, mark_used. intros H.
  destruct n as [| | | |e| | | |]; try reflexivity.
  destruct e; try reflexivity.
  - apply bool_decide_eq_false in H. by apply delete_if_present_other.
  - destruct e; try reflexivity.
    apply bool_decide_eq_false in H. by apply delete_if_present_other.
Qed.

Lemma inspect_other (nodes : list Node) (k : string)
    (m : gmap string Position) :
  existsb (uses k) nodes = false ->
  fold_left (fun acc n => mark_used n acc) nodes m !! k = m !! k.
Proof.
  revert m. induction nodes as [|n nodes IH]; intros m H; [reflexivity|].
  simpl in *. apply orb_false_iff in H as [Hn Hrest].
  rewrite IH by exact Hrest. by apply mark_used_other.
Qed.

Lemma collect_imports_keeps (fset : FileSet) (imps : list ImportSpec)
    (acc : gmap string Position) (name : string) :
  is_Some (acc !! name) ->
  is_Some (fold_left
             (fun imports imp =>
                match import_name imp with
                | None => imports
                | Some name => <[name := fset (ImportSpec_Pos imp)]> imports
                end) imps acc !! name).
Proof.
  revert acc. induction imps as [|imp imps IH]; intros acc H; [exact H|].
  simpl. apply IH. destruct (import_name imp) as [k|]; [|exact H].
  destruct (decide (k = name)) as [->|Hne].
  - rewrite lookup_insert_eq. by eexists.
  - by rewrite lookup_insert_ne.
Qed.

Lemma collect_imports_to (fset : FileSet) (imps : list ImportSpec)
    (acc : gmap string Position) (imp : ImportSpec) (name : string) :
  imp ∈ imps -> import_name imp = Some name ->
  is_Some (fold_left
             (fun imports imp =>
                match import_name imp with
                | None => imports
                | Some name => <[name := fset (ImportSpec_Pos imp)]> imports
                end) imps acc !! name).
Proof.
  revert acc. induction imps as [|i imps IH]; intros acc Hin Hname.
  - by apply elem_of_nil in Hin.
  - apply elem_of_cons in Hin as [->|Hin]; simpl.
    + apply collect_imports_keeps. rewrite Hname, lookup_insert_eq.
      by eexists.
    + by apply IH.
Qed.

(** The rule tracks exactly the names of its map before the walk. *)
Lemma tracked_collect (fset : FileSet) (file : File) (name : string) :
  tracked file name = true
  <-> is_Some (collect_imports fset (Imports file) !! name).
Proof.
  unfold tracked, collect_imports. split.
  - intros H. apply existsb_exists in H as (imp & Hin & Himp).
    apply bool_decide_eq_true in Himp.
    apply collect_imports_to with imp; [by apply list_elem_of_In|exact Himp].
  - intros H. apply collect_imports_from in H as [[? H]|(imp & Hin & Himp)].
    + by rewrite lookup_empty in H.
    + apply existsb_exists. exists imp.
      split; [by apply list_elem_of_In|by apply bool_decide_eq_true].
Qed.

Lemma unused_is_reported (order : RangeOrder) (fset : FileSet) (file : File)
    (name : string) :
  range_order_ok order ->
  is_Some (unused_imports fset file !! name) ->
  unused_message name ∈ map Message (UnusedImportRule_Check order fset file).
Proof.
  intros Hok [pos Hpos]. unfold UnusedImportRule_Check.
  apply list_elem_of_In, in_map_iff.
  exists (unused_import_issue (name, pos)). split; [reflexivity|].
  apply in_map. apply list_elem_of_In. rewrite (Hok _).
  by apply elem_of_map_to_list.
Qed.

(** An import is reported by the unused-import rule exactly when the rule
    tracks its name (the import is neither blank nor a dot import) and the
    name occurs nowhere in the file, neither as an identifier nor as the
    base of a qualified access. *)
Theorem reported_iff_tracked_and_absent (order : RangeOrder) (fset : FileSet)
    (file : File) (name : string) :
  range_order_ok order ->
  unused_message name ∈ map Message (UnusedImportRule_Check order fset file)
  <-> tracked file name = true /\ occurs file name = false.
Proof.
  intros Hok. split.
  - intros H. apply (reported_is_unused order fset file name Hok) in H.
    destruct (occurs file name) eqn:Hocc.
    + rewrite (occurs_not_unused fset file name Hocc) in H.
      by destruct H.
    + split; [|reflexivity]. apply (tracked_collect fset).
      unfold unused_imports, Inspect in H.
      by rewrite inspect_other in H.
  - intros [Htr Hocc]. apply unused_is_reported; [exact Hok|].
    unfold unused_imports, Inspect. rewrite inspect_other by exact Hocc.
    by apply tracked_collect.
Qed.

Lemma reported_iff_tracked_and_absent_witness :
  unused_message "os"
  ∈ map Message
        (UnusedImportRule_Check order_fwd samples.fset samples.two_unused)
  <-> tracked samples.two_unused "os" = true
      /\ occurs samples.two_unused "os" = false.
Proof.
  apply (reported_iff_tracked_and_absent order_fwd samples.fset
           samples.two_unused "os").
  intros m. reflexivity.
Defined.

(** The unused-import rule reports a name at most once, however many
    imports go by it. *)
Theorem unused_reported_once (order : RangeOrder) (fset : FileSet)
    (file : File) :
  range_order_ok order ->
  NoDup (map Message (UnusedImportRule_Check order fset file)).
Proof.
  intros Hok. unfold UnusedImportRule_Check. rewrite map_map.
  change (map (fun x => Message (unused_import_issue x))
              (order (unused_imports fset file)))
    with (map (fun x : string * Position => unused_message x.1)
              (order (unused_imports fset file))).
  rewrite <- (map_map fst unused_message).
  apply (NoDup_fmap_2 unused_message).
  rewrite (Hok _). apply NoDup_fst_map_to_list.
Qed.

Lemma unused_reported_once_witness :
  NoDup (map Message
             (UnusedImportRule_Check order_fwd samples.fset
                samples.two_unused)).
Proof.
  apply (unused_reported_once order_fwd samples.fset samples.two_unused).
  intros m. reflexivity.
Defined.

(** *** What the error-check rule reports *)

Lemma fold_append {A B : Type} (f : A -> list B) (l : list A) (acc : list B) :
  fold_left (fun acc x => acc ++ f x) l acc = acc ++ flat_map f l.
Proof.
  revert acc. induction l as [|x l IH]; intros acc; simpl.
  - by rewrite app_nil_r.
  - by rewrite IH, app_assoc.
Qed.

(** The issues of the rule are those of the nodes, in the order of the
    walk. *)
Lemma ErrorReturnRule_Check_nodes (order : RangeOrder) (fset : FileSet)
    (file : File) :
  ErrorReturnRule_Check order fset file
  = flat_map (error_issues fset) (walk_file file).
Proof. unfold ErrorReturnRule_Check, Inspect. by rewrite fold_append. Qed.

(** A prefix without a dot that is found in [x.sel] is found in [x]. *)
Lemma HasPrefix_qualified (x sel prefix : string) :
  strings.free_of "." prefix = true -> prefix <> EmptyString ->
  strings.HasPrefix (x +:+ "." +:+ sel) prefix = strings.HasPrefix x prefix.
Proof.
  revert prefix. induction x as [|c x IH]; intros prefix Hfree Hne.
  - destruct prefix as [|p prefix]; [done|].
    change (EmptyString +:+ "." +:+ sel) with (String "." sel).
    cbn -[Ascii.eqb] in *.
    apply andb_true_iff in Hfree as [Hp _]. apply negb_true_iff in Hp.
    rewrite Ascii.eqb_sym. by rewrite Hp.
  - destruct prefix as [|p prefix]; [done|].
    change (String c x +:+ "." +:+ sel) with (String c (x +:+ "." +:+ sel)).
    cbn -[Ascii.eqb] in *.
    destruct (Ascii.eqb c p); [|reflexivity].
    apply andb_true_iff in Hfree as [_ Hfree].
    destruct prefix as [|q prefix]; [by destruct x|].
    by apply IH.
Qed.

Lemma fallible_prefix_qualified (x sel : string) :
  fallible_prefix (x +:+ "." +:+ sel) = fallible_prefix x.
Proof. unfold fallible_prefix. by rewrite !HasPrefix_qualified. Qed.

(** A call statement [x.Sel(...)] whose base is an identifier is reported
    by the error-check rule exactly when the name of [x] starts with
    Create, New, Open, Read or Write: the selected name plays no part, so
    [os.Create(...)] is not reported. *)
Theorem qualified_call_judged_by_base (order : RangeOrder) (fset : FileSet)
    (file : File) (x sel : Ident) (args : ExprList) :
  let call := CallExpr (SelectorExpr (IdentExpr x) sel) args in
  NStmt (ExprStmt call) ∈ walk_file file ->
  (fallible_prefix (ast.Name x) = true ->
   {| Pos := fset (NamePos x);
      Message := "Result of " +:+ (ast.Name x +:+ "." +:+ ast.Name sel)
                 +:+ " is ignored, but it might return an error";
      Severity := "warning" |} ∈ ErrorReturnRule_Check order fset file)
  /\ (fallible_prefix (ast.Name x) = false ->
      error_issues fset (NStmt (ExprStmt call)) = []).
Proof.
  intros call Hin. split; intros Hp.
  - rewrite ErrorReturnRule_Check_nodes.
    apply list_elem_of_In, in_flat_map. exists (NStmt (ExprStmt call)).
    split; [by apply list_elem_of_In|].
    unfold call. cbn [error_issues getFunctionName].
    rewrite fallible_prefix_qualified, Hp. left. reflexivity.
  - unfold call. cbn [error_issues getFunctionName].
    by rewrite fallible_prefix_qualified, Hp.
Qed.

(** An assignment with at least two targets, the last one the blank
    identifier, and a single call on the right is reported by the
    error-check rule at the position of the blank identifier. *)
Theorem blank_target_reported (order : RangeOrder) (fset : FileSet)
    (file : File) (lhs rhs : ExprList) (tok : Token) (fn : Expr)
    (args : ExprList) (blank : Ident) :
  NStmt (AssignStmt lhs tok rhs) ∈ walk_file file ->
  2 <= length (exprs lhs) ->
  List.last (exprs lhs) (BadExpr NoPos) = IdentExpr blank ->
  ast.Name blank = "_" ->
  exprs rhs = [CallExpr fn args] ->
  {| Pos := fset (NamePos blank);
     Message := "Error is explicitly ignored with _";
     Severity := "warning" |} ∈ ErrorReturnRule_Check order fset file.
Proof.
  intros Hin Hlen Hlast Hname Hrhs. rewrite ErrorReturnRule_Check_nodes.
  apply list_elem_of_In, in_flat_map. exists (NStmt (AssignStmt lhs tok rhs)).
  split; [by apply list_elem_of_In|].
  cbn [error_issues]. rewrite Hrhs. cbn [flat_map app].
  unfold check_rhs. cbn [is_call length].
  destruct (exprs lhs) as [|a [|b l]] eqn:E; simpl in Hlen; [lia..|].
  cbn [length Nat.ltb Nat.leb Nat.eqb andb]. rewrite Hlast.
  destruct (decide (ast.Name blank = "_")) as [_|Hne]; [|done].
  by left.
Qed.

Lemma flat_map_all_nil {A B : Type} (f : A -> list B) (l : list A) :
  (forall x, x ∈ l -> f x = []) -> flat_map f l = [].
Proof.
  induction l as [|x l IH]; intros H; [reflexivity|].
  cbn [flat_map]. rewrite H by left. rewrite IH; [reflexivity|].
  intros y Hy. apply H. by right.
Qed.

(** An assignment with fewer than two targets, or with anything but one
    expression on the right, or whose right-hand side is not a call, adds
    no issue: [_ = f()], [a, _ = f(), g()] and [v, _ := m[k]] pass. *)
Theorem other_assignments_pass (fset : FileSet) (lhs rhs : ExprList)
    (tok : Token) :
  length (exprs lhs) < 2 \/ length (exprs rhs) <> 1
  \/ forallb is_call (exprs rhs) = false ->
  error_issues fset (NStmt (AssignStmt lhs tok rhs)) = [].
Proof.
  intros H. cbn [error_issues].
  assert (forall r, r ∈ exprs rhs ->
            check_rhs fset (exprs lhs) (exprs rhs) r = []) as Hall.
  { intros r Hr. unfold check_rhs.
    destruct (is_call r) eqn:Hcall; [|reflexivity].
    destruct H as [H|[H|H]].
    - destruct (Nat.ltb 1 (length (exprs lhs))) eqn:E; [|reflexivity].
      apply Nat.ltb_lt in E. lia.
    - destruct (Nat.eqb (length (exprs rhs)) 1) eqn:E;
        [|by rewrite andb_false_r].
      apply Nat.eqb_eq in E. lia.
    - destruct (exprs rhs) as [|r0 [|r1 l]] eqn:E.
      + by apply elem_of_nil in Hr.
      + apply list_elem_of_singleton in Hr. subst r0. simpl in H.
        rewrite Hcall in H. discriminate.
      + cbn [length Nat.eqb]. by rewrite andb_false_r. }
  by apply flat_map_all_nil.
Qed.

Lemma qualified_call_judged_by_base_witness :
  {| Pos := samples.fset 46;
     Message := "Result of Opener.Close is ignored, but it might return an error";
     Severity := "warning" |}
  ∈ ErrorReturnRule_Check order_fwd samples.fset samples.ignored_errors
  /\ error_issues samples.fset (NStmt samples.os_Create) = [].
Proof.
  split.
  - apply (qualified_call_judged_by_base order_fwd samples.fset
             samples.ignored_errors (samples.free 5 46 "Opener")
             (samples.free 6 53 "Close") ENil).
    + apply (list_elem_of_lookup_2 _ 13). reflexivity.
    + reflexivity.
  - apply (qualified_call_judged_by_base order_fwd samples.fset
             samples.ignored_errors (samples.free 3 30 "os")
             (samples.free 4 33 "Create")
             (ECons (BasicLitExpr (samples.lit 40 "f")) ENil)).
    + apply (list_elem_of_lookup_2 _ 7). reflexivity.
    + reflexivity.
Defined.

Lemma blank_target_reported_witness :
  {| Pos := samples.fset 65;
     Message := "Error is explicitly ignored with _";
     Severity := "warning" |}
  ∈ ErrorReturnRule_Check order_fwd samples.fset samples.ignored_errors.
Proof.
  apply (blank_target_reported order_fwd samples.fset samples.ignored_errors
           (ECons (IdentExpr (samples.bound 7 62 "v" Var DeclAssignStmt))
                  (ECons (IdentExpr (samples.free 8 65 "_")) ENil))
           (ECons (samples.load_call 9 70) ENil) DEFINE
           (IdentExpr (samples.free 9 70 "load")) ENil
           (samples.free 8 65 "_")).
  - apply (list_elem_of_lookup_2 _ 18). reflexivity.
  - simpl. lia.
  - reflexivity.
  - reflexivity.
  - reflexivity.
Defined.

Lemma other_assignments_pass_witness :
  error_issues samples.fset (NStmt samples.blank_only) = [].
Proof.
  apply (other_assignments_pass samples.fset
           (ECons (IdentExpr (samples.free 10 78 "_")) ENil)
           (ECons (samples.load_call 11 82) ENil) ASSIGN).
  left. simpl. lia.
Defined.

(** *** What lintFile and main report *)

Lemma lintFile_rules (parse : Parser) (order : RangeOrder) (filename : string)
    (fset : FileSet) (file : File) :
  parse filename = inr (fset, file) ->
  lintFile parse order filename rules
  = inr (UnusedImportRule_Check order fset file
         ++ ErrorReturnRule_Check order fset file).
Proof. intros H. unfold lintFile. by rewrite H. Qed.

Lemma error_issues_warning (fset : FileSet) (n : Node) :
  Forall (fun issue => Severity issue = "warning") (error_issues fset n).
Proof.
  destruct n as [| | | |e|s| | |]; try constructor.
  destruct s; try constructor.
  - destruct x; try constructor. cbn [error_issues].
    destruct (getFunctionName x); [|constructor].
    destruct (fallible_prefix s); repeat constructor.
  - cbn [error_issues]. apply Forall_forall. intros issue Hin.
    apply list_elem_of_In, in_flat_map in Hin as (r & _ & Hin).
    unfold check_rhs in Hin.
    repeat match type of Hin with
           | In _ (if ?c then _ else _) => destruct c
           | In _ (match ?c with _ => _ end) => destruct c
           end;
      simpl in Hin; try tauto.
    destruct Hin as [<-|[]]. reflexivity.
Qed.

(** Every issue the linter returns for a file, from either registered
    rule, has the severity "warning". *)
Theorem every_issue_is_a_warning (parse : Parser) (order : RangeOrder)
    (filename : string) (issues : list Issue) :
  lintFile parse order filename rules = inr issues ->
  Forall (fun issue => Severity issue = "warning") issues.
Proof.
  unfold lintFile. destruct (parse filename) as [e|[fset file]];
    [discriminate|].
  intros H. injection H as <-.
  cbn [rules fold_left Check UnusedImportRule ErrorReturnRule app].
  apply Forall_app. split.
  - unfold UnusedImportRule_Check. apply Forall_forall. intros issue Hin.
    apply list_elem_of_In, in_map_iff in Hin as (entry & <- & _).
    reflexivity.
  - rewrite ErrorReturnRule_Check_nodes. apply Forall_forall.
    intros issue Hin.
    apply list_elem_of_In, in_flat_map in Hin as (n & _ & Hin).
    pose proof (error_issues_warning fset n) as Hall.
    rewrite Forall_forall in Hall. apply Hall. by apply list_elem_of_In.
Qed.

Lemma every_issue_is_a_warning_witness :
  Forall (fun issue => Severity issue = "warning")
         (UnusedImportRule_Check order_fwd samples.fset samples.ignored_errors
          ++ ErrorReturnRule_Check order_fwd samples.fset
               samples.ignored_errors).
Proof.
  apply (every_issue_is_a_warning (samples.parse samples.ignored_errors)
           order_fwd "main.go").
  reflexivity.
Defined.

(** The progress of [lint_each] from any starting point. *)
Lemma lint_each_from (parse : Parser) (order : RangeOrder)
    (files : list string) (p : Progress) :
  let issues := flat_map (issues_of parse order) files in
  out (lint_each parse order files p) = out p ++ map issue_line issues
  /\ issueCount (lint_each parse order files p)
     = issueCount p + length issues
  /\ length (errs (lint_each parse order files p))
     = length (errs p)
       + length (List.filter
                   (fun file =>
                      match lintFile parse order file rules with
                      | inl _ => true
                      | inr _ => false
                      end) files).
Proof.
  revert p. induction files as [|file files IH]; intros p.
  - cbn. rewrite app_nil_r. repeat split; lia.
  - cbn [lint_each flat_map List.filter]. unfold issues_of at 1 3.
    destruct (lintFile parse order file rules) as [e|issues];
      match goal with
      | |- context [lint_each parse order files ?q] =>
          destruct (IH q) as (Hout & Hcount & Herrs)
      end;
      rewrite Hout, Hcount, Herrs; cbn [out errs issueCount app length].
    + rewrite length_app. cbn. repeat split; lia.
    + rewrite map_app, length_app, app_assoc. repeat split; lia.
Qed.

(** When the walk succeeds, [main] exits with 1 exactly when some file
    that parses has an issue, and with 0 otherwise, also when files fail to
    parse: those are only named on standard error.  It prints one line for
    each issue, file by file, then the summary with the number of files
    found and the number of issues. *)
Theorem main_exit_code (fs : filepath.FileSystem) (parse : Parser)
    (order : RangeOrder) (flags : Flags) (files : list string) :
  filesToLint fs flags = (files, None) ->
  let issues := flat_map (issues_of parse order) files in
  let run := main fs parse order flags in
  exit_code run = (if Nat.ltb 0 (length issues) then 1 else 0)
  /\ stdout run
     = map issue_line issues ++ [summary (length files) (length issues)]
  /\ length (stderr run)
     = length (List.filter
                 (fun file =>
                    match lintFile parse order file rules with
                    | inl _ => true
                    | inr _ => false
                    end) files).
Proof.
  intros Hwalk issues run. unfold run, main. rewrite Hwalk.
  destruct (lint_each_from parse order files
              {| out := []; errs := []; issueCount := 0 |})
    as (Hout & Hcount & Herrs).
  cbn [exit_code stdout stderr out errs issueCount length] in *.
  rewrite Hout, Hcount, Herrs. cbn [app]. by rewrite !Nat.add_0_l.
Qed.

Lemma main_exit_code_witness :
  exit_code (main samples.disk samples.broken_parse order_fwd
               {| dir := "."; recursive := false |}) = 0
  /\ stdout (main samples.disk samples.broken_parse order_fwd
               {| dir := "."; recursive := false |})
     = [summary 2 0]
  /\ length (stderr (main samples.disk samples.broken_parse order_fwd
                       {| dir := "."; recursive := false |})) = 2.
Proof.
  apply (main_exit_code samples.disk samples.broken_parse order_fwd
           {| dir := "."; recursive := false |} ["a.go"; "z.go"]).
  reflexivity.
Defined.

End linter_more.

(** ** The directory walks of the tools *)

Module walk_facts.

Import filepath.

Section selection.

(** A callback of the shape both tools use: it hands an error back, skips
    a directory other than the root unless the walk is recursive, and keeps
    the files [keep] accepts. *)
Variable keep : string -> bool.
Variable root : string.
Variable recursive : bool.
Variable fn : WalkFunc (list string).

Hypothesis fn_failed : forall path info err s,
  fn path (Failed info err) s = (s, Some err).
Hypothesis fn_dir : forall path s,
  fn path (Reached (mkFileInfo true)) s
  = if negb recursive && negb (String.eqb path root)
    then (s, Some SkipDir) else (s, None).
Hypothesis fn_file : forall path s,
  fn path (Reached (mkFileInfo false)) s
  = (if keep path then s ++ [path] else s, None).

Lemma keep_one (path : string) (s : list string) :
  (if keep path then s ++ [path] else s) = s ++ List.filter keep [path].
Proof. cbn. destruct (keep path); [reflexivity|by rewrite app_nil_r]. Qed.

Lemma walk_all :
  recursive = true ->
  (forall e s, healthy e = true ->
     walk fn e s = (s ++ List.filter keep (files e), None))
  /\ (forall l s, healthy_all l = true ->
        walk_entries fn l s = (s ++ List.filter keep (files_in l), None)).
Proof.
  intros Hrec. apply tree_mutind.
  - intros path s _. cbn [walk files]. by rewrite fn_file, keep_one.
  - intros path readErr entries IH s H. cbn [healthy] in H.
    destruct readErr as [e|]; [discriminate|].
    cbn [walk files]. rewrite fn_dir, Hrec. cbn [negb andb]. by apply IH.
  - intros path err s H. discriminate.
  - intros s _. cbn. by rewrite app_nil_r.
  - intros e IHe rest IHrest s H. cbn [healthy_all] in H.
    apply andb_true_iff in H as [He Hrest].
    cbn [walk_entries files_in]. rewrite IHe by exact He.
    rewrite IHrest by exact Hrest.
    by rewrite List.filter_app, app_assoc.
Qed.

Lemma walk_top (l : Entries) (s : list string) :
  recursive = false ->
  healthy_here l = true -> dirs_differ root l = true ->
  walk_entries fn l s = (s ++ List.filter keep (files_here l), None).
Proof.
  intros Hrec. revert s. induction l as [|e rest IH]; intros s Hh Hd.
  - cbn. by rewrite app_nil_r.
  - destruct e as [path|path [err|] entries|path err];
      cbn [healthy_here dirs_differ] in Hh, Hd; try discriminate.
    + cbn [walk_entries walk files_here]. rewrite fn_file.
      rewrite IH by assumption. cbn [List.filter].
      destruct (keep path); [|reflexivity].
      by rewrite <- app_assoc.
    + apply andb_true_iff in Hd as [Hne Hd].
      cbn [walk_entries walk files_here]. rewrite fn_dir, Hrec, Hne.
      cbn [negb andb]. by apply IH.
Qed.

(** The files a walk collects when it meets no error. *)
Lemma Walk_found (r : Root) :
  walkable recursive root r = true ->
  Walk root r fn [] = (List.filter keep (found recursive root r), None).
Proof.
  unfold walkable, found, Walk. intros H.
  destruct (sumbool_of_bool recursive) as [Hrec|Hrec]; rewrite Hrec in H |- *;
    destruct r as [|[e|] entries|e]; try discriminate;
    cbn [root_entry walk files top_files].
  - rewrite fn_file. cbn. by destruct (keep root).
  - rewrite fn_dir, Hrec. cbn [negb andb].
    destruct walk_all as [_ Hall]; [exact Hrec|]. by rewrite Hall.
  - rewrite fn_file. cbn. by destruct (keep root).
  - rewrite fn_dir, String.eqb_refl, andb_false_r.
    apply andb_true_iff in H as [Hh Hd]. by rewrite walk_top.
Qed.

Lemma walk_all_stops :
  recursive = true ->
  (forall e s, healthy e = false ->
     exists s' msg, walk fn e s = (s', Some (Failure msg)))
  /\ (forall l s, healthy_all l = false ->
        exists s' msg, walk_entries fn l s = (s', Some (Failure msg))).
Proof.
  intros Hrec. apply tree_mutind.
  - intros path s H. discriminate.
  - intros path readErr entries IH s H. cbn [healthy] in H.
    destruct readErr as [e|].
    + cbn [walk]. rewrite fn_failed. by eexists _, _.
    + cbn [walk]. rewrite fn_dir, Hrec. cbn [negb andb]. by apply IH.
  - intros path err s _. cbn [walk]. rewrite fn_failed. by eexists _, _.
  - intros s H. discriminate.
  - intros e IHe rest IHrest s H. cbn [healthy_all] in H.
    cbn [walk_entries]. destruct (healthy e) eqn:He.
    + destruct walk_all as [Hone _]; [exact Hrec|].
      rewrite (Hone e s He). by apply IHrest.
    + destruct (IHe s eq_refl) as (s' & msg & ->). by eexists _, _.
Qed.

Lemma walk_top_stops (l : Entries) (s : list string) :
  recursive = false ->
  healthy_here l = false -> dirs_differ root l = true ->
  exists s' msg, walk_entries fn l s = (s', Some (Failure msg)).
Proof.
  intros Hrec. revert s. induction l as [|e rest IH]; intros s Hh Hd.
  - discriminate.
  - destruct e as [path|path [err|] entries|path err];
      cbn [healthy_here dirs_differ] in Hh, Hd; cbn [walk_entries walk].
    + rewrite fn_file. by apply IH.
    + rewrite fn_failed. by eexists _, _.
    + apply andb_true_iff in Hd as [Hne Hd].
      rewrite fn_dir, Hrec, Hne. cbn [negb andb]. by apply IH.
    + rewrite fn_failed. by eexists _, _.
Qed.

(** A walk that meets something it cannot read stops with that error. *)
Lemma Walk_stops (r : Root) :
  walkable recursive root r = false ->
  distinct_dirs recursive root r = true ->
  exists s msg, Walk root r fn [] = (s, Some msg).
Proof.
  unfold walkable, distinct_dirs, Walk. intros H Hd.
  destruct r as [|[e|] entries|e]; try discriminate; cbn [root_entry walk].
  - rewrite fn_failed. by eexists _, _.
  - rewrite fn_dir, String.eqb_refl, andb_false_r.
    destruct (sumbool_of_bool recursive) as [Hrec|Hrec];
      rewrite Hrec in H, Hd.
    + destruct walk_all_stops as [_ Hall]; [exact Hrec|].
      destruct (Hall entries [] H) as (s' & msg & ->). by eexists _, _.
    + cbn [orb] in Hd. rewrite Hd, andb_true_r in H.
      destruct (walk_top_stops entries [] Hrec H Hd) as (s' & msg & ->).
      by eexists _, _.
  - rewrite fn_failed. by eexists _, _.
Qed.

End selection.

End walk_facts.

(** ** More on the linter: the files it lints *)

Module linter_walk.

Import linter.

(** When it meets no error, the walk of the linter finds the files whose
    path ends in [.go] and not in [_test.go], in the order of the walk:
    those of the whole tree with [-recursive], those right below the
    directory without. *)
Theorem lints_go_files_but_tests (fs : filepath.FileSystem) (flags : Flags) :
  filepath.walkable (recursive flags) (dir flags) (fs (dir flags)) = true ->
  filesToLint fs flags
  = (List.filter lintable
       (filepath.found (recursive flags) (dir flags) (fs (dir flags))),
     None).
Proof.
  intros H. unfold filesToLint.
  apply (walk_facts.Walk_found lintable (dir flags) (recursive flags));
    [| |exact H].
  - intros path s. unfold walkFn. cbn [filepath.IsDir].
    by destruct (negb (recursive flags)
                 && negb (String.eqb path (dir flags))).
  - intros path s. unfold walkFn, lintable. cbn [filepath.IsDir].
    by destruct (strings.HasSuffix path ".go"
                 && negb (strings.HasSuffix path "_test.go")).
Qed.

Lemma lints_go_files_but_tests_witness :
  filesToLint samples.disk {| dir := "."; recursive := true |}
  = (["a.go"; "sub/b.go"; "z.go"], None)
  /\ filesToLint samples.disk {| dir := "."; recursive := false |}
     = (["a.go"; "z.go"], None).
Proof.
  split.
  - apply (lints_go_files_but_tests samples.disk
             {| dir := "."; recursive := true |}).
    reflexivity.
  - apply (lints_go_files_but_tests samples.disk
             {| dir := "."; recursive := false |}).
    reflexivity.
Defined.

(** When the walk meets something it cannot read (the root, a directory
    it would list, an entry it cannot stat), [main] lints nothing: it prints
    the error of the walk on standard error, nothing on standard output, and
    exits with 1; the files found before the error are dropped. *)
Theorem unreadable_stops_linter (fs : filepath.FileSystem) (parse : Parser)
    (order : RangeOrder) (flags : Flags) :
  filepath.walkable (recursive flags) (dir flags) (fs (dir flags)) = false ->
  filepath.distinct_dirs (recursive flags) (dir flags) (fs (dir flags))
  = true ->
  exists msg,
    main fs parse order flags
    = {| exit_code := 1; stdout := [];
         stderr := ["Error walking directory: " +:+ msg
                    +:+ strings.linefeed] |}.
Proof.
  intros H Hd.
  destruct (walk_facts.Walk_stops lintable (dir flags) (recursive flags)
              (walkFn flags)) with (r := fs (dir flags))
    as (s & msg & Hwalk); [| | |exact H|exact Hd|].
  - by intros path info err s.
  - intros path s. unfold walkFn. cbn [filepath.IsDir].
    by destruct (negb (recursive flags)
                 && negb (String.eqb path (dir flags))).
  - intros path s. unfold walkFn, lintable. cbn [filepath.IsDir].
    by destruct (strings.HasSuffix path ".go"
                 && negb (strings.HasSuffix path "_test.go")).
  - exists msg. unfold main, filesToLint. by rewrite Hwalk.
Qed.

Lemma unreadable_stops_linter_witness :
  exists msg,
    main samples.locked_disk samples.parse_disk order_fwd
         {| dir := "."; recursive := false |}
    = {| exit_code := 1; stdout := [];
         stderr := ["Error walking directory: " +:+ msg
                    +:+ strings.linefeed] |}.
Proof.
  apply (unreadable_stops_linter samples.locked_disk samples.parse_disk
           order_fwd {| dir := "."; recursive := false |});
    reflexivity.
Defined.

End linter_walk.

(** ** More on the refactorings *)

Module refactor_more.

Import token ast refactor ast_facts refactor_facts.

(** *** The renames *)

Lemma rename_Apply_of_eq (role : Role) (old new : string) :
  rename_Apply_of role old new = rename_Apply (role_test role) old new.
Proof. by destruct role. Qed.

Lemma role_test_set_name (role : Role) (new : string) (id : Ident) :
  role_test role (set_name new id) = role_test role id.
Proof. by destruct role. Qed.

Lemma map_fixed {A : Type} (f : A -> A) (l : list A) :
  map f l = l -> forall x, x ∈ l -> f x = x.
Proof.
  induction l as [|y l IH]; intros H x Hx.
  - by apply elem_of_nil in Hx.
  - injection H as Hy Hl. apply elem_of_cons in Hx as [->|Hx]; [exact Hy|].
    by apply IH.
Qed.

Lemma existsb_none {A : Type} (f : A -> bool) (l : list A) :
  existsb f l = false <-> forall x, x ∈ l -> f x = false.
Proof.
  induction l as [|y l IH]; cbn.
  - split; [|done]. intros _ x Hx. by apply elem_of_nil in Hx.
  - rewrite orb_false_iff, IH. split.
    + intros [Hy Hl] x Hx. apply elem_of_cons in Hx as [->|Hx]; auto.
    + intros H. split; [apply H; left|intros x Hx; apply H; by right].
Qed.

(** A rename returns no error and allocates nothing.  When it reports no
    change it has left the tree as it was; when it reports a change and the
    two names differ, the tree is another one. *)
Theorem rename_reports_change (role : Role) (old new : string)
    (fset : FileSet) (file : File) (heap : Addr) :
  let a := rename_Apply_of role old new fset file heap in
  err a = None /\ refactor.heap a = heap
  /\ (changed a = false -> tree a = file)
  /\ (changed a = true -> old <> new -> tree a <> file).
Proof.
  rewrite rename_Apply_of_eq. cbn [rename_Apply err refactor.heap changed tree].
  repeat split.
  - intros Hno. apply update_file_fix. intros id Hid.
    unfold rename. by rewrite (proj1 (existsb_none _ _) Hno id Hid).
  - intros Hyes Hne Heq.
    apply existsb_exists in Hyes as (id & Hin & Hhit).
    assert (rename (role_test role) old new id = id) as Hfix.
    { apply (map_fixed _ (idents file)); [|by apply list_elem_of_In].
      rewrite <- idents_update_file. by rewrite Heq. }
    unfold rename in Hfix. rewrite Hhit in Hfix.
    unfold hit in Hhit. apply andb_true_iff in Hhit as [Hname _].
    apply bool_decide_eq_true in Hname.
    apply (f_equal Name) in Hfix. simpl in Hfix. congruence.
Qed.

Lemma rename_reports_change_witness :
  tree (rename_Apply_of Function "a" "b" samples.fset samples.a_called 0)
  <> samples.a_called
  /\ tree (rename_Apply_of Type_ "a" "b" samples.fset samples.a_called 0)
     = samples.a_called.
Proof.
  split.
  - apply (rename_reports_change Function "a" "b" samples.fset
             samples.a_called 0).
    + reflexivity.
    + discriminate.
  - apply (rename_reports_change Type_ "a" "b" samples.fset
             samples.a_called 0).
    reflexivity.
Defined.

(** After a rename to another name, the same rename finds nothing to do:
    it reports no change and leaves the tree as the first one made it. *)
Theorem rename_again_finds_nothing (role : Role) (old new : string)
    (fset : FileSet) (file : File) (heap : Addr) :
  old <> new ->
  let once := tree (rename_Apply_of role old new fset file heap) in
  let again := rename_Apply_of role old new fset once heap in
  changed again = false /\ tree again = once.
Proof.
  intros Hne once again.
  assert (changed again = false) as Hno.
  { unfold again, once. rewrite !rename_Apply_of_eq.
    cbn [rename_Apply changed tree]. rewrite idents_update_file.
    apply existsb_none. intros id' Hin.
    apply list_elem_of_In, in_map_iff in Hin as (id & <- & _).
    unfold rename. destruct (hit (role_test role) old id) eqn:Hhit.
    - unfold hit. cbn [set_name Name]. rewrite bool_decide_eq_false_2; [done|].
      congruence.
    - exact Hhit. }
  split; [exact Hno|].
  by apply (rename_reports_change role old new fset once heap).
Qed.

Lemma rename_again_finds_nothing_witness :
  changed (rename_Apply_of Function "a" "b" samples.fset
             (tree (rename_Apply_of Function "a" "b" samples.fset
                      samples.a_called 0)) 0) = false
  /\ tree (rename_Apply_of Function "a" "b" samples.fset
             (tree (rename_Apply_of Function "a" "b" samples.fset
                      samples.a_called 0)) 0)
     = tree (rename_Apply_of Function "a" "b" samples.fset
               samples.a_called 0).
Proof.
  apply (rename_again_finds_nothing Function "a" "b" samples.fset
           samples.a_called 0).
  discriminate.
Defined.

Lemma renamed_one (role : Role) (old new : string) (id : Ident) :
  renamed role old new id (rename (role_test role) old new id).
Proof.
  unfold renamed, rename. destruct (hit (role_test role) old id) eqn:Hhit.
  - unfold hit in Hhit. apply andb_true_iff in Hhit as [Hname Hrole].
    apply bool_decide_eq_true in Hname. cbn. repeat split; try reflexivity.
    right. by repeat split.
  - repeat split; try reflexivity. by left.
Qed.

(** A rename keeps the identifiers of the tree in number and order, and
    each one keeps its address, its position and its object; the only names
    that change are those equal to the old name on identifiers in the role,
    and they become the new name. *)
Theorem rename_touches_names_only (role : Role) (old new : string)
    (fset : FileSet) (file : File) (heap : Addr) :
  Forall2 (renamed role old new) (idents file)
          (idents (tree (rename_Apply_of role old new fset file heap))).
Proof.
  rewrite rename_Apply_of_eq. cbn [rename_Apply tree].
  rewrite idents_update_file.
  induction (idents file) as [|id l IH]; constructor; [|exact IH].
  apply renamed_one.
Qed.

(** An identifier the parser did not resolve (its object is nil: a name
    from another file or package, a selector, the package name) is in no
    role, so no rename touches it, whatever its name. *)
Theorem unresolved_identifier_is_kept (role : Role) (old new : string)
    (fset : FileSet) (file : File) (heap : Addr) (i : nat) (id : Ident) :
  idents file !! i = Some id -> Obj id = None ->
  idents (tree (rename_Apply_of role old new fset file heap)) !! i = Some id.
Proof.
  intros Hi Hobj. rewrite rename_Apply_of_eq. cbn [rename_Apply tree].
  rewrite idents_update_file, list_lookup_fmap, Hi. cbn. f_equal.
  unfold rename, hit.
  assert (role_test role id = false) as ->.
  { destruct role; cbn [role_test];
      unfold isFunctionIdent, isTypeIdent, isVarIdent; by rewrite Hobj. }
  by rewrite andb_false_r.
Qed.

Lemma unresolved_identifier_is_kept_witness :
  idents (tree (rename_Apply_of Function "Println" "Print" samples.fset
                  samples.fmt_used 0)) !! 3
  = Some (samples.free 4 47 "Println").
Proof.
  apply (unresolved_identifier_is_kept Function "Println" "Print"
           samples.fset samples.fmt_used 0 3 (samples.free 4 47 "Println"));
    reflexivity.
Defined.

(** *** Adding a parameter *)

Lemma visit_decl_counts (r : AddParameter.t) (d : Decl) (heap : Addr) :
  let n := if AddParameter.matches r d then 1 else 0 in
  (AddParameter.visit_decl r d heap).2 = heap + 2 * n
  /\ length (decl_params (AddParameter.visit_decl r d heap).1)
     = length (decl_params d) + n
  /\ (n = 0 -> (AddParameter.visit_decl r d heap).1 = d).
Proof.
  destruct d as [|g|doc recv name ty body]; cbn; try (repeat split; lia).
  case_bool_decide; cbn; [|repeat split; lia].
  destruct ty as [func typeparams [|[o fields c]] results]; cbn.
  - repeat split; lia.
  - rewrite fields_list_snoc, length_app. cbn. repeat split; lia.
Qed.

Lemma visit_decls_counts (r : AddParameter.t) (ds : list Decl) (heap : Addr) :
  let n := count_matches r ds in
  (AddParameter.visit_decls r ds heap).2 = heap + 2 * n
  /\ length (flat_map decl_params (AddParameter.visit_decls r ds heap).1)
     = length (flat_map decl_params ds) + n
  /\ (n = 0 -> (AddParameter.visit_decls r ds heap).1 = ds).
Proof.
  revert heap. induction ds as [|d ds IH]; intros heap.
  - cbn. repeat split; lia.
  - cbn [AddParameter.visit_decls count_matches List.filter flat_map].
    destruct (visit_decl_counts r d heap) as (Hh & Hp & Hsame).
    destruct (AddParameter.visit_decl r d heap) as [d' heap'].
    destruct (IH heap') as (IHh & IHp & IHsame).
    destruct (AddParameter.visit_decls r ds heap') as [ds' heap''].
    unfold count_matches in *. cbn [fst snd flat_map List.filter] in *.
    rewrite !length_app.
    destruct (AddParameter.matches r d); cbn [length] in *.
    + repeat split; [lia|lia|]. intros H. lia.
    + repeat split; [lia|lia|]. intros H.
      rewrite Hsame by reflexivity. by rewrite IHsame.
Qed.

Lemma existsb_count {A : Type} (f : A -> bool) (l : list A) :
  existsb f l = Nat.ltb 0 (length (List.filter f l)).
Proof.
  induction l as [|x l IH]; [reflexivity|].
  cbn [existsb List.filter]. destruct (f x); [reflexivity|exact IH].
Qed.

(** Add-parameter handles every function and method declaration called
    [FunctionName], not just one: with [n] of them it reports a change
    exactly when [n] is not zero, the declarations of the file have [n]
    parameter declarations more, and two identifiers are allocated for
    each.  With none the tree is left as it was. *)
Theorem add_parameter_counts (r : AddParameter.t) (fset : FileSet)
    (file : File) (heap : Addr) :
  let n := count_matches r (Decls file) in
  let a := AddParameter.Apply r fset file heap in
  err a = None
  /\ changed a = Nat.ltb 0 n
  /\ refactor.heap a = heap + 2 * n
  /\ length (flat_map decl_params (Decls (tree a)))
     = length (flat_map decl_params (Decls file)) + n
  /\ (n = 0 -> tree a = file).
Proof.
  intros n a. unfold a, AddParameter.Apply.
  destruct (visit_decls_counts r (Decls file) heap) as (Hh & Hp & Hsame).
  destruct (AddParameter.visit_decls r (Decls file) heap) as [decls heap'].
  cbn [fst snd err changed refactor.heap tree Decls] in *.
  split; [reflexivity|]. split.
  - apply existsb_count.
  - split; [exact Hh|]. split; [exact Hp|].
    intros H0. rewrite (Hsame H0). by destruct file.
Qed.

Lemma add_parameter_counts_witness :
  count_matches
    {| AddParameter.FunctionName := "Get"; AddParameter.ParamName := "ctx";
       AddParameter.ParamType := "Context" |} (Decls samples.two_gets) = 2
  /\ changed
       (AddParameter.Apply
          {| AddParameter.FunctionName := "Get";
             AddParameter.ParamName := "ctx";
             AddParameter.ParamType := "Context" |}
          samples.fset samples.two_gets 0) = true
  /\ refactor.heap
       (AddParameter.Apply
          {| AddParameter.FunctionName := "Get";
             AddParameter.ParamName := "ctx";
             AddParameter.ParamType := "Context" |}
          samples.fset samples.two_gets 0) = 4
  /\ length
       (flat_map decl_params
          (Decls
             (tree
                (AddParameter.Apply
                   {| AddParameter.FunctionName := "Get";
                      AddParameter.ParamName := "ctx";
                      AddParameter.ParamType := "Context" |}
                   samples.fset samples.two_gets 0)))) = 2
  /\ tree (AddParameter.Apply
             {| AddParameter.FunctionName := "nowhere";
                AddParameter.ParamName := "ctx";
                AddParameter.ParamType := "Context" |}
             samples.fset samples.a_called 0)
     = samples.a_called.
Proof.
  destruct (add_parameter_counts
              {| AddParameter.FunctionName := "Get";
                 AddParameter.ParamName := "ctx";
                 AddParameter.ParamType := "Context" |}
              samples.fset samples.two_gets 0)
    as (_ & Hchanged & Hheap & Hparams & _).
  split; [reflexivity|]. split; [exact Hchanged|]. split; [exact Hheap|].
  split; [exact Hparams|].
  apply (add_parameter_counts
           {| AddParameter.FunctionName := "nowhere";
              AddParameter.ParamName := "ctx";
              AddParameter.ParamType := "Context" |}
           samples.fset samples.a_called 0).
  reflexivity.
Defined.

(** *** applyRefactorings *)

Lemma written_needs_write (env : Env) (write : bool) (filename : string)
    (rs : list Refactoring) (heap : Addr) (x : string * string) :
  run_write (applyRefactorings env write filename rs heap) = Some x ->
  write = true.
Proof.
  unfold applyRefactorings.
  destruct (ParseFile env filename) as [e|[fset file]]; [discriminate|].
  destruct (apply_each fset filename rs file heap false [])
    as [[[[[e|] c] out] file'] heap']; [discriminate|].
  destruct c, write; cbn [andb]; try discriminate. reflexivity.
Qed.

(** [applyRefactorings] hands bytes to [os.WriteFile] only with [-write],
    only for the file it was given and only after that file parsed; the
    bytes are the print of the tree the refactorings left. *)
Theorem writes_the_printed_tree (env : Env) (write : bool)
    (filename : string) (rs : list Refactoring) (heap : Addr)
    (f bytes : string) :
  let fr := applyRefactorings env write filename rs heap in
  run_write fr = Some (f, bytes) ->
  write = true /\ f = filename
  /\ exists fset file file',
       ParseFile env filename = inr (fset, file)
       /\ run_tree fr = Some file'
       /\ format_Node env fset file' = inr bytes.
Proof.
  intros fr H. split; [exact (written_needs_write _ _ _ _ _ _ H)|].
  revert H. unfold fr, applyRefactorings.
  destruct (ParseFile env filename) as [e|[fset file]]; [discriminate|].
  destruct (apply_each fset filename rs file heap false [])
    as [[[[[e|] c] out] file'] heap']; [discriminate|].
  destruct c, write; cbn [andb]; try discriminate.
  destruct (format_Node env fset file') as [e|bytes'] eqn:Hfmt;
    [discriminate|].
  destruct (WriteFile env filename bytes'); cbn [run_write run_tree];
    intros [= <- <-]; (split; [reflexivity|]); by exists fset, file, file'.
Qed.

Lemma writes_the_printed_tree_witness :
  true = true /\ "a.go" = "a.go"
  /\ exists fset file file',
       ParseFile (samples.one_file_env samples.a_called) "a.go"
       = inr (fset, file)
       /\ run_tree
            (applyRefactorings (samples.one_file_env samples.a_called) true
               "a.go"
               [of_RenameFunction
                  {| RenameFunction.OldName := "a";
                     RenameFunction.NewName := "b" |}] 0)
          = Some file'
       /\ format_Node (samples.one_file_env samples.a_called) fset file'
          = inr "formatted".
Proof.
  apply (writes_the_printed_tree (samples.one_file_env samples.a_called) true
           "a.go"
           [of_RenameFunction
              {| RenameFunction.OldName := "a";
                 RenameFunction.NewName := "b" |}] 0 "a.go" "formatted").
  reflexivity.
Defined.

Lemma process_files_dry (env : Env) (rs : list Refactoring)
    (names : list string) (heap : Addr) (errs : list string) :
  Forall (fun run => run_write run.2 = None)
         (process_files env false rs names heap errs).2.
Proof.
  revert heap errs. induction names as [|name names IH]; intros heap errs.
  - constructor.
  - cbn [process_files].
    set (fr := applyRefactorings env false name rs heap).
    set (errs' := match run_err fr with
                  | Some e => _
                  | None => errs
                  end).
    specialize (IH (run_heap fr) errs').
    destruct (process_files env false rs names (run_heap fr) errs')
      as [errs'' runs].
    constructor; [|exact IH]. cbn [snd].
    destruct (run_write fr) as [x|] eqn:Hx; [|reflexivity].
    by apply written_needs_write in Hx.
Qed.

(** Without [-write] a run of the tool writes no file, whatever the
    refactorings do to the trees. *)
Theorem dry_run_writes_nothing (env : Env) (flags : Flags) (heap : Addr) :
  write flags = false ->
  Forall (fun run => run_write run.2 = None) (files (main env flags heap)).
Proof.
  intros Hdry. unfold main.
  destruct (build_refactorings flags) as [msg|rs]; [constructor|].
  case_bool_decide; [constructor|].
  destruct (goFiles env (inputDir flags) (recursive flags)) as [e|names];
    [constructor|].
  rewrite Hdry.
  pose proof (process_files_dry env rs names heap []) as Hall.
  by destruct (process_files env false rs names heap []).
Qed.

Lemma dry_run_writes_nothing_witness :
  Forall (fun run => run_write run.2 = None)
         (files (main (samples.one_file_env samples.a_called)
                      (samples.flags_rename_fn "a:b") 0)).
Proof.
  apply (dry_run_writes_nothing (samples.one_file_env samples.a_called)
           (samples.flags_rename_fn "a:b") 0).
  reflexivity.
Defined.


Lemma renames_never_fail (role : Ident -> bool) (old new : string)
    (fset : FileSet) (file : File) (heap : Addr) :
  err (rename_Apply role old new fset file heap) = None.
Proof. reflexivity. Qed.

Lemma add_parameter_never_fails (r : AddParameter.t) :
  never_fails (of_AddParameter r).
Proof.
  intros fset file heap. cbn [of_AddParameter Apply].
  unfold AddParameter.Apply.
  by destruct (AddParameter.visit_decls r (Decls file) heap).
Qed.

Ltac keeps_never_fails :=
  intros Hrs; case_bool_decide;
  [ match goal with
    | |- context [strings.Split ?s ?sep] =>
        destruct (strings.Split s sep) as [|a [|b [|c [|d l]]]]
    end;
    try discriminate; intros [= <-]; apply Forall_app; split; [exact Hrs|];
    constructor; [|constructor];
    try (by intros ? ? ?); apply add_parameter_never_fails
  | intros [= <-]; exact Hrs ].

Lemma for_renameFn_keeps (flags : Flags) (rs rs' : list Refactoring) :
  Forall never_fails rs -> for_renameFn flags rs = inr rs' ->
  Forall never_fails rs'.
Proof. unfold for_renameFn. keeps_never_fails. Qed.

Lemma for_renameType_keeps (flags : Flags) (rs rs' : list Refactoring) :
  Forall never_fails rs -> for_renameType flags rs = inr rs' ->
  Forall never_fails rs'.
Proof. unfold for_renameType. keeps_never_fails. Qed.

Lemma for_renameVar_keeps (flags : Flags) (rs rs' : list Refactoring) :
  Forall never_fails rs -> for_renameVar flags rs = inr rs' ->
  Forall never_fails rs'.
Proof. unfold for_renameVar. keeps_never_fails. Qed.

Lemma for_addParam_keeps (flags : Flags) (rs rs' : list Refactoring) :
  Forall never_fails rs -> for_addParam flags rs = inr rs' ->
  Forall never_fails rs'.
Proof. unfold for_addParam. keeps_never_fails. Qed.

Lemma built_never_fail (flags : Flags) (rs : list Refactoring) :
  build_refactorings flags = inr rs -> Forall never_fails rs.
Proof.
  unfold build_refactorings.
  destruct (for_renameFn flags []) as [|rs1] eqn:H1; [discriminate|].
  cbn [and_then].
  destruct (for_renameType flags rs1) as [|rs2] eqn:H2; [discriminate|].
  cbn [and_then].
  destruct (for_renameVar flags rs2) as [|rs3] eqn:H3; [discriminate|].
  cbn [and_then]. intros H4.
  eapply for_addParam_keeps; [|exact H4].
  eapply for_renameVar_keeps; [|exact H3].
  eapply for_renameType_keeps; [|exact H2].
  eapply for_renameFn_keeps; [|exact H1].
  constructor.
Qed.

Lemma apply_each_never_fails (fset : FileSet) (filename : string)
    (rs : list Refactoring) :
  Forall never_fails rs ->
  forall file heap c out,
    (apply_each fset filename rs file heap c out).1.1.1.1 = None.
Proof.
  induction 1 as [|r rs Hr _ IH]; intros file heap c out; [reflexivity|].
  cbn [apply_each]. rewrite (Hr fset file heap).
  destruct (changed (Apply r fset file heap)); apply IH.
Qed.

(** The refactorings built from the flags never return an error, so a
    file that parses can only fail in the print or in the write: in a dry
    run it never fails, and with [-write] the error is one of [failed to
    format file] and [failed to write file]. *)
Theorem parsed_file_fails_only_in_write (env : Env) (flags : Flags)
    (rs : list Refactoring) (filename : string) (fset : FileSet)
    (file : File) (heap : Addr) :
  build_refactorings flags = inr rs ->
  ParseFile env filename = inr (fset, file) ->
  let fr := applyRefactorings env (write flags) filename rs heap in
  (write flags = false -> run_err fr = None)
  /\ (forall e, run_err fr = Some e ->
        exists e', e = "failed to format file: " +:+ e'
                   \/ e = "failed to write file: " +:+ e').
Proof.
  intros Hbuild Hparse fr. unfold fr, applyRefactorings. rewrite Hparse.
  pose proof (apply_each_never_fails fset filename rs
                (built_never_fail flags rs Hbuild) file heap false []) as Hok.
  destruct (apply_each fset filename rs file heap false [])
    as [[[[o c] out] file'] heap'].
  cbn [fst] in Hok. subst o.
  destruct c, (write flags); cbn [andb];
    [|split; [done|intros e; discriminate]..].
  destruct (format_Node env fset file') as [e1|bytes].
  - cbn [run_err]. split; [done|]. intros ? [= <-]. exists e1. by left.
  - destruct (WriteFile env filename bytes) as [e2|]; cbn [run_err].
    + split; [done|]. intros ? [= <-]. exists e2. by right.
    + split; [done|intros e3; discriminate].
Qed.

Lemma parsed_file_fails_only_in_write_witness :
  run_err (applyRefactorings (samples.one_file_env samples.a_called)
             (write (samples.flags_rename_fn "a:b")) "a.go"
             [of_RenameFunction
                {| RenameFunction.OldName := "a";
                   RenameFunction.NewName := "b" |}] 0) = None.
Proof.
  apply (parsed_file_fails_only_in_write
           (samples.one_file_env samples.a_called)
           (samples.flags_rename_fn "a:b")
           [of_RenameFunction
              {| RenameFunction.OldName := "a";
                 RenameFunction.NewName := "b" |}]
           "a.go" samples.fset samples.a_called 0);
    reflexivity.
Defined.

(** *** main *)

Lemma process_files_runs (env : Env) (write : bool) (rs : list Refactoring)
    (names : list string) (heap : Addr) (errs : list string) :
  let r := process_files env write rs names heap errs in
  map fst r.2 = names
  /\ length r.1
     = length errs + length (List.filter (fun run => failed run.2) r.2).
Proof.
  revert heap errs. induction names as [|name names IH]; intros heap errs.
  - cbn. split; [reflexivity|lia].
  - cbn [process_files].
    set (fr := applyRefactorings env write name rs heap).
    set (errs' := match run_err fr with
                  | Some e => _
                  | None => errs
                  end).
    assert (length errs' = length errs + (if failed fr then 1 else 0))
      as Hlen.
    { unfold errs', failed. destruct (run_err fr).
      - rewrite length_app. reflexivity.
      - lia. }
    specialize (IH (run_heap fr) errs'). cbv zeta in IH.
    destruct (process_files env write rs names (run_heap fr) errs')
      as [errs'' runs].
    cbv zeta. cbn [fst snd map List.filter] in *.
    destruct IH as [IHn IHe]. split; [by rewrite IHn|].
    rewrite IHe, Hlen. destruct (failed fr); cbn [length]; lia.
Qed.

(** Once the refactorings are built and the walk has succeeded, [main]
    runs [applyRefactorings] on every file found, in order, also after a
    file has failed; each failure is one line on standard error, and the
    exit code is 0 whatever happened to the files. *)
Theorem failures_do_not_stop_main (env : Env) (flags : Flags) (heap : Addr)
    (rs : list Refactoring) (names : list string) :
  build_refactorings flags = inr rs -> rs <> [] ->
  goFiles env (inputDir flags) (recursive flags) = inr names ->
  let run := main env flags heap in
  exit_code run = 0
  /\ map fst (files run) = names
  /\ length (stderr run)
     = length (List.filter (fun r => failed r.2) (files run)).
Proof.
  intros Hbuild Hne Hwalk run. unfold run, main. rewrite Hbuild, Hwalk.
  rewrite bool_decide_eq_false_2 by (by destruct rs).
  pose proof (process_files_runs env (write flags) rs names heap []) as H.
  cbv zeta in H.
  destruct (process_files env (write flags) rs names heap [])
    as [errs runs].
  cbn [exit_code files stderr fst snd length] in *. by split.
Qed.

Lemma failures_do_not_stop_main_witness :
  exit_code (main samples.nothing_parses (samples.flags_rename_fn "a:b") 0)
  = 0
  /\ map fst (files (main samples.nothing_parses
                          (samples.flags_rename_fn "a:b") 0))
     = ["a.go"; "a_test.go"; "z.go"]
  /\ length (stderr (main samples.nothing_parses
                          (samples.flags_rename_fn "a:b") 0))
     = length (List.filter (fun r => failed r.2)
                 (files (main samples.nothing_parses
                              (samples.flags_rename_fn "a:b") 0))).
Proof.
  apply (failures_do_not_stop_main samples.nothing_parses
           (samples.flags_rename_fn "a:b") 0
           [of_RenameFunction
              {| RenameFunction.OldName := "a";
                 RenameFunction.NewName := "b" |}]
           ["a.go"; "a_test.go"; "z.go"]).
  - reflexivity.
  - discriminate.
  - reflexivity.
Defined.

Lemma not_three_parts {A B : Type} (l : list A) (f : A -> A -> A -> B)
    (b : B) :
  Nat.eqb (length l) 3 = false ->
  match l with
  | [x; y; z] => f x y z
  | _ => b
  end = b.
Proof. by destruct l as [|x [|y [|z [|w l]]]]. Qed.

Lemma for_addParam_rejects (flags : Flags) (rs : list Refactoring) :
  wrong_arity3 (addParam flags) = true ->
  for_addParam flags rs
  = inl "Invalid format for -add-param, expected 'function:name:type'".
Proof.
  unfold wrong_arity3, for_addParam. intros H.
  apply andb_true_iff in H as [Hne Hlen].
  apply negb_true_iff in Hne, Hlen.
  apply bool_decide_eq_false in Hne.
  rewrite bool_decide_eq_true_2 by exact Hne.
  by apply not_three_parts.
Qed.

(** An [-add-param] flag that is given and does not split on the colon
    into exactly three parts stops the tool before any file is looked at:
    exit code 1, one message on standard error, no file parsed.  Whether
    the three parts are empty is not looked at. *)
Theorem add_param_arity_rejected (env : Env) (flags : Flags) (heap : Addr) :
  wrong_arity3 (addParam flags) = true ->
  exists msg,
    build_refactorings flags = inl msg
    /\ main env flags heap
       = {| exit_code := 1; stderr := [msg]; files := [] |}.
Proof.
  intros H.
  assert (exists msg, build_refactorings flags = inl msg) as [msg Hmsg].
  { unfold build_refactorings.
    destruct (for_renameFn flags []) as [m|rs1]; [by eexists|].
    cbn [and_then].
    destruct (for_renameType flags rs1) as [m|rs2]; [by eexists|].
    cbn [and_then].
    destruct (for_renameVar flags rs2) as [m|rs3]; [by eexists|].
    cbn [and_then]. rewrite for_addParam_rejects by exact H. by eexists. }
  exists msg. split; [exact Hmsg|]. unfold main. by rewrite Hmsg.
Qed.

Lemma add_param_arity_rejected_witness :
  exists msg,
    build_refactorings
      (with_extractMethod EmptyString
         {| inputDir := "."; recursive := false; renameFn := EmptyString;
            renameType := EmptyString; renameVar := EmptyString;
            extractMethod := EmptyString; addParam := "f:ctx";
            write := true |}) = inl msg
    /\ main (samples.one_file_env samples.a_called)
         (with_extractMethod EmptyString
            {| inputDir := "."; recursive := false; renameFn := EmptyString;
               renameType := EmptyString; renameVar := EmptyString;
               extractMethod := EmptyString; addParam := "f:ctx";
               write := true |}) 0
       = {| exit_code := 1; stderr := [msg]; files := [] |}.
Proof.
  apply (add_param_arity_rejected (samples.one_file_env samples.a_called)
           (with_extractMethod EmptyString
              {| inputDir := "."; recursive := false;
                 renameFn := EmptyString; renameType := EmptyString;
                 renameVar := EmptyString; extractMethod := EmptyString;
                 addParam := "f:ctx"; write := true |}) 0).
  reflexivity.
Defined.

(** The flag [-extract-method] is declared and never read: a run does the
    same whatever its value, and when it is the only refactoring flag
    given, the tool exits with 1 having looked at no file, with the usage
    text of [flag.Usage()] on standard error. *)
Theorem extract_method_is_ignored (env : Env) (flags : Flags) (heap : Addr)
    (spec : string) :
  main env (with_extractMethod spec flags) heap = main env flags heap
  /\ (nothing_asked flags = true ->
      main env (with_extractMethod spec flags) heap
      = {| exit_code := 1; stderr := [Usage env]; files := [] |}).
Proof.
  split; [reflexivity|].
  unfold nothing_asked. rewrite !andb_true_iff.
  intros [[[Hfn Hty] Hvar] Hadd].
  apply bool_decide_eq_true in Hfn, Hty, Hvar, Hadd.
  unfold main, build_refactorings, for_renameFn, for_renameType,
    for_renameVar, for_addParam, with_extractMethod.
  cbn [renameFn renameType renameVar addParam].
  rewrite Hfn, Hty, Hvar, Hadd. reflexivity.
Qed.

Lemma extract_method_is_ignored_witness :
  main (samples.one_file_env samples.a_called)
       (with_extractMethod "a.go:1:2:helper"
          (samples.flags_rename_fn EmptyString)) 0
  = {| exit_code := 1; stderr := ["Usage of refactoring_tool:"];
       files := [] |}.
Proof.
  apply (extract_method_is_ignored (samples.one_file_env samples.a_called)
           (samples.flags_rename_fn EmptyString) 0 "a.go:1:2:helper").
  reflexivity.
Defined.

(** *** The files main processes *)

Lemma collect_dir (inputDir : string) (recursive : bool) (path : string)
    (s : list string) :
  collect inputDir recursive path
    (filepath.Reached (filepath.mkFileInfo true)) s
  = if negb recursive && negb (String.eqb path inputDir)
    then (s, Some filepath.SkipDir) else (s, None).
Proof.
  unfold collect. cbn [filepath.IsDir andb negb].
  by destruct recursive, (String.eqb path inputDir).
Qed.

Lemma collect_file (inputDir : string) (recursive : bool) (path : string)
    (s : list string) :
  collect inputDir recursive path
    (filepath.Reached (filepath.mkFileInfo false)) s
  = (if is_go path then s ++ [path] else s, None).
Proof.
  unfold collect, is_go. cbn [filepath.IsDir andb negb].
  by destruct (strings.HasSuffix path ".go").
Qed.

(** When it meets no error, the walk of the refactoring tool finds every
    file whose path ends in [.go], test files included, in the order of
    the walk: those of the whole tree with [-recursive], those right below
    the directory without. *)
Theorem processes_go_files_and_tests (fs : filepath.FileSystem)
    (inputDir : string) (recursive : bool) :
  filepath.walkable recursive inputDir (fs inputDir) = true ->
  walk_goFiles fs inputDir recursive
  = inr (List.filter is_go
           (filepath.found recursive inputDir (fs inputDir))).
Proof.
  intros H. unfold walk_goFiles.
  rewrite (walk_facts.Walk_found is_go inputDir recursive
             (collect inputDir recursive)); [reflexivity| | |exact H].
  - apply collect_dir.
  - apply collect_file.
Qed.

Lemma processes_go_files_and_tests_witness :
  walk_goFiles samples.disk "." true
  = inr ["a.go"; "a_test.go"; "sub/b.go"; "z.go"]
  /\ walk_goFiles samples.disk "." false
     = inr ["a.go"; "a_test.go"; "z.go"].
Proof.
  split.
  - apply (processes_go_files_and_tests samples.disk "." true). reflexivity.
  - apply (processes_go_files_and_tests samples.disk "." false). reflexivity.
Defined.

(** When the walk meets something it cannot read, the refactoring tool
    stops with exit code 1 and the error of the walk on standard error; no
    file is parsed, the files found before the error are dropped. *)
Theorem unreadable_stops_refactoring (fs : filepath.FileSystem)
    (parse : string -> string + (FileSet * File))
    (print : FileSet -> File -> string + string)
    (writeFile : string -> string -> option string) (usage : string)
    (flags : Flags) (rs : list Refactoring) (heap : Addr) :
  build_refactorings flags = inr rs -> rs <> [] ->
  filepath.walkable (recursive flags) (inputDir flags) (fs (inputDir flags))
  = false ->
  filepath.distinct_dirs (recursive flags) (inputDir flags)
    (fs (inputDir flags)) = true ->
  exists msg,
    main (on_file_system fs parse print writeFile usage) flags heap
    = {| exit_code := 1; stderr := ["Error walking directory: " +:+ msg];
         files := [] |}.
Proof.
  intros Hbuild Hne H Hd.
  destruct (walk_facts.Walk_stops is_go (inputDir flags) (recursive flags)
              (collect (inputDir flags) (recursive flags)))
    with (r := fs (inputDir flags)) as (s & msg & Hwalk);
    [| | |exact H|exact Hd|].
  - by intros path info err s.
  - apply collect_dir.
  - apply collect_file.
  - exists msg. unfold main. rewrite Hbuild.
    rewrite bool_decide_eq_false_2 by (by destruct rs).
    cbn [on_file_system goFiles]. unfold walk_goFiles. by rewrite Hwalk.
Qed.

Lemma unreadable_stops_refactoring_witness :
  exists msg,
    main (on_file_system samples.locked_disk samples.parse_disk
            (fun _ _ => inr "formatted") (fun _ _ => None)
            "Usage of refactoring_tool:")
         (samples.flags_rename_fn "a:b") 0
    = {| exit_code := 1; stderr := ["Error walking directory: " +:+ msg];
         files := [] |}.
Proof.
  apply (unreadable_stops_refactoring samples.locked_disk samples.parse_disk
           (fun _ _ => inr "formatted") (fun _ _ => None)
           "Usage of refactoring_tool:"
           (samples.flags_rename_fn "a:b")
           [of_RenameFunction
              {| RenameFunction.OldName := "a";
                 RenameFunction.NewName := "b" |}] 0).
  - reflexivity.
  - discriminate.
  - reflexivity.
  - reflexivity.
Defined.

End refactor_more.

(** ** Trimming, splitting and joining *)

Module strings_facts.

Import strings.

Lemma append_nil_l (s : string) : EmptyString +:+ s = s.
Proof. reflexivity. Qed.

Lemma append_cons (c : ascii) (s t : string) :
  String c s +:+ t = String c (s +:+ t).
Proof. reflexivity. Qed.

Lemma append_nil_r (s : string) : s +:+ EmptyString = s.
Proof.
  induction s as [|c s IH]; [reflexivity|]. by rewrite append_cons, IH.
Qed.

Lemma append_assoc (s t u : string) : (s +:+ t) +:+ u = s +:+ (t +:+ u).
Proof.
  induction s as [|c s IH]; [reflexivity|]. by rewrite !append_cons, IH.
Qed.

Lemma free_of_append (c : ascii) (s t : string) :
  free_of c (s +:+ t) = free_of c s && free_of c t.
Proof.
  induction s as [|d s IH]; [reflexivity|].
  rewrite append_cons. cbn [free_of]. by rewrite IH, andb_assoc.
Qed.

Lemma free_of_Join (c : ascii) (parts : list string) (sep : string) :
  forallb (free_of c) parts = true -> free_of c sep = true ->
  free_of c (Join parts sep) = true.
Proof.
  intros Hparts Hsep. induction parts as [|p parts IH]; [reflexivity|].
  cbn [forallb] in Hparts. apply andb_true_iff in Hparts as [Hp Hparts].
  destruct parts as [|q parts]; [exact Hp|].
  change (Join (p :: q :: parts) sep)
    with (p +:+ sep +:+ Join (q :: parts) sep).
  rewrite !free_of_append, Hp, Hsep. by apply IH.
Qed.

Lemma HasPrefix_nil (s : string) : HasPrefix s EmptyString = true.
Proof. by destruct s. Qed.

Lemma HasPrefix_append (p s : string) : HasPrefix (p +:+ s) p = true.
Proof.
  induction p as [|c p IH]; [apply HasPrefix_nil|].
  rewrite append_cons. cbn [HasPrefix]. by rewrite Ascii.eqb_refl.
Qed.

Lemma drop_bytes_append (p s : string) :
  drop_bytes (String.length p) (p +:+ s) = s.
Proof.
  induction p as [|c p IH]; [by destruct s|].
  rewrite append_cons. exact IH.
Qed.

(** Trimming a quote character off both ends of a quoted string that has
    none inside gives the string. *)
Lemma TrimRight_quoted (q : ascii) (s : string) :
  free_of q s = true ->
  TrimRight (s +:+ String q EmptyString) (String q EmptyString) = s.
Proof.
  induction s as [|c s IH]; intros H.
  - rewrite append_nil_l. cbn [TrimRight contains_byte].
    by rewrite Ascii.eqb_refl.
  - cbn [free_of] in H. apply andb_true_iff in H as [Hc Hs].
    apply negb_true_iff in Hc.
    rewrite append_cons. cbn [TrimRight]. rewrite (IH Hs).
    destruct s; [|reflexivity]. cbn [contains_byte]. by rewrite Hc.
Qed.

Lemma Trim_quoted (q : ascii) (s : string) :
  free_of q s = true ->
  Trim (String q (s +:+ String q EmptyString)) (String q EmptyString) = s.
Proof.
  intros H. unfold Trim. cbn [TrimLeft contains_byte].
  rewrite Ascii.eqb_refl.
  destruct s as [|c s].
  - rewrite append_nil_l. cbn [TrimLeft TrimRight contains_byte].
    by rewrite Ascii.eqb_refl.
  - rewrite append_cons. cbn [TrimLeft contains_byte].
    pose proof H as H'. cbn [free_of] in H'.
    apply andb_true_iff in H' as [Hc _]. apply negb_true_iff in Hc.
    rewrite Hc, <- append_cons.
    by apply TrimRight_quoted.
Qed.

(** Splitting on a one-byte separator. *)
Lemma Split_from_free (c : ascii) (cur s : string) :
  free_of c s = true ->
  Split_from (String c EmptyString) 0 cur s = [cur +:+ s].
Proof.
  revert cur. induction s as [|d s IH]; intros cur H.
  - cbn [Split_from]. by rewrite append_nil_r.
  - cbn [free_of] in H. apply andb_true_iff in H as [Hd Hs].
    apply negb_true_iff in Hd.
    cbn [Split_from HasPrefix]. rewrite Hd, (IH _ Hs), append_assoc.
    reflexivity.
Qed.

Lemma Split_from_first (c : ascii) (cur s more : string) :
  free_of c s = true ->
  Split_from (String c EmptyString) 0 cur (s +:+ String c more)
  = (cur +:+ s)
    :: Split_from (String c EmptyString) 0 EmptyString more.
Proof.
  revert cur. induction s as [|d s IH]; intros cur H.
  - rewrite append_nil_l. cbn [Split_from HasPrefix].
    rewrite Ascii.eqb_refl, HasPrefix_nil.
    by rewrite append_nil_r.
  - cbn [free_of] in H. apply andb_true_iff in H as [Hd Hs].
    apply negb_true_iff in Hd.
    rewrite append_cons.
    cbn [Split_from HasPrefix]. rewrite Hd, (IH _ Hs), append_assoc.
    reflexivity.
Qed.

Lemma Split_Join (c : ascii) (parts : list string) :
  forallb (free_of c) parts = true -> parts <> [] ->
  Split (Join parts (String c EmptyString)) (String c EmptyString) = parts.
Proof.
  unfold Split. intros Hparts Hne.
  induction parts as [|p parts IH]; [done|].
  cbn [forallb] in Hparts. apply andb_true_iff in Hparts as [Hp Hparts].
  destruct parts as [|q parts].
  - cbn [Join]. by rewrite Split_from_free.
  - change (Join (p :: q :: parts) (String c EmptyString))
      with (p +:+ String c (Join (q :: parts) (String c EmptyString))).
    rewrite Split_from_first by exact Hp. rewrite append_nil_l.
    f_equal. by apply IH.
Qed.

End strings_facts.

(** ** More on the code generator *)

Module codegen_more.

Import token ast codegen codegen_facts strings_facts.

(** *** Struct tags *)

Lemma find_first {A : Type} (f : A -> bool) (before after : list A) (x : A) :
  forallb (fun y => negb (f y)) before = true -> f x = true ->
  List.find f (before ++ x :: after) = Some x.
Proof.
  intros Hb Hx. induction before as [|y before IH]; cbn.
  - by rewrite Hx.
  - cbn [forallb] in Hb. apply andb_true_iff in Hb as [Hy Hb].
    apply negb_true_iff in Hy. rewrite Hy. by apply IH.
Qed.

(** In a struct tag made of pieces without spaces and back quotes, set
    between back quotes and separated by single spaces, the value found
    for a key is that of the first piece that starts with the key and a
    colon, without its quotes and without the options after the first
    comma. *)
Theorem tag_value_round_trip (before after : list string)
    (key value : string) (options : list string) :
  forallb tag_part (before ++ tag_pair key value options :: after) = true ->
  forallb (fun part => negb (strings.HasPrefix part (key +:+ ":"))) before
  = true ->
  forallb unquoted (value :: options) = true ->
  strings.free_of "," value = true ->
  extractTagValue
    (strings.bquote
     +:+ strings.Join (before ++ tag_pair key value options :: after) " "
     +:+ strings.bquote) key
  = value.
Proof.
  intros Hparts Hbefore Hquotes Hcomma. unfold extractTagValue.
  set (parts := before ++ tag_pair key value options :: after) in *.
  assert (forallb (strings.free_of " ") parts = true
          /\ forallb (strings.free_of "`") parts = true) as [Hsp Hbq].
  { clear -Hparts. induction parts as [|p parts IH]; [done|].
    cbn [forallb] in *. apply andb_true_iff in Hparts as [Hp Hrest].
    unfold tag_part in Hp. apply andb_true_iff in Hp as [-> ->].
    destruct (IH Hrest) as [-> ->]. done. }
  change (strings.bquote +:+ strings.Join parts " " +:+ strings.bquote)
    with (String "`" (strings.Join parts " " +:+ String "`" EmptyString)).
  change strings.bquote with (String "`" EmptyString).
  rewrite Trim_quoted by (by apply free_of_Join).
  rewrite Split_Join; [|exact Hsp|by destruct before].
  assert (tag_pair key value options
          = (key +:+ ":")
            +:+ String (ascii_of_nat 34)
                  (strings.Join (value :: options) ","
                   +:+ String (ascii_of_nat 34) EmptyString)) as Hpair.
  { unfold tag_pair. by rewrite append_assoc. }
  unfold parts. rewrite find_first; [|exact Hbefore|].
  2: { rewrite Hpair. apply HasPrefix_append. }
  rewrite Hpair, drop_bytes_append.
  change strings.dquote with (String (ascii_of_nat 34) EmptyString).
  rewrite Trim_quoted by (by apply free_of_Join).
  destruct options as [|o options].
  - cbn [strings.Join]. unfold strings.Split.
    by rewrite Split_from_free.
  - change (strings.Join (value :: o :: options) ",")
      with (value +:+ String "," (strings.Join (o :: options) ",")).
    unfold strings.Split. by rewrite Split_from_first.
Qed.

Lemma tag_value_round_trip_witness :
  extractTagValue
    (strings.bquote
     +:+ strings.Join
           ([tag_pair "json" "id" ["omitempty"]]
            ++ tag_pair "db" "user_id" [] :: ["validate:required"]) " "
     +:+ strings.bquote) "db"
  = "user_id".
Proof.
  apply (tag_value_round_trip [tag_pair "json" "id" ["omitempty"]]
           ["validate:required"] "db" "user_id" []);
    reflexivity.
Defined.

(** *** ExtractStructs *)

Section extraction.

Variable ToLower : string -> string.
Variable format_Node : FileSet -> OptExpr -> string + string.
Variable fset : FileSet.

Lemma outline_add_method (m : MethodInfo.t) (s : StructInfo.t) :
  outline (add_method m s) = outline s.
Proof. reflexivity. Qed.

Lemma outline_spec_structs (doc : option CommentGroup) (specs : list Spec) :
  map outline (flat_map (spec_structs ToLower format_Node fset doc) specs)
  = flat_map
      (fun spec =>
         match spec with
         | TypeSpec _ name _ (StructType _ (mkFieldList _ fields _)) _ =>
             [(Name name, first_names (fields_list fields))]
         | _ => []
         end) specs.
Proof.
  induction specs as [|spec specs IH]; [reflexivity|].
  cbn [flat_map]. rewrite map_app, IH. f_equal.
  destruct spec as [| |doc' name tparams ty comment]; try reflexivity.
  destruct ty; try reflexivity.
  match goal with
  | |- context [StructType _ ?fl] => destruct fl as [o fields c]
  end.
  cbn [spec_structs map]. unfold outline at 1.
  cbn [StructInfo.Name StructInfo.Fields].
  by rewrite extracted_field_names.
Qed.

(** One declaration leaves the outlines of the shapes found so far as
    they are and appends those of the struct types it declares. *)
Lemma extract_decl_outline (decl : Decl) (structs structs' : list StructInfo.t) :
  extract_decl ToLower format_Node fset decl structs = Returns structs' ->
  map outline structs' = map outline structs ++ declared_structs decl.
Proof.
  destruct decl as [|[doc pos tok specs]|doc recv name ty body];
    cbn [extract_decl declared_structs].
  - intros [= <-]. by rewrite app_nil_r.
  - case_bool_decide; intros [= <-].
    + by rewrite map_app, outline_spec_structs.
    + by rewrite app_nil_r.
  - destruct recv as [|[o recvs c]]; [intros [= <-]; by rewrite app_nil_r|].
    destruct recvs as [|recv more]; [discriminate|].
    cbv zeta. case_bool_decide; intros [= <-]; rewrite app_nil_r;
      [|reflexivity].
    rewrite map_map. apply map_ext. intros s.
    by case_bool_decide.
Qed.

Lemma extract_decls_outline (decls : list Decl)
    (structs structs' : list StructInfo.t) :
  extract_decls ToLower format_Node fset decls structs = Returns structs' ->
  map outline structs'
  = map outline structs ++ flat_map declared_structs decls.
Proof.
  revert structs. induction decls as [|decl decls IH]; intros structs.
  - intros [= <-]. by rewrite app_nil_r.
  - cbn [extract_decls flat_map].
    destruct (extract_decl ToLower format_Node fset decl structs)
      as [structs1|msg] eqn:H1; [|discriminate].
    intros H. rewrite (IH _ H), (extract_decl_outline _ _ _ H1).
    by rewrite app_assoc.
Qed.

Lemma extract_decl_panics (decl : Decl) (structs : list StructInfo.t) :
  (exists msg,
     extract_decl ToLower format_Node fset decl structs = Panics msg)
  <-> no_receiver decl = true.
Proof.
  destruct decl as [|[doc pos tok specs]|doc recv name ty body];
    cbn [extract_decl no_receiver].
  - split; [intros [msg [=]]|discriminate].
  - case_bool_decide; (split; [intros [msg [=]]|discriminate]).
  - destruct recv as [|[o recvs c]];
      [split; [intros [msg [=]]|discriminate]|].
    destruct recvs as [|recv more].
    + split; [done|]. intros _. by eexists.
    + cbv zeta. case_bool_decide; (split; [intros [msg [=]]|discriminate]).
Qed.

Lemma extract_decls_panics (decls : list Decl) (structs : list StructInfo.t) :
  (exists msg,
     extract_decls ToLower format_Node fset decls structs = Panics msg)
  <-> existsb no_receiver decls = true.
Proof.
  revert structs. induction decls as [|decl decls IH]; intros structs.
  - cbn. split; [intros [msg [=]]|discriminate].
  - cbn [extract_decls existsb]. rewrite orb_true_iff.
    rewrite <- (extract_decl_panics decl structs).
    destruct (extract_decl ToLower format_Node fset decl structs)
      as [structs1|msg] eqn:H1.
    + rewrite (IH structs1). split; [by right|].
      intros [[msg [=]]|H]; exact H.
    + split; [intros _; left|intros _]; by eexists.
Qed.

Lemma extract_decls_app (before after : list Decl)
    (structs : list StructInfo.t) :
  extract_decls ToLower format_Node fset (before ++ after) structs
  = match extract_decls ToLower format_Node fset before structs with
    | Returns structs' =>
        extract_decls ToLower format_Node fset after structs'
    | Panics msg => Panics msg
    end.
Proof.
  revert structs. induction before as [|decl before IH]; intros structs;
    [reflexivity|].
  cbn [app extract_decls].
  destruct (extract_decl ToLower format_Node fset decl structs);
    [apply IH|reflexivity].
Qed.

(** A method whose receiver type names none of the shapes found so far
    changes nothing. *)
Lemma method_of_unknown_type (decl : Decl) (structs : list StructInfo.t)
    (recvType name : string) :
  declared_method decl = Some (recvType, name) ->
  recvType ∉ map StructInfo.Name structs ->
  extract_decl ToLower format_Node fset decl structs = Returns structs.
Proof.
  destruct decl as [|g|doc recv fname ty body]; try discriminate.
  destruct recv as [|[o recvs c]]; [discriminate|].
  destruct recvs as [|recv more]; [discriminate|].
  cbn [declared_method extract_decl]. intros [= <- <-] Hnot. cbv zeta.
  case_bool_decide; [|reflexivity]. f_equal.
  induction structs as [|s structs IH]; [reflexivity|].
  cbn [map] in *. apply not_elem_of_cons in Hnot as [Hs Hnot].
  rewrite bool_decide_eq_false_2 by congruence. by rewrite IH.
Qed.

(** One declaration keeps the methods of every shape among those the
    declarations seen so far declare for it. *)
Lemma extract_decl_methods (seen : list Decl) (decl : Decl)
    (structs structs' : list StructInfo.t) :
  Forall (methods_declared_in seen) structs ->
  extract_decl ToLower format_Node fset decl structs = Returns structs' ->
  Forall (methods_declared_in (seen ++ [decl])) structs'.
Proof.
  intros Hinv.
  assert (Forall (methods_declared_in (seen ++ [decl])) structs) as Hinv'.
  { eapply Forall_impl; [exact Hinv|]. intros s Hs m Hm.
    destruct (Hs m Hm) as (d & Hd & Hdecl). exists d.
    split; [|exact Hdecl]. apply elem_of_app. by left. }
  destruct decl as [|[doc pos tok specs]|doc recv name ty body];
    cbn [extract_decl].
  - by intros [= <-].
  - case_bool_decide; intros [= <-]; [|exact Hinv'].
    apply Forall_app. split; [exact Hinv'|].
    apply Forall_forall. intros s Hs m Hm. exfalso.
    apply list_elem_of_In, in_flat_map in Hs as (spec & _ & Hs).
    destruct spec as [| |doc' tname tparams tty comment];
      try (by destruct Hs).
    destruct tty; try (by destruct Hs).
    match type of Hs with
    | context [StructType _ ?fl] => destruct fl as [o fields c]
    end.
    destruct Hs as [<-|[]]. cbn [StructInfo.Methods] in Hm.
    by apply elem_of_nil in Hm.
  - destruct recv as [|[o recvs c]]; [by intros [= <-]|].
    destruct recvs as [|recv more]; [discriminate|].
    cbv zeta. case_bool_decide; intros [= <-]; [|exact Hinv'].
    apply Forall_fmap. eapply Forall_impl; [exact Hinv'|].
    intros s Hs. unfold compose. case_bool_decide as Hname; [|exact Hs].
    intros m Hm. cbn [add_method StructInfo.Methods StructInfo.Name] in *.
    apply elem_of_app in Hm as [Hm|Hm]; [by apply Hs|].
    apply list_elem_of_singleton in Hm as ->.
    eexists. split; [apply elem_of_app; right; by left|].
    cbn [declared_method]. rewrite Hname.
    by destruct ty.
Qed.

Lemma extract_decls_methods (seen decls : list Decl)
    (structs structs' : list StructInfo.t) :
  Forall (methods_declared_in seen) structs ->
  extract_decls ToLower format_Node fset decls structs = Returns structs' ->
  Forall (methods_declared_in (seen ++ decls)) structs'.
Proof.
  revert seen structs. induction decls as [|decl decls IH];
    intros seen structs Hinv.
  - intros [= <-]. by rewrite app_nil_r.
  - cbn [extract_decls].
    destruct (extract_decl ToLower format_Node fset decl structs)
      as [structs1|msg] eqn:H1; [|discriminate].
    intros H. replace (seen ++ decl :: decls) with ((seen ++ [decl]) ++ decls)
      by (by rewrite <- app_assoc).
    eapply IH; [|exact H]. by eapply extract_decl_methods.
Qed.

End extraction.

(** What [ExtractStructs] returns for a file that parses: no error, the
    package name, and one shape for each struct type of the file's type
    declarations, in the order of the declarations, with the first name of
    each field declaration.  Methods and other declarations add and remove
    no shape. *)
Theorem extracts_declared_structs (ToLower : string -> string)
    (format_Node : FileSet -> OptExpr -> string + string)
    (parse : string -> string + (FileSet * File)) (filename : string)
    (fset : FileSet) (file : File) (structs : list StructInfo.t)
    (pkgName : string) (e : option string) :
  parse filename = inr (fset, file) ->
  ExtractStructs ToLower format_Node parse filename
  = Returns (structs, pkgName, e) ->
  e = None /\ pkgName = Name (FileName file)
  /\ map outline structs = flat_map declared_structs (Decls file).
Proof.
  intros Hparse. unfold ExtractStructs. rewrite Hparse.
  destruct (extract_decls ToLower format_Node fset (Decls file) [])
    as [structs'|msg] eqn:H; [|discriminate].
  intros [= <- <- <-]. split; [reflexivity|]. split; [reflexivity|].
  by rewrite (extract_decls_outline _ _ _ _ _ _ H).
Qed.

Lemma extracts_declared_structs_witness :
  exists structs,
    ExtractStructs id samples.print_type
      (samples.parse samples.methods_around) "m.go"
    = Returns (structs, "m", None)
    /\ map outline structs = [("T", ["A"])].
Proof.
  eexists. split; [reflexivity|].
  apply (extracts_declared_structs id samples.print_type
           (samples.parse samples.methods_around) "m.go" samples.fset
           samples.methods_around _ "m" None);
    reflexivity.
Defined.

(** [ExtractStructs] ends in a run-time panic exactly when the file
    parses and holds a method declaration whose receiver list is empty:
    the first receiver is read without a look at the length of the list. *)
Theorem panics_on_empty_receiver (ToLower : string -> string)
    (format_Node : FileSet -> OptExpr -> string + string)
    (parse : string -> string + (FileSet * File)) (filename : string) :
  (exists msg,
     ExtractStructs ToLower format_Node parse filename = Panics msg)
  <-> exists fset file,
        parse filename = inr (fset, file)
        /\ existsb no_receiver (Decls file) = true.
Proof.
  unfold ExtractStructs.
  destruct (parse filename) as [e|[fset file]].
  - split; [intros [msg [=]]|intros (? & ? & [=] & _)].
  - pose proof (extract_decls_panics ToLower format_Node fset (Decls file) [])
      as Hiff.
    destruct (extract_decls ToLower format_Node fset (Decls file) [])
      as [structs|msg].
    + split; [intros [msg [=]]|].
      intros (fset' & file' & [= <- <-] & Hex).
      apply Hiff in Hex as [msg [=]].
    + split; intros _; [|by eexists].
      exists fset, file. split; [reflexivity|]. apply Hiff. by eexists.
Qed.

Lemma panics_on_empty_receiver_witness :
  exists msg,
    ExtractStructs id samples.print_type
      (samples.parse samples.no_receiver) "m.go" = Panics msg.
Proof.
  apply (panics_on_empty_receiver id samples.print_type
           (samples.parse samples.no_receiver) "m.go").
  exists samples.fset, samples.no_receiver. split; reflexivity.
Defined.

(** A method declared above the struct type it belongs to (or for a type
    that is no struct of the file) is lost: the shapes are those of the
    file without the method declaration. *)
Theorem method_above_its_struct_is_lost (ToLower : string -> string)
    (format_Node : FileSet -> OptExpr -> string + string) (fset : FileSet)
    (before after : list Decl) (method : Decl) (recvType name : string) :
  declared_method method = Some (recvType, name) ->
  recvType ∉ map fst (flat_map declared_structs before) ->
  extract_decls ToLower format_Node fset (before ++ method :: after) []
  = extract_decls ToLower format_Node fset (before ++ after) [].
Proof.
  intros Hmethod Hnot. rewrite !extract_decls_app.
  destruct (extract_decls ToLower format_Node fset before [])
    as [structs|msg] eqn:Hbefore; [|reflexivity].
  cbn [extract_decls].
  rewrite (method_of_unknown_type ToLower format_Node fset method structs
             recvType name Hmethod); [reflexivity|].
  apply extract_decls_outline in Hbefore. cbn [map app] in Hbefore.
  rewrite <- Hbefore, map_map in Hnot. exact Hnot.
Qed.

Lemma method_above_its_struct_is_lost_witness :
  extract_decls id samples.print_type samples.fset
    ([] ++ samples.method 10 20 "Early" (IdentExpr (samples.free 12 25 "T"))
        :: [samples.T_struct])
    []
  = extract_decls id samples.print_type samples.fset
      ([] ++ [samples.T_struct]) [].
Proof.
  apply (method_above_its_struct_is_lost id samples.print_type samples.fset
           [] [samples.T_struct]
           (samples.method 10 20 "Early"
              (IdentExpr (samples.free 12 25 "T")))
           "T" "Early").
  - reflexivity.
  - apply not_elem_of_nil.
Defined.

(** Every method in a shape comes from a method declaration of the file
    whose first receiver has the type of the shape, as a value or behind a
    pointer, and bears the name of that declaration. *)
Theorem methods_belong_to_their_struct (ToLower : string -> string)
    (format_Node : FileSet -> OptExpr -> string + string)
    (parse : string -> string + (FileSet * File)) (filename : string)
    (fset : FileSet) (file : File) (structs : list StructInfo.t)
    (pkgName : string) (e : option string) :
  parse filename = inr (fset, file) ->
  ExtractStructs ToLower format_Node parse filename
  = Returns (structs, pkgName, e) ->
  Forall (methods_declared_in (Decls file)) structs.
Proof.
  intros Hparse. unfold ExtractStructs. rewrite Hparse.
  destruct (extract_decls ToLower format_Node fset (Decls file) [])
    as [structs'|msg] eqn:H; [|discriminate].
  intros [= <- <- <-].
  apply (extract_decls_methods ToLower format_Node fset [] (Decls file) []);
    [constructor|exact H].
Qed.

Lemma methods_belong_to_their_struct_witness :
  exists structs,
    ExtractStructs id samples.print_type
      (samples.parse samples.methods_around) "m.go"
    = Returns (structs, "m", None)
    /\ Forall (methods_declared_in (Decls samples.methods_around)) structs.
Proof.
  eexists. split; [reflexivity|].
  apply (methods_belong_to_their_struct id samples.print_type
           (samples.parse samples.methods_around) "m.go" samples.fset
           samples.methods_around _ "m" None);
    reflexivity.
Defined.

(** *** main *)



End codegen_more.
